(** * Structure functions of two-dimensional fields: the statistics library

    A shallow embedding of [stats.cpp], [tools.cpp], [vsf.cpp] and [time.cpp].
    Doubles are the binary64 numbers of the kernel, so every definition below
    evaluates on concrete grids; the OpenMP regions are modelled by an explicit
    schedule that says which thread runs which iteration and in which order the
    thread-local results are merged. *)

From Stdlib Require Import ZArith List Lia Bool Floats Permutation.
Import ListNotations.
From Stdlib Require String Ascii DecimalString.
Import String.StringSyntax Ascii.AsciiSyntax.
Delimit Scope string_scope with string.
Delimit Scope char_scope with char.

(** ** Machine integers *)

(** [int] is a 32-bit two's complement integer and [size_t] a 64-bit unsigned
    one.  Both are carried by [Z]; the wrap-around is applied at every
    operation of the source that can leave the range. *)
Definition int_wrap (z : Z) : Z := ((z + 2 ^ 31) mod 2 ^ 32 - 2 ^ 31)%Z.
Definition size_t_wrap (z : Z) : Z := (z mod 2 ^ 64)%Z.

Definition INT_MAX : Z := (2 ^ 31 - 1)%Z.

(** ** Doubles *)

Abbreviation double := float.

Definition isnan (x : double) : bool := is_nan x.

Arguments isnan : simpl never.

(** Conversion of an integer to the nearest double (ties to even), as done by
    the implicit conversions of [int] and [size_t] operands. *)
Definition double_of_Z (z : Z) : double :=
  SF2Prim (binary_normalize prec emax z 0 false).

Abbreviation vector_2d := (list (list double)).

(** A [std::array<double, 2>] holding a distance and a value. *)
Abbreviation sample := (double * double)%type.

(** [std::unordered_map<double, std::vector<double>>]: the entries in the order
    of their first insertion.  Keys are compared with [==] on doubles, as
    [std::equal_to<double>] does. *)
Abbreviation double_unordered_map := (list (double * list double)).

(** ** stats.cpp *)

(** [mean(const vector<double>&)] *)
Definition mean (vals : list double) : double :=
  let total :=
    fold_left (fun total val => if isnan val then total else (total + val)%float)
              vals 0%float in
  let size :=
    int_wrap (Z.of_nat (length (filter (fun val => negb (isnan val)) vals))) in
  (total / double_of_Z size)%float.

(** The inner accumulation of [mean(const vector_2d&)] over one row. *)
Definition mean_row (val_vector : list double) : double * Z :=
  fold_left (fun acc val =>
               if isnan val then acc
               else ((fst acc + val)%float, int_wrap (snd acc + 1)))
            val_vector (0%float, 0%Z).

(** The loop of [mean(const vector_2d&)]: the running [total] and [size]. *)
Definition mean_2d_loop (vals : vector_2d) : double * Z :=
  fold_left (fun st val_vector =>
               let result := mean_row val_vector in
               ((fst st + fst result)%float, int_wrap (snd st + snd result)))
            vals (0%float, 0%Z).

(** [mean(const vector_2d&)] *)
Definition mean_2d (vals : vector_2d) : double :=
  let st := mean_2d_loop vals in
  (fst st / double_of_Z (snd st))%float.

(** [sum(const std::vector<double>&)] *)
Definition sum (vals : list double) : double :=
  fold_left (fun acc val => (acc + val)%float) vals 0%float.

(** [sum(const std::vector<std::vector<double>>&)] *)
Definition sum_2d (vals : vector_2d) : double :=
  fold_left (fun acc val_vector =>
               let inner_result :=
                 fold_left (fun inner_acc val =>
                              if isnan val then inner_acc
                              else (inner_acc + val)%float)
                           val_vector 0%float in
               (acc + inner_result)%float)
            vals 0%float.

(** [sum_of_squares(const vector_2d&)] *)
Definition sum_of_squares (vals : vector_2d) : double :=
  fold_left (fun acc val_vector =>
               let inner_result :=
                 fold_left (fun inner_acc val =>
                              if isnan val then inner_acc
                              else (inner_acc + val * val)%float)
                           val_vector 0%float in
               (acc + inner_result)%float)
            vals 0%float.

(** The step shared by the two variance accumulations. *)
Definition variance_step (mean_val : double) (acc : double * Z) (val : double)
  : double * Z :=
  if isnan val then acc
  else ((fst acc + (val - mean_val) * (val - mean_val))%float,
        int_wrap (snd acc + 1)).

(** [variance(const vector<double>&)] *)
Definition variance (vals : list double) : double :=
  let mean_val := mean vals in
  let result := fold_left (variance_step mean_val) vals (0%float, 0%Z) in
  (fst result / double_of_Z (snd result))%float.

(** The accumulation of [variance(const vector_2d&)]: every row continues from
    the accumulator left by the rows before it. *)
Definition variance_2d_loop (mean_val : double) (vals : vector_2d) : double * Z :=
  fold_left (fun acc val_vector =>
               let inner_result :=
                 fold_left (variance_step mean_val) val_vector (fst acc, snd acc) in
               (fst inner_result, snd inner_result))
            vals (0%float, 0%Z).

(** [variance(const vector_2d&)] *)
Definition variance_2d (vals : vector_2d) : double :=
  let mean_val := mean_2d vals in
  let result := variance_2d_loop mean_val vals in
  (fst result / double_of_Z (snd result))%float.

(** [standard_deviation(const vector<double>&)] *)
Definition standard_deviation (vals : list double) : double :=
  sqrt (variance vals).

(** [count_non_nan(const std::vector<std::vector<double>>&)] *)
Definition count_non_nan (vals : vector_2d) : Z :=
  fold_left (fun acc val_vector =>
               let inner_result :=
                 fold_left (fun inner_acc val =>
                              if isnan val then inner_acc
                              else int_wrap (inner_acc + 1))
                           val_vector 0%Z in
               int_wrap (acc + inner_result))
            vals 0%Z.

(** [subtract_mean(vector_2d&)]: the one function that writes to a grid.  It
    sweeps the first [width] cells of every row, [width] being the length of
    row 0. *)
Definition subtract_mean (input_array : vector_2d) : vector_2d :=
  let width := length (nth 0 input_array []) in
  let mean_value := mean_2d input_array in
  map (fun row =>
         map (fun v => (v - mean_value)%float) (firstn width row)
         ++ skipn width row)
      input_array.

(** ** The OpenMP schedule *)

(** What the OpenMP runtime and the hash table leave open.  Every parallel
    loop deals its iterations to the threads of the team; a thread runs the
    iterations it owns in increasing order. *)
Record schedule := {
  (** [omp_get_max_threads()], also the size of every team *)
  omp_max_threads : nat;
  (** thread running iteration [(y, x)] of the collapsed loop of
      [apply_vector_map] *)
  pairs_owner : nat -> nat -> nat;
  (** order in which the threads pass the critical section of
      [combine_vectors] *)
  critical_order : list nat;
  (** thread running iteration [i] of the loop of
      [regroup_distance_thread_local] *)
  regroup_owner : nat -> nat;
  (** thread running iteration [i] of the loop of [structure_function] *)
  reduce_owner : nat -> nat;
  (** order in which an unordered map hands out its entries *)
  map_order : double_unordered_map -> double_unordered_map
}.

(** A schedule is admissible when every iteration is owned by a thread of the
    team, every thread passes the critical section once, and a traversal of a
    map visits every entry once. *)
Record schedule_ok (s : schedule) : Prop := {
  pairs_owner_lt : forall y x, pairs_owner s y x < omp_max_threads s;
  critical_order_perm :
    Permutation (critical_order s) (seq 0 (omp_max_threads s));
  regroup_owner_lt : forall i, regroup_owner s i < omp_max_threads s;
  reduce_owner_lt : forall i, reduce_owner s i < omp_max_threads s;
  map_order_perm : forall m, Permutation (map_order s m) m
}.

(** The run with a single thread, maps traversed in insertion order. *)
Definition sequential : schedule := {|
  omp_max_threads := 1;
  pairs_owner := fun _ _ => 0;
  critical_order := [0];
  regroup_owner := fun _ => 0;
  reduce_owner := fun _ => 0;
  map_order := fun m => m
|}.

(** A run with two threads: iterations dealt by parity, the second thread
    first through the critical section, maps traversed from their last entry
    to their first. *)
Definition two_threads : schedule := {|
  omp_max_threads := 2;
  pairs_owner := fun y x => (y + x) mod 2;
  critical_order := [1; 0];
  regroup_owner := fun i => i mod 2;
  reduce_owner := fun i => (i + 1) mod 2;
  map_order := fun m => rev m
|}.

(** [for (k = lo; k < hi; ++k) body] on a state [S]. *)
Definition for_loop {S : Type} (lo hi : nat) (body : nat -> S -> S) (s : S) : S :=
  fold_left (fun s k => body k s) (seq lo (hi - lo)) s.

(** ** tools.cpp *)

(** [m[k].push_back(v)] *)
Fixpoint push_back_at (k v : double) (m : double_unordered_map)
  : double_unordered_map :=
  match m with
  | [] => [(k, [v])]
  | (k', vs) :: m' =>
      if (k' =? k)%float then (k', vs ++ [v]) :: m'
      else (k', vs) :: push_back_at k v m'
  end.

Section UnorderedMap.
(** A [std::unordered_map<key, std::vector<double>>] whose keys are compared
    with [key_eq], as the list of its entries in the order of their first
    insertion. *)
Context {key : Type}.
Variable key_eq : key -> key -> bool.

(** [m[k]], the map after the call: [operator[]] returns the entry of the
    first key that compares equal to [k], and creates an entry with an empty
    vector when there is none. *)
Fixpoint operator_index (k : key) (m : list (key * list double))
  : list (key * list double) :=
  match m with
  | [] => [(k, [])]
  | (k', vs) :: m' =>
      if key_eq k' k then (k', vs) :: m'
      else (k', vs) :: operator_index k m'
  end.

(** [m[k]], the place of the entry the call returns, in the map after the
    call. *)
Fixpoint position_of (k : key) (m : list (key * list double)) : nat :=
  match m with
  | [] => 0
  | (k', _) :: m' => if key_eq k' k then 0 else S (position_of k m')
  end.

(** [insert] of [vals] at the end of the vector of the entry at place [n]. *)
Fixpoint append_at (n : nat) (vals : list double) (m : list (key * list double))
  : list (key * list double) :=
  match n, m with
  | _, [] => []
  | 0, (k', vs) :: m' => (k', vs ++ vals) :: m'
  | S n', entry :: m' => entry :: append_at n' vals m'
  end.

(** [m[k].insert(m[k].end(), vals.begin(), vals.end())].  [operator[]] is
    called twice: first for the vector [insert] works on, then for the vector
    whose [end()] is the position.  For a key that compares equal to itself
    both calls return the same entry, and [vals] is appended to its vector.
    A key that does not (a not-a-number) is found by neither call: each call
    creates an entry of its own, the two vectors are empty, the end of the
    second is where the first ends, and [vals] goes to the first entry while
    the second stays empty. *)
Definition insert_at_end_of (k : key) (vals : list double)
  (m : list (key * list double)) : list (key * list double) :=
  let target := position_of k m in
  let m := operator_index k m in
  let m := operator_index k m in
  append_at target vals m.
End UnorderedMap.

(** [regrouped_vals[pair.first].insert(regrouped_vals[pair.first].end(),
    pair.second.begin(), pair.second.end())] on a [double_unordered_map] *)
Definition insert_end_at (k : double) (vals : list double) (m : double_unordered_map)
  : double_unordered_map :=
  insert_at_end_of PrimFloat.eqb k vals m.

Arguments insert_end_at : simpl never.

(** The thread-local map of thread [t] after the parallel loop of
    [regroup_distance_thread_local]. *)
Definition local_regroup_vals (s : schedule) (t : nat)
  (single_dists_and_vals_1d : list sample) : double_unordered_map :=
  fold_left (fun local_map i =>
               let dist_and_val := nth i single_dists_and_vals_1d (0%float, 0%float) in
               push_back_at (fst dist_and_val) (snd dist_and_val) local_map)
            (filter (fun i => regroup_owner s i =? t)
                    (seq 0 (length single_dists_and_vals_1d)))
            [].

(** [regroup_distance_thread_local] on (distance, value) pairs; the result is
    the new content of [regrouped_vals]. *)
Definition regroup_distance_thread_local (s : schedule)
  (single_dists_and_vals_1d : list sample) (regrouped_vals : double_unordered_map)
  : double_unordered_map :=
  fold_left (fun regrouped_vals t =>
               fold_left (fun regrouped_vals pair =>
                            insert_end_at (fst pair) (snd pair) regrouped_vals)
                         (map_order s (local_regroup_vals s t single_dists_and_vals_1d))
                         regrouped_vals)
            (seq 0 (omp_max_threads s))
            regrouped_vals.

(** [combine_vectors] *)
Definition combine_vectors (dest src : list sample) : list sample := dest ++ src.

(** [input_array[y][x]].  A read outside the grid is undefined in the source;
    here it yields a not-a-number. *)
Definition at2 (input_array : vector_2d) (y x : nat) : double :=
  nth x (nth y input_array []) nan.

(** The distance computed at line 114: the subtractions, products and the sum
    are [size_t] operations, the result is converted to a double for [sqrt]. *)
Definition pair_distance (x y i j : Z) : double :=
  let dx := size_t_wrap (i - x) in
  let dy := size_t_wrap (j - y) in
  sqrt (double_of_Z (size_t_wrap (size_t_wrap (dx * dx) + size_t_wrap (dy * dy)))).

(** The reservation computed at line 99. *)
Definition max_possible_size (height width : Z) : Z :=
  let hw := size_t_wrap (height * width) in
  (size_t_wrap (hw * hw) / 2)%Z.

Section ApplyVectorMap.
Variable input_array : vector_2d.
Variable function : double -> double -> double.

Let height := length input_array.
Let width := length (nth 0 input_array []).

(** One iteration [(y, x)] of the collapsed loop, appending to the buffer of
    the thread that runs it. *)
Definition pairs_from (y x : nat) (buf : list sample) : list sample :=
  if isnan (at2 input_array y x) then buf
  else
    for_loop y height (fun j =>
      for_loop (if j =? y then x else 0) width (fun i buf =>
        if isnan (at2 input_array j i) then buf
        else
          let dist := pair_distance (Z.of_nat x) (Z.of_nat y)
                                    (Z.of_nat i) (Z.of_nat j) in
          let val := function (at2 input_array y x) (at2 input_array j i) in
          buf ++ [(dist, val)])) buf.

(** The iterations of the collapsed loop, in row-major order. *)
Definition collapsed_iterations : list (nat * nat) :=
  flat_map (fun y => map (fun x => (y, x)) (seq 0 width)) (seq 0 height).

(** [thread_single_dists_and_vals] of thread [t] at the end of the loop. *)
Definition thread_single_dists_and_vals (s : schedule) (t : nat) : list sample :=
  fold_left (fun buf yx => pairs_from (fst yx) (snd yx) buf)
            (filter (fun yx => pairs_owner s (fst yx) (snd yx) =? t)
                    collapsed_iterations)
            [].

(** [apply_vector_map] *)
Definition apply_vector_map (s : schedule) : list sample :=
  fold_left (fun single_dists_and_vals t =>
               combine_vectors single_dists_and_vals
                               (thread_single_dists_and_vals s t))
            (critical_order s) [].
End ApplyVectorMap.

(** [multiply_pairs] *)
Definition multiply_pairs (s : schedule) (input_array : vector_2d) : list sample :=
  apply_vector_map input_array (fun a b => (a * b)%float) s.

(** [subtract_pairs] *)
Definition subtract_pairs (s : schedule) (input_array : vector_2d) : list sample :=
  apply_vector_map input_array (fun a b => abs (a - b)) s.

(** ** vsf.cpp *)

Section StructureFunction.
(** [std::pow] on doubles, from the C library. *)
Variable c_pow : double -> double -> double.

(** [pow(const vector<double>&, double)] of stats.cpp *)
Definition pow (vals : list double) (exponent : double) : list double :=
  if (exponent =? 1)%float then vals
  else map (fun val => c_pow val exponent) vals.

Variable variance_val : double.
Variable order : Z.

(** The body of the loop over the buckets: the rows it appends to the
    thread-local output. *)
Definition structure_row (bucket : double * list double) : vector_2d :=
  let dist := fst bucket in
  let vals := snd bucket in
  if (dist =? 0)%float then []
  else
    let pow_values := pow vals (double_of_Z order) in
    let N := int_wrap (Z.of_nat (length pow_values)) in
    if (N =? 1)%Z then []
    else
      let mean_val := mean pow_values in
      let std_val := standard_deviation pow_values in
      let structure := (mean_val / variance_val)%float in
      let structure_uncertainty :=
        (std_val / (variance_val * sqrt (double_of_Z (int_wrap (N - 1)))))%float in
      [[dist; structure; structure_uncertainty]].

(** [thread_local_results[t]] at the end of the parallel region: the [i]-th
    entry of the map is the [i]-th entry of its traversal. *)
Definition thread_local_result (s : schedule) (regrouped_vals : double_unordered_map)
  (t : nat) : vector_2d :=
  let entries := map_order s regrouped_vals in
  fold_left (fun local_output i =>
               local_output ++ structure_row (nth i entries (0%float, [])))
            (filter (fun i => reduce_owner s i =? t) (seq 0 (length entries)))
            [].
End StructureFunction.

(** [structure_function] *)
Definition structure_function (c_pow : double -> double -> double) (s : schedule)
  (input_array : vector_2d) (order : Z) : vector_2d :=
  let single_dists_and_vals_1d := subtract_pairs s input_array in
  let regrouped_vals :=
    regroup_distance_thread_local s single_dists_and_vals_1d [] in
  let variance_val := variance_2d input_array in
  fold_left (fun output_array t =>
               output_array
               ++ thread_local_result c_pow variance_val order s regrouped_vals t)
            (seq 0 (omp_max_threads s)) [].

(** ** Reference definitions: the pairwise enumerator *)

(** A grid is rectangular when every row has the length of row 0. *)
Definition rectangular (input_array : vector_2d) : Prop :=
  Forall (fun row => length row = length (nth 0 input_array [])) input_array.

(** The content of the cell in row [y] and column [x], when the grid has one. *)
Definition cell (input_array : vector_2d) (y x : nat) : option double :=
  match nth_error input_array y with
  | Some row => nth_error row x
  | None => None
  end.

(** The cells [(j, i)] paired with [(y, x)]: those that follow it in row-major
    order, itself included, and do not hold a not-a-number. *)
Definition partners (input_array : vector_2d) (y x : nat) : list (nat * nat) :=
  let height := length input_array in
  let width := length (nth 0 input_array []) in
  flat_map (fun j =>
              map (fun i => (j, i))
                  (filter (fun i => negb (isnan (at2 input_array j i)))
                          (seq (if j =? y then x else 0)
                               (width - (if j =? y then x else 0)))))
           (seq y (height - y)).

(** The pairs of cells [((y, x), (j, i))] visited by the enumerator, in the
    order of the run with one thread. *)
Definition visited_pairs (input_array : vector_2d)
  : list ((nat * nat) * (nat * nat)) :=
  flat_map (fun yx =>
              if isnan (at2 input_array (fst yx) (snd yx)) then []
              else map (fun ji => (yx, ji))
                       (partners input_array (fst yx) (snd yx)))
           (collapsed_iterations input_array).

(** The sample pushed for a pair of cells. *)
Definition sample_of (input_array : vector_2d)
  (function : double -> double -> double) (p : (nat * nat) * (nat * nat)) : sample :=
  let '((y, x), (j, i)) := p in
  (pair_distance (Z.of_nat x) (Z.of_nat y) (Z.of_nat i) (Z.of_nat j),
   function (at2 input_array y x) (at2 input_array j i)).

(** What one iteration of the collapsed loop appends. *)
Definition iteration_samples (input_array : vector_2d)
  (function : double -> double -> double) (yx : nat * nat) : list sample :=
  if isnan (at2 input_array (fst yx) (snd yx)) then []
  else map (fun ji => sample_of input_array function (yx, ji))
           (partners input_array (fst yx) (snd yx)).

(** The cells of the grid that are not missing. *)
Definition non_missing_cells (input_array : vector_2d) : list (nat * nat) :=
  filter (fun yx => negb (isnan (at2 input_array (fst yx) (snd yx))))
         (collapsed_iterations input_array).

(** Row-major order on cells [(row, column)]. *)
Definition row_major_le (p q : nat * nat) : Prop :=
  fst p < fst q \/ (fst p = fst q /\ snd p <= snd q).

(** Row-major order on cells, as a test. *)
Definition row_major_leb (p q : nat * nat) : bool :=
  (fst p <? fst q) || ((fst p =? fst q) && (snd p <=? snd q)).

(** The number of ordered pairs [(a, b)] of entries of [l] with [leb a b]. *)
Definition count_ordered_pairs {A : Type} (leb : A -> A -> bool) (l : list A) : nat :=
  list_sum (map (fun a => length (filter (leb a) l)) l).

(** The square of the Euclidean distance between two cells, an integer:
    [(i - x)^2 + (j - y)^2]. *)
Definition squared_distance (p : (nat * nat) * (nat * nat)) : Z :=
  let '((y, x), (j, i)) := p in
  ((Z.of_nat i - Z.of_nat x) ^ 2 + (Z.of_nat j - Z.of_nat y) ^ 2)%Z.

(** ** Reference definitions: the aggregator and the reducer *)

(** The (key, value) pairs held by a map, bucket after bucket. *)
Definition flatten (m : double_unordered_map) : list sample :=
  flat_map (fun b => map (fun v => (fst b, v)) (snd b)) m.

(** The values of the samples whose distance compares equal to [k]. *)
Definition bucket_of (samples : list sample) (k : double) : list double :=
  map snd (filter (fun p => (fst p =? k)%float) samples).

(** On the keys [K], [==] on doubles is equality: no not-a-number, and not both
    zeros. *)
Definition exact_keys (K : list double) : Prop :=
  forall a b, In a K -> In b K -> ((a =? b)%float = true <-> a = b).

(** Every bucket of the map holds at least one value. *)
Definition nonempty_buckets (m : double_unordered_map) : Prop :=
  Forall (fun b => snd b <> []) m.

(** The loop of [regroup_distance_thread_local] seen on the samples a thread
    owns rather than on their indices. *)
Definition owned_samples (s : schedule) (t : nat) (samples : list sample)
  : list sample :=
  map (fun i => nth i samples (0%float, 0%float))
      (filter (fun i => regroup_owner s i =? t) (seq 0 (length samples))).

(** The map [m] holds the samples [l] under pairwise different keys of [K]. *)
Definition holds (K : list double) (m : double_unordered_map) (l : list sample)
  : Prop :=
  Permutation (flatten m) l /\ NoDup (map fst m) /\ incl (map fst m) K.

(** The sample count [N] read by the reducer for a bucket holding [vals]. *)
Definition bucket_count (c_pow : double -> double -> double) (order : Z)
  (vals : list double) : Z :=
  int_wrap (Z.of_nat (length (pow c_pow vals (double_of_Z order)))).

(** The rows of the buckets of a map, bucket after bucket. *)
Definition bucket_rows (c_pow : double -> double -> double)
  (variance_val : double) (order : Z) (m : double_unordered_map) : vector_2d :=
  flat_map (structure_row c_pow variance_val order) m.

(** ** Reference definitions: sums and binary64 numbers *)

(** The sum of the entries that are not missing. *)
Definition sum_non_missing (vals : list double) : double :=
  fold_left (fun acc val => (acc + val)%float)
            (filter (fun val => negb (isnan val)) vals) 0%float.

(** A binary64 number that is not a zero: what a rounding that starts above
    the least exponent returns. *)
Definition not_zero (x : spec_float) : Prop :=
  match x with
  | S754_zero _ => False
  | _ => True
  end.

(** ** Concrete inputs *)

(** A stand-in for [std::pow] in the runs of order 1, which never call it. *)
Definition unused_pow (val exponent : double) : double := nan.

(** The grid [[1, 2], [3, 4]] of the concrete scenario. *)
Definition grid_1234 : vector_2d := [[1; 2]; [3; 4]]%float.

(** The pairwise differences of [grid_1234] in the order of the run with one
    thread. *)
Definition samples_1234 : list sample :=
  Eval vm_compute in
    map (sample_of grid_1234 (fun a b => abs (a - b))) (visited_pairs grid_1234).

(** A grid of the concrete scenario's shape without a single value. *)
Definition grid_missing : vector_2d := [[nan; nan]; [nan; nan]].

(** A grid of one row and [2^32 + 1] columns whose only values are at its two
    ends. *)
Definition long_row : vector_2d :=
  [1%float :: repeat nan (N.to_nat 4294967295) ++ [1%float]].

(** The lists obtained by inserting [a] somewhere in [l]. *)
Fixpoint insert_everywhere {A : Type} (a : A) (l : list A) : list (list A) :=
  match l with
  | [] => [[a]]
  | b :: l' => (a :: l) :: map (cons b) (insert_everywhere a l')
  end.

(** The rearrangements of a list. *)
Fixpoint all_perms {A : Type} (l : list A) : list (list A) :=
  match l with
  | [] => [[]]
  | a :: l' => flat_map (insert_everywhere a) (all_perms l')
  end.

(** ** Proof steps that recur *)

(** Moving the first list of a permutation problem into the second. *)
Ltac place_head :=
  lazymatch goal with
  | |- Permutation [] [] => apply perm_nil
  | |- Permutation (?a :: ?l) ?l' =>
      let rec go pre post :=
        lazymatch post with
        | a :: ?post' =>
            apply (Permutation_trans
                     (l' := a :: (rev pre ++ post')));
            [apply perm_skip; cbn [rev app]
            |apply (Permutation_middle (rev pre) post' a)]
        | ?b :: ?post' => go (b :: pre) post'
        end in
      go (@nil double) l'
  end.

(** Refuting an equation between two different written-out doubles. *)
Ltac double_neq :=
  let H := fresh in
  intros H; apply (f_equal Prim2SF) in H; vm_compute in H; discriminate H.

(** ** tools.cpp: the aggregator on two-component distances *)

(** A [std::array<double, 3>] holding the two components of a distance and a
    value. *)
Abbreviation sample_2d := ((double * double) * double)%type.

(** [std::unordered_map<std::array<double, 2>, std::vector<double>,
    DoubleArrayHash>]: the entries in the order of their first insertion.
    Keys are compared with [==] on arrays, component by component; the hash
    only decides where the table keeps an entry. *)
Abbreviation array_unordered_map := (list ((double * double) * list double)).

(** [==] on [std::array<double, 2>] *)
Definition array_eqb (a b : double * double) : bool :=
  (fst a =? fst b)%float && (snd a =? snd b)%float.

(** [m[k].push_back(v)] on an [array_unordered_map] *)
Fixpoint push_back_at_2d (k : double * double) (v : double)
  (m : array_unordered_map) : array_unordered_map :=
  match m with
  | [] => [(k, [v])]
  | (k', vs) :: m' =>
      if array_eqb k' k then (k', vs ++ [v]) :: m'
      else (k', vs) :: push_back_at_2d k v m'
  end.

(** [regrouped_vals[pair.first].insert(regrouped_vals[pair.first].end(),
    pair.second.begin(), pair.second.end())] on an [array_unordered_map]:
    two calls of [operator[]], as on a [double_unordered_map]. *)
Definition insert_end_at_2d (k : double * double) (vals : list double)
  (m : array_unordered_map) : array_unordered_map :=
  insert_at_end_of array_eqb k vals m.

Arguments insert_end_at_2d : simpl never.

(** The thread-local map of thread [t] after the parallel loop of
    [regroup_distance_thread_local] on (dist_x, dist_y, value) groups. *)
Definition local_regroup_vals_2d (s : schedule) (t : nat)
  (single_dists_and_vals_2d : list sample_2d) : array_unordered_map :=
  fold_left (fun local_map i =>
               let dist_and_val :=
                 nth i single_dists_and_vals_2d ((0%float, 0%float), 0%float) in
               push_back_at_2d (fst dist_and_val) (snd dist_and_val) local_map)
            (filter (fun i => regroup_owner s i =? t)
                    (seq 0 (length single_dists_and_vals_2d)))
            [].

(** [regroup_distance_thread_local] on (dist_x, dist_y, value) groups;
    [array_map_order] is the order in which an [array_unordered_map] hands out
    its entries. *)
Definition regroup_distance_thread_local_2d (s : schedule)
  (array_map_order : array_unordered_map -> array_unordered_map)
  (single_dists_and_vals_2d : list sample_2d)
  (regrouped_vals : array_unordered_map) : array_unordered_map :=
  fold_left (fun regrouped_vals t =>
               fold_left (fun regrouped_vals pair =>
                            insert_end_at_2d (fst pair) (snd pair) regrouped_vals)
                         (array_map_order
                            (local_regroup_vals_2d s t single_dists_and_vals_2d))
                         regrouped_vals)
            (seq 0 (omp_max_threads s))
            regrouped_vals.

(** The samples thread [t] owns in the loop over (dist_x, dist_y, value)
    groups. *)
Definition owned_samples_2d (s : schedule) (t : nat) (samples : list sample_2d)
  : list sample_2d :=
  map (fun i => nth i samples ((0%float, 0%float), 0%float))
      (filter (fun i => regroup_owner s i =? t) (seq 0 (length samples))).

(** ** time.cpp *)

(** The class [Time]: three [int] fields. *)
Record Time := {
  m_hours : Z;
  m_minutes : Z;
  m_seconds : Z
}.

(** [Time::Time()] *)
Definition Time_zero : Time :=
  {| m_hours := 0; m_minutes := 0; m_seconds := 0 |}.

(** [Time::Time(const int, const int, const int)]: the fields as given. *)
Definition Time_of (p_hours p_minutes p_seconds : Z) : Time :=
  {| m_hours := p_hours; m_minutes := p_minutes; m_seconds := p_seconds |}.

(** [Time::set_to_current_time], [now] being what [time(NULL)] returns.  The
    value is narrowed to an [int]; [/] and [%] on [int] truncate towards
    zero. *)
Definition set_to_current_time (now : Z) (t : Time) : Time :=
  let seconds := int_wrap now in
  let gmt_hours := Z.rem (Z.quot seconds 3600) 24 in
  let hours := (gmt_hours - 4)%Z in
  {| m_hours := if (hours <? 0)%Z then (hours + 24)%Z else hours;
     m_minutes := Z.rem (Z.quot seconds 60) 60;
     m_seconds := Z.rem seconds 60 |}.

(** [Time::asg_hours] *)
Definition asg_hours (p_hours : Z) (t : Time) : Time :=
  {| m_hours := if (p_hours >=? 0)%Z && (p_hours <? 24)%Z then p_hours else 0%Z;
     m_minutes := m_minutes t;
     m_seconds := m_seconds t |}.

(** [Time::asg_minutes] *)
Definition asg_minutes (p_minutes : Z) (t : Time) : Time :=
  {| m_hours := m_hours t;
     m_minutes :=
       if (p_minutes >=? 0)%Z && (p_minutes <? 60)%Z then p_minutes else 0%Z;
     m_seconds := m_seconds t |}.

(** [Time::asg_seconds] *)
Definition asg_seconds (p_seconds : Z) (t : Time) : Time :=
  {| m_hours := m_hours t;
     m_minutes := m_minutes t;
     m_seconds :=
       if (p_seconds >=? 0)%Z && (p_seconds <? 60)%Z then p_seconds else 0%Z |}.

(** [Time::get_hours], [Time::get_minutes], [Time::get_seconds] *)
Definition get_hours (t : Time) : Z := m_hours t.
Definition get_minutes (t : Time) : Z := m_minutes t.
Definition get_seconds (t : Time) : Z := m_seconds t.

(** [stream << qty] for an [int]: its decimal digits, after a minus sign when
    it is negative. *)
Definition print_int (qty : Z) : String.string :=
  DecimalString.NilZero.string_of_int (Z.to_int qty).

(** [format] *)
Definition format (qty : Z) : String.string :=
  String.append (if (qty <? 10)%Z then "0"%string else String.EmptyString)
                (print_int qty).

(** [Time::get_formatted_time]: the text, and the object it leaves. *)
Definition get_formatted_time (now : Z) (t : Time) : String.string * Time :=
  let t' := set_to_current_time now t in
  (String.append (format (m_hours t'))
     (String.append ":"%string
        (String.append (format (m_minutes t'))
           (String.append ":"%string (format (m_seconds t'))))),
   t').

(** ** Reference definitions: the entries a statistic reads *)

(** The entries of a vector that are not missing, in their order. *)
Definition non_missing (vals : list double) : list double :=
  filter (fun val => negb (isnan val)) vals.

(** The number of cells of a grid that are not missing. *)
Definition non_missing_count (vals : vector_2d) : nat :=
  length (concat (map non_missing vals)).

(** A binary64 number whose sign bit is clear, or a not-a-number: what sums
    of squares and their quotients by a count are. *)
Definition sign_clear (x : spec_float) : Prop :=
  match x with
  | S754_zero s | S754_infinity s | S754_finite s _ _ => s = false
  | S754_nan => True
  end.

(** A binary64 number that is not a not-a-number and whose sign bit is clear:
    what the conversion of a [size_t] and its square root are. *)
Definition nonneg_number (x : spec_float) : Prop :=
  match x with
  | S754_zero s | S754_infinity s | S754_finite s _ _ => s = false
  | S754_nan => False
  end.

(** ** Reference definitions: what the aggregator does to a map *)

(** A bucket and what it has become: the same key, values added at the end. *)
Definition bucket_extends (b b' : double * list double) : Prop :=
  fst b' = fst b /\ exists extra, snd b' = snd b ++ extra.

(** A map and what it has become: the former buckets at their place, each
    extended at its end, then new buckets. *)
Definition map_extends (m m' : double_unordered_map) : Prop :=
  exists m1 m2, m' = m1 ++ m2 /\ Forall2 bucket_extends m m1.

(** The values held by a map, bucket after bucket. *)
Definition stored_values (m : double_unordered_map) : list double :=
  concat (map snd m).

(** The test of the reducer on a distance: [dist == 0] fails. *)
Definition nonzero_distance (dist : double) : bool := negb (dist =? 0)%float.

(** The values a map holds under the keys the reducer does not reject. *)
Definition far_values (m : double_unordered_map) : list double :=
  stored_values (filter (fun b => nonzero_distance (fst b)) m).

(** The samples at a distance the reducer does not reject. *)
Definition far_samples (samples : list sample) : list sample :=
  filter (fun dv => nonzero_distance (fst dv)) samples.

(** ** Reference definitions: the rows of the output *)

(** The distance a row of the output stands for: its first entry. *)
Definition row_distance (row : list double) : double := nth 0 row nan.

(** A pair of a cell with itself. *)
Definition self_pair (p : (nat * nat) * (nat * nat)) : bool :=
  (fst (fst p) =? fst (snd p)) && (snd (fst p) =? snd (snd p)).

(** ** Reference definitions: times of day *)

(** The fields are those of a time of day. *)
Definition time_of_day (t : Time) : Prop :=
  (0 <= m_hours t < 24)%Z /\ (0 <= m_minutes t < 60)%Z
  /\ (0 <= m_seconds t < 60)%Z.

(** The character of a decimal digit. *)
Definition digit_char (d : Z) : Ascii.ascii :=
  Ascii.ascii_of_nat (48 + Z.to_nat d).

(** A number below 100 written with two digits. *)
Definition two_digits (qty : Z) : String.string :=
  String.String (digit_char (qty / 10))
    (String.String (digit_char (qty mod 10)) String.EmptyString).

(** ** More concrete inputs *)

(** A grid whose second row has lost a value. *)
Definition grid_12n4 : vector_2d := [[1; 2]; [nan; 4]]%float.

(** A grid with two values. *)
Definition grid_1nn4 : vector_2d := [[1; nan]; [nan; 4]]%float.

(** * Properties *)

(** ** Lists and loops *)

Lemma fold_left_push {A B : Type} (g : A -> list B) (l : list A) (init : list B) :
  fold_left (fun buf a => buf ++ g a) l init = init ++ flat_map g l.
Proof.
  revert init; induction l as [|a l IH]; intros init; simpl.
  - now rewrite app_nil_r.
  - now rewrite IH, app_assoc.
Qed.

Lemma fold_left_appending {A B : Type} (body : list B -> A -> list B)
  (g : A -> list B) (l : list A) (init : list B) :
  (forall buf a, body buf a = buf ++ g a) ->
  fold_left body l init = init ++ flat_map g l.
Proof.
  intros Hbody. rewrite <- fold_left_push.
  revert init; induction l as [|a l IH]; intros init; simpl; [reflexivity|].
  now rewrite Hbody, IH.
Qed.

Lemma for_loop_appending {B : Type} (lo hi : nat) (body : nat -> list B -> list B)
  (g : nat -> list B) (buf : list B) :
  (forall k b, body k b = b ++ g k) ->
  for_loop lo hi body buf = buf ++ flat_map g (seq lo (hi - lo)).
Proof.
  intros Hbody. unfold for_loop.
  now apply fold_left_appending.
Qed.

Lemma flat_map_app_perm {A B : Type} (f g : A -> list B) (l : list A) :
  Permutation (flat_map (fun a => f a ++ g a) l) (flat_map f l ++ flat_map g l).
Proof.
  induction l as [|a l IH]; simpl; [constructor|].
  rewrite IH. rewrite <- !app_assoc. apply Permutation_app_head.
  rewrite !app_assoc. apply Permutation_app_tail. apply Permutation_app_comm.
Qed.

Lemma flat_map_all_nil {A B : Type} (f : A -> list B) (l : list A) :
  (forall a, In a l -> f a = []) -> flat_map f l = [].
Proof.
  induction l as [|a l IH]; intros H; simpl; [reflexivity|].
  rewrite (H a (or_introl eq_refl)), IH; [reflexivity|].
  intros a' Ha'. apply H. now right.
Qed.

Lemma flat_map_single_owner {B : Type} (o : nat) (b : list B) (ts : list nat) :
  NoDup ts -> In o ts ->
  flat_map (fun t => if o =? t then b else []) ts = b.
Proof.
  induction ts as [|t ts IH]; intros Hnd Hin; [contradiction|].
  inversion Hnd as [|? ? Hnotin Hnd']; subst. simpl.
  destruct (Nat.eqb_spec o t) as [->|Hne].
  - rewrite flat_map_all_nil; [now rewrite app_nil_r|].
    intros t0 Ht0. destruct (Nat.eqb_spec t t0); [subst; contradiction|reflexivity].
  - destruct Hin as [->|Hin]; [contradiction|]. now apply IH.
Qed.

(** The iterations of a parallel loop, dealt to the threads [ts] and run thread
    after thread, are the iterations of the sequential loop in another order. *)
Lemma owner_partition {A B : Type} (owner : A -> nat) (g : A -> list B)
  (ts : list nat) (l : list A) :
  NoDup ts -> (forall a, In a l -> In (owner a) ts) ->
  Permutation
    (flat_map (fun t => flat_map g (filter (fun a => owner a =? t) l)) ts)
    (flat_map g l).
Proof.
  intros Hnd. induction l as [|a l IH]; intros Hown; simpl.
  - rewrite flat_map_all_nil; [constructor | reflexivity].
  - transitivity
      (flat_map (fun t => (if owner a =? t then g a else [])
                          ++ flat_map g (filter (fun a0 => owner a0 =? t) l)) ts).
    + apply Permutation_refl'. apply flat_map_ext. intros t.
      destruct (owner a =? t); reflexivity.
    + rewrite flat_map_app_perm.
      rewrite flat_map_single_owner by (auto; apply Hown; now left).
      apply Permutation_app_head. apply IH.
      intros a' Ha'. apply Hown. now right.
Qed.

Lemma seq_owner_in (n o : nat) : o < n -> In o (seq 0 n).
Proof. intros H. apply in_seq. lia. Qed.

Lemma flat_map_guarded_singleton {A B : Type} (c : A -> bool) (h : A -> B)
  (l : list A) :
  flat_map (fun a => if c a then [] else [h a]) l
  = map h (filter (fun a => negb (c a)) l).
Proof.
  induction l as [|a l IH]; simpl; [reflexivity|].
  destruct (c a); simpl; now rewrite IH.
Qed.

Lemma map_flat_map {A B C : Type} (h : B -> C) (g : A -> list B) (l : list A) :
  map h (flat_map g l) = flat_map (fun a => map h (g a)) l.
Proof.
  induction l as [|a l IH]; simpl; [reflexivity|].
  now rewrite map_app, IH.
Qed.

(** ** Binary64 addition and the negative zero *)

Lemma shr_1_keeps_bits (k : Z) (mrs : shr_record) :
  (0 <= k)%Z -> (2 ^ (k + 1) <= shr_m mrs)%Z -> (2 ^ k <= shr_m (shr_1 mrs))%Z.
Proof.
  intros Hk. rewrite Z.pow_add_r, Z.pow_1_r by lia.
  assert (0 < 2 ^ k)%Z by (apply Z.pow_pos_nonneg; lia).
  destruct mrs as [m r s]. simpl.
  destruct m as [|[p|p|]|p]; simpl; lia.
Qed.

Lemma iter_shr_1_keeps_bits (p : positive) (k : Z) (mrs : shr_record) :
  (0 <= k)%Z -> (2 ^ (k + Zpos p) <= shr_m mrs)%Z ->
  (2 ^ k <= shr_m (iter_pos shr_1 p mrs))%Z.
Proof.
  revert k mrs; induction p as [p IH|p IH|]; intros k mrs Hk H; simpl.
  - apply IH; [assumption|]. apply IH; [lia|].
    apply shr_1_keeps_bits; [lia|].
    replace (k + Zpos p + Zpos p + 1)%Z with (k + Zpos p~1)%Z by lia.
    assumption.
  - apply IH; [assumption|]. apply IH; [lia|].
    replace (k + Zpos p + Zpos p)%Z with (k + Zpos p~0)%Z by lia.
    assumption.
  - now apply shr_1_keeps_bits.
Qed.

Lemma digits2_pos_bits (m : positive) :
  (2 ^ (Zpos (digits2_pos m) - 1) <= Zpos m)%Z.
Proof.
  induction m as [m IH|m IH|]; simpl digits2_pos; [| |simpl; lia].
  - rewrite Pos2Z.inj_succ.
    replace (Z.succ (Zpos (digits2_pos m)) - 1)%Z
      with (Zpos (digits2_pos m) - 1 + 1)%Z by lia.
    rewrite Z.pow_add_r, Z.pow_1_r by lia. lia.
  - rewrite Pos2Z.inj_succ.
    replace (Z.succ (Zpos (digits2_pos m)) - 1)%Z
      with (Zpos (digits2_pos m) - 1 + 1)%Z by lia.
    rewrite Z.pow_add_r, Z.pow_1_r by lia. lia.
Qed.

Lemma shr_m_of_loc (m : Z) (l : location) : shr_m (shr_record_of_loc m l) = m.
Proof. destruct l as [|[]]; reflexivity. Qed.

(** Above the least exponent, rounding keeps a positive mantissa positive. *)
Lemma shr_fexp_positive (m : positive) (e : Z) (l : location) :
  (emin <= e)%Z ->
  (0 < shr_m (fst (shr_fexp prec emax (Zpos m) e l)))%Z
  /\ (emin <= snd (shr_fexp prec emax (Zpos m) e l))%Z.
Proof.
  intros He. unfold shr_fexp, shr, fexp, Zdigits2.
  pose proof (digits2_pos_bits m) as Hbits.
  set (d := Zpos (digits2_pos m)) in *.
  assert (Hd : (1 <= d)%Z) by (unfold d; lia).
  unfold SpecFloat.emin, prec, emax in *.
  destruct (Z.max (d + e - 53) (3 - 1024 - 53) - e)%Z as [|n|n] eqn:Hn; simpl;
    rewrite ?shr_m_of_loc; try (split; lia).
  split; [|lia].
  assert (H : (2 ^ 0 <= shr_m (iter_pos shr_1 n (shr_record_of_loc (Zpos m) l)))%Z).
  { apply iter_shr_1_keeps_bits; [lia|]. rewrite shr_m_of_loc.
    etransitivity; [|exact Hbits].
    apply Z.pow_le_mono_r; lia. }
  simpl in H. lia.
Qed.

Lemma round_nearest_even_positive (m : Z) (l : location) :
  (0 < m)%Z -> (0 < round_nearest_even m l)%Z.
Proof.
  intros Hm. destruct l as [|[]]; simpl; try lia.
  destruct (Z.even m); lia.
Qed.

Lemma binary_round_aux_not_zero (sx : bool) (m : positive) (e : Z) (l : location) :
  (emin <= e)%Z -> not_zero (binary_round_aux prec emax sx (Zpos m) e l).
Proof.
  intros He. unfold binary_round_aux.
  destruct (shr_fexp_positive m e l He) as [Hm1 He1].
  destruct (shr_fexp prec emax (Zpos m) e l) as [mrs1 e1]. simpl in Hm1, He1.
  pose proof (round_nearest_even_positive (shr_m mrs1) (loc_of_shr_record mrs1) Hm1)
    as Hm1'.
  destruct (round_nearest_even (shr_m mrs1) (loc_of_shr_record mrs1))
    as [|m1|m1]; try lia.
  destruct (shr_fexp_positive m1 e1 loc_Exact He1) as [Hm2 _].
  destruct (shr_fexp prec emax (Zpos m1) e1 loc_Exact) as [mrs2 e2].
  simpl in Hm2.
  destruct (shr_m mrs2) as [|m2|m2]; try lia.
  now destruct (e2 <=? emax - prec)%Z.
Qed.

Lemma binary_round_not_zero (sx : bool) (m : positive) (e : Z) :
  (emin <= e)%Z -> not_zero (binary_round prec emax sx m e).
Proof.
  intros He. unfold binary_round, shl_align.
  set (e' := fexp prec emax (Zpos (digits2_pos m) + e)).
  assert (He' : (emin <= e')%Z) by (unfold e', fexp; lia).
  destruct (e' - e)%Z; now apply binary_round_aux_not_zero.
Qed.

Lemma valid_binary_exponent (s : bool) (m : positive) (e : Z) :
  valid_binary (S754_finite s m e) = true -> (emin <= e)%Z.
Proof.
  simpl. unfold bounded, canonical_mantissa, fexp.
  intros H. apply andb_prop in H as [H _]. apply Z.eqb_eq in H. lia.
Qed.

(** A sum of two binary64 numbers is the negative zero only when both are. *)
Lemma SF64add_neg_zero (x y : spec_float) :
  valid_binary x = true -> valid_binary y = true ->
  SF64add x y = S754_zero true -> x = S754_zero true /\ y = S754_zero true.
Proof.
  intros Hx Hy. unfold SF64add, SFadd.
  destruct x as [[]|[]| |sx mx ex], y as [[]|[]| |sy my ey];
    try discriminate; try (now split).
  apply valid_binary_exponent in Hx, Hy.
  intros H. exfalso. revert H. unfold binary_normalize.
  set (ez := Z.min ex ey).
  assert (Hez : (emin <= ez)%Z) by (unfold ez; lia).
  destruct (cond_Zopp sx (Zpos (fst (shl_align mx ex ez)))
            + cond_Zopp sy (Zpos (fst (shl_align my ey ez))))%Z as [|m|m];
    [discriminate| |].
  - pose proof (binary_round_not_zero false m ez Hez) as Hnz.
    intros H. rewrite H in Hnz. exact Hnz.
  - pose proof (binary_round_not_zero true m ez Hez) as Hnz.
    intros H. rewrite H in Hnz. exact Hnz.
Qed.

Lemma add_neg_zero (x y : float) :
  (x + y)%float = neg_zero -> x = neg_zero /\ y = neg_zero.
Proof.
  intros H. apply (f_equal Prim2SF) in H. rewrite add_spec in H.
  change (Prim2SF neg_zero) with (S754_zero true) in H.
  apply SF64add_neg_zero in H as [Hx Hy]; try apply Prim2SF_valid.
  split; apply Prim2SF_inj; assumption.
Qed.

(** Adding zero changes nothing but the negative zero. *)
Lemma add_zero_r (x : float) : x <> neg_zero -> (x + 0)%float = x.
Proof.
  intros Hx. apply Prim2SF_inj. rewrite add_spec.
  change (Prim2SF 0) with (S754_zero false).
  destruct (Prim2SF x) as [[]|[]| |sx mx ex] eqn:E; try reflexivity.
  exfalso. apply Hx. apply Prim2SF_inj. exact E.
Qed.

Lemma add_nan_r (x : float) : (x + nan)%float = nan.
Proof.
  apply Prim2SF_inj. rewrite add_spec.
  change (Prim2SF nan) with S754_nan. now destruct (Prim2SF x) as [[]|[]| |].
Qed.

Lemma add_nan_l (x : float) : (nan + x)%float = nan.
Proof.
  apply Prim2SF_inj. rewrite add_spec.
  change (Prim2SF nan) with S754_nan. reflexivity.
Qed.

Lemma SFcompare_refl (x : spec_float) :
  x <> S754_nan -> SFcompare x x = Some Eq.
Proof.
  destruct x as [s|[]| |[] m e]; simpl; try reflexivity; try congruence;
    intros _; rewrite Z.compare_refl;
    change (Pos.compare_cont Eq m m) with (Pos.compare m m);
    now rewrite Pos.compare_refl.
Qed.

(** The only double that [isnan] accepts is the not-a-number of the kernel. *)
Lemma isnan_true (x : double) : isnan x = true -> x = nan.
Proof.
  unfold isnan, is_nan. rewrite negb_true_iff, eqb_spec. unfold SFeqb.
  intros H. apply Prim2SF_inj. change (Prim2SF nan) with S754_nan.
  destruct (Prim2SF x) eqn:E; try reflexivity;
    rewrite SFcompare_refl in H by discriminate; discriminate.
Qed.

(** ** Binary64 numbers that are never a not-a-number *)

Lemma shr_1_nonneg (mrs : shr_record) :
  (0 <= shr_m mrs)%Z -> (0 <= shr_m (shr_1 mrs))%Z.
Proof. destruct mrs as [[|[p|p|]|p] r s]; simpl; lia. Qed.

Lemma iter_shr_1_nonneg (p : positive) (mrs : shr_record) :
  (0 <= shr_m mrs)%Z -> (0 <= shr_m (iter_pos shr_1 p mrs))%Z.
Proof.
  revert mrs; induction p as [p IH|p IH|]; intros mrs H; simpl.
  - apply IH, IH. now apply shr_1_nonneg.
  - now apply IH, IH.
  - now apply shr_1_nonneg.
Qed.

Lemma shr_fexp_nonneg (m e : Z) (l : location) :
  (0 <= m)%Z -> (0 <= shr_m (fst (shr_fexp prec emax m e l)))%Z.
Proof.
  intros Hm. unfold shr_fexp, shr.
  destruct (fexp prec emax (Zdigits2 m + e) - e)%Z; simpl;
    rewrite ?shr_m_of_loc; try assumption.
  apply iter_shr_1_nonneg. now rewrite shr_m_of_loc.
Qed.

Lemma round_nearest_even_nonneg (m : Z) (l : location) :
  (0 <= m)%Z -> (0 <= round_nearest_even m l)%Z.
Proof.
  intros Hm. destruct l as [|[]]; simpl; try lia.
  destruct (Z.even m); lia.
Qed.

Lemma binary_round_aux_number (m e : Z) (l : location) :
  (0 <= m)%Z -> nonneg_number (binary_round_aux prec emax false m e l).
Proof.
  intros Hm. unfold binary_round_aux.
  pose proof (shr_fexp_nonneg m e l Hm) as H1.
  destruct (shr_fexp prec emax m e l) as [mrs1 e1]. simpl in H1.
  pose proof (round_nearest_even_nonneg _ (loc_of_shr_record mrs1) H1) as H1'.
  pose proof (shr_fexp_nonneg _ e1 loc_Exact H1') as H2.
  destruct (shr_fexp prec emax
              (round_nearest_even (shr_m mrs1) (loc_of_shr_record mrs1)) e1
              loc_Exact) as [mrs2 e2].
  simpl in H2.
  destruct (shr_m mrs2); [reflexivity| |lia].
  destruct (e2 <=? emax - prec)%Z; reflexivity.
Qed.

Lemma binary_round_number (m : positive) (e : Z) :
  nonneg_number (binary_round prec emax false m e).
Proof.
  unfold binary_round.
  destruct (shl_align m e (fexp prec emax (Zpos (digits2_pos m) + e))) as [mz ez].
  apply binary_round_aux_number. lia.
Qed.

Lemma binary_normalize_number (m e : Z) :
  (0 <= m)%Z -> nonneg_number (binary_normalize prec emax m e false).
Proof.
  intros Hm. destruct m as [|p|p]; simpl; [reflexivity| |lia].
  apply binary_round_number.
Qed.

Lemma SF2Prim_number (x : spec_float) :
  nonneg_number x -> nonneg_number (Prim2SF (SF2Prim x)).
Proof.
  destruct x as [sx|sx| |sx mx ex]; cbn [nonneg_number]; intros Hx; subst;
    try reflexivity; try contradiction.
  cbn [SF2Prim]. rewrite Z_ldexp_spec, of_uint63_spec.
  generalize (Uint63.to_Z_bounded (Uint63Axioms.of_Z (Zpos mx))).
  generalize (Uint63Axioms.to_Z (Uint63Axioms.of_Z (Zpos mx))).
  intros u [Hpos _].
  pose proof (binary_normalize_number u 0 Hpos) as Hn.
  destruct (binary_normalize prec emax u 0 false) as [s|s| |s m e];
    cbn [SFldexp nonneg_number] in *; try assumption.
  subst. apply binary_round_number.
Qed.

(** A [size_t] converted to a double is a number with a clear sign bit. *)
Lemma double_of_Z_number (z : Z) :
  (0 <= z)%Z -> nonneg_number (Prim2SF (double_of_Z z)).
Proof.
  intros Hz. unfold double_of_Z.
  now apply SF2Prim_number, binary_normalize_number.
Qed.

Lemma SFsqrt_number (x : spec_float) :
  nonneg_number x -> nonneg_number (SFsqrt prec emax x).
Proof.
  destruct x as [sx|sx| |sx mx ex]; cbn [nonneg_number]; intros Hx; subst;
    try reflexivity; try contradiction.
  unfold SFsqrt, SFsqrt_core_binary.
  set (m' := match (ex - 2 * _)%Z with
             | Z0 => Zpos mx | Zpos _ => _ | Zneg _ => 0%Z end).
  pose proof (Z.sqrtrem_sqrt m') as Hq. pose proof (Z.sqrt_nonneg m') as Hnn.
  destruct (Z.sqrtrem m') as [q r]. simpl in Hq. subst q.
  apply binary_round_aux_number. exact Hnn.
Qed.

(** The distance of a pair of cells is never a not-a-number. *)
Lemma pair_distance_number (x y i j : Z) :
  nonneg_number (Prim2SF (pair_distance x y i j)).
Proof.
  unfold pair_distance. cbv zeta. rewrite sqrt_spec.
  apply SFsqrt_number, double_of_Z_number.
  unfold size_t_wrap. apply Z.mod_pos_bound. lia.
Qed.

Lemma number_eqb_refl (d : double) :
  nonneg_number (Prim2SF d) -> (d =? d)%float = true.
Proof.
  intros H. rewrite eqb_spec. unfold SFeqb.
  rewrite SFcompare_refl; [reflexivity|].
  intros Hnan. rewrite Hnan in H. exact H.
Qed.

Lemma pair_distance_eqb_refl (x y i j : Z) :
  (pair_distance x y i j =? pair_distance x y i j)%float = true.
Proof. apply number_eqb_refl, pair_distance_number. Qed.

(** ** The pairwise enumerator *)

Section Enumerator.
Variable input_array : vector_2d.
Variable function : double -> double -> double.

Local Abbreviation iteration_samples := (iteration_samples input_array function).

Lemma pairs_from_appends (y x : nat) (buf : list sample) :
  pairs_from input_array function y x buf = buf ++ iteration_samples (y, x).
Proof.
  unfold pairs_from, iteration_samples; simpl.
  destruct (isnan (at2 input_array y x)); [now rewrite app_nil_r|].
  unfold partners. rewrite map_flat_map.
  apply for_loop_appending. intros j b.
  rewrite map_map.
  rewrite <- (flat_map_guarded_singleton
                (fun i => isnan (at2 input_array j i))
                (fun i => sample_of input_array function ((y, x), (j, i)))).
  apply for_loop_appending. intros i b'.
  destruct (isnan (at2 input_array j i)); [now rewrite app_nil_r|reflexivity].
Qed.

Lemma thread_single_dists_and_vals_eq (s : schedule) (t : nat) :
  thread_single_dists_and_vals input_array function s t
  = flat_map iteration_samples
             (filter (fun yx => pairs_owner s (fst yx) (snd yx) =? t)
                     (collapsed_iterations input_array)).
Proof.
  unfold thread_single_dists_and_vals.
  rewrite (fold_left_appending _ iteration_samples); [reflexivity|].
  intros buf [y x]. apply pairs_from_appends.
Qed.

Lemma apply_vector_map_eq (s : schedule) :
  apply_vector_map input_array function s
  = flat_map (thread_single_dists_and_vals input_array function s)
             (critical_order s).
Proof.
  unfold apply_vector_map.
  now rewrite (fold_left_appending _
                 (thread_single_dists_and_vals input_array function s)).
Qed.

Lemma visited_pairs_samples :
  flat_map iteration_samples (collapsed_iterations input_array)
  = map (sample_of input_array function) (visited_pairs input_array).
Proof.
  unfold visited_pairs. rewrite map_flat_map.
  apply flat_map_ext. intros yx. unfold iteration_samples.
  destruct (isnan (at2 input_array (fst yx) (snd yx))); [reflexivity|].
  now rewrite map_map.
Qed.

(** Whatever the schedule, the enumerator returns the samples of the visited
    pairs, in some order. *)
Lemma apply_vector_map_visited (s : schedule) :
  schedule_ok s ->
  Permutation (apply_vector_map input_array function s)
              (map (sample_of input_array function) (visited_pairs input_array)).
Proof.
  intros Hs. rewrite apply_vector_map_eq, <- visited_pairs_samples.
  rewrite (Permutation_flat_map _ (critical_order_perm s Hs)).
  erewrite flat_map_ext by (intros t; apply thread_single_dists_and_vals_eq).
  apply (owner_partition (fun yx => pairs_owner s (fst yx) (snd yx))).
  - apply seq_NoDup.
  - intros yx _. apply seq_owner_in, (pairs_owner_lt s Hs).
Qed.
End Enumerator.

Lemma in_apply_vector_map (input_array : vector_2d)
  (function : double -> double -> double) (s : schedule) (dv : sample) :
  In dv (apply_vector_map input_array function s) ->
  exists p, dv = sample_of input_array function p.
Proof.
  rewrite apply_vector_map_eq, in_flat_map. intros (t & _ & H).
  rewrite thread_single_dists_and_vals_eq, in_flat_map in H.
  destruct H as (yx & _ & H). unfold iteration_samples in H.
  destruct (isnan (at2 input_array (fst yx) (snd yx))); [contradiction|].
  apply in_map_iff in H as (ji & <- & _). now exists (yx, ji).
Qed.

(** No distance returned by the enumerator is a not-a-number: each compares
    equal to itself. *)
Lemma apply_vector_map_distances (input_array : vector_2d)
  (function : double -> double -> double) (s : schedule) :
  Forall (fun dv => (fst dv =? fst dv)%float = true)
         (apply_vector_map input_array function s).
Proof.
  apply Forall_forall. intros dv Hdv.
  apply in_apply_vector_map in Hdv as ([[y x] [j i]] & ->).
  unfold sample_of. simpl. apply pair_distance_eqb_refl.
Qed.

(** *** Which pairs are visited *)

Lemma NoDup_tagged {A B : Type} (g : A -> list B) (l : list A) :
  NoDup l -> (forall a, In a l -> NoDup (g a)) ->
  NoDup (flat_map (fun a => map (fun b => (a, b)) (g a)) l).
Proof.
  induction 1 as [|a l Hnotin Hnd IH]; intros Hg; simpl; [constructor|].
  apply NoDup_app.
  - apply Finite.Injective_map_NoDup; [|apply Hg; now left].
    intros b b' Hbb'. now inversion Hbb'.
  - apply IH. intros a' Ha'. apply Hg. now right.
  - intros [a1 b1] H1 H2.
    apply in_map_iff in H1 as (b & Hb & _). inversion Hb; subst.
    apply in_flat_map in H2 as (a' & Ha' & H2).
    apply in_map_iff in H2 as (b' & Hb' & _). inversion Hb'; subst.
    contradiction.
Qed.

Lemma in_tagged {A B : Type} (g : A -> list B) (l : list A) (a : A) (b : B) :
  In (a, b) (flat_map (fun a => map (fun b => (a, b)) (g a)) l)
  <-> In a l /\ In b (g a).
Proof.
  rewrite in_flat_map. split.
  - intros (a' & Ha' & Hin). apply in_map_iff in Hin as (b' & Hb' & Hin).
    inversion Hb'; subst. now split.
  - intros [Ha Hb]. exists a. split; [assumption|].
    apply in_map_iff. now exists b.
Qed.

Section Visited.
Variable input_array : vector_2d.

Local Abbreviation height := (length input_array).
Local Abbreviation width := (length (nth 0 input_array [])).

Lemma in_collapsed_iterations (y x : nat) :
  In (y, x) (collapsed_iterations input_array) <-> y < height /\ x < width.
Proof.
  unfold collapsed_iterations.
  rewrite (in_tagged (fun _ => seq 0 width)), !in_seq. lia.
Qed.

Lemma NoDup_collapsed_iterations : NoDup (collapsed_iterations input_array).
Proof.
  apply (NoDup_tagged (fun _ => seq 0 width)); [apply seq_NoDup|].
  intros; apply seq_NoDup.
Qed.

Lemma in_partners (y x j i : nat) :
  In (j, i) (partners input_array y x)
  <-> y <= j < height /\ i < width /\ (j = y -> x <= i)
      /\ isnan (at2 input_array j i) = false.
Proof.
  unfold partners.
  rewrite (in_tagged
             (fun j => filter (fun i => negb (isnan (at2 input_array j i)))
                         (seq (if j =? y then x else 0)
                              (width - (if j =? y then x else 0))))).
  rewrite filter_In, !in_seq, negb_true_iff.
  destruct (Nat.eqb_spec j y); intuition lia.
Qed.

Lemma NoDup_partners (y x : nat) : NoDup (partners input_array y x).
Proof.
  unfold partners.
  apply (NoDup_tagged
           (fun j => filter (fun i => negb (isnan (at2 input_array j i)))
                       (seq (if j =? y then x else 0)
                            (width - (if j =? y then x else 0)))));
    [apply seq_NoDup|].
  intros; apply NoDup_filter, seq_NoDup.
Qed.

Lemma visited_pairs_tagged :
  visited_pairs input_array
  = flat_map (fun yx =>
                map (fun ji => (yx, ji))
                    (if isnan (at2 input_array (fst yx) (snd yx)) then []
                     else partners input_array (fst yx) (snd yx)))
             (collapsed_iterations input_array).
Proof.
  unfold visited_pairs. apply flat_map_ext. intros yx.
  now destruct (isnan (at2 input_array (fst yx) (snd yx))).
Qed.

(** A pair of cells is visited exactly when both cells are in the grid, the
    second does not come before the first in row-major order, and neither
    holds a not-a-number. *)
Lemma in_visited_pairs (y x j i : nat) :
  In ((y, x), (j, i)) (visited_pairs input_array)
  <-> (y < height /\ x < width) /\ (j < height /\ i < width)
      /\ row_major_le (y, x) (j, i)
      /\ isnan (at2 input_array y x) = false
      /\ isnan (at2 input_array j i) = false.
Proof.
  rewrite visited_pairs_tagged.
  rewrite (in_tagged
             (fun yx => if isnan (at2 input_array (fst yx) (snd yx)) then []
                        else partners input_array (fst yx) (snd yx))).
  rewrite in_collapsed_iterations. unfold row_major_le. simpl.
  destruct (isnan (at2 input_array y x)) eqn:Hyx.
  - simpl. intuition discriminate.
  - rewrite in_partners. intuition lia.
Qed.

(** No pair of cells is visited twice. *)
Lemma NoDup_visited_pairs : NoDup (visited_pairs input_array).
Proof.
  rewrite visited_pairs_tagged.
  apply (NoDup_tagged
           (fun yx => if isnan (at2 input_array (fst yx) (snd yx)) then []
                      else partners input_array (fst yx) (snd yx)));
    [apply NoDup_collapsed_iterations|].
  intros yx _. destruct (isnan (at2 input_array (fst yx) (snd yx)));
    [constructor | apply NoDup_partners].
Qed.
End Visited.

(** ** The distance-bucketing aggregator *)

Lemma map_nth_seq {A : Type} (l : list A) (d : A) :
  map (fun i => nth i l d) (seq 0 (length l)) = l.
Proof.
  induction l as [|a l IH]; simpl; [reflexivity|].
  f_equal. rewrite <- seq_shift, map_map. exact IH.
Qed.

Lemma fold_left_map {A B C : Type} (f : A -> C -> A) (g : B -> C) (l : list B)
  (a : A) :
  fold_left f (map g l) a = fold_left (fun a x => f a (g x)) l a.
Proof.
  revert a; induction l as [|b l IH]; intros a; simpl; [reflexivity|apply IH].
Qed.

Lemma local_regroup_vals_eq (s : schedule) (t : nat) (samples : list sample) :
  local_regroup_vals s t samples
  = fold_left (fun m dv => push_back_at (fst dv) (snd dv) m)
              (owned_samples s t samples) [].
Proof.
  unfold local_regroup_vals, owned_samples. now rewrite fold_left_map.
Qed.

Lemma map_as_flat_map {A B : Type} (h : A -> B) (l : list A) :
  map h l = flat_map (fun a => [h a]) l.
Proof. induction l as [|a l IH]; simpl; [reflexivity|now rewrite IH]. Qed.

(** The samples owned by the threads are the samples, in another order. *)
Lemma owned_samples_partition (s : schedule) (samples : list sample) :
  schedule_ok s ->
  Permutation (flat_map (fun t => owned_samples s t samples)
                        (seq 0 (omp_max_threads s)))
              samples.
Proof.
  intros Hs. unfold owned_samples.
  erewrite flat_map_ext by (intros t; apply map_as_flat_map).
  rewrite (owner_partition (regroup_owner s)).
  - rewrite <- map_as_flat_map, map_nth_seq. reflexivity.
  - apply seq_NoDup.
  - intros i _. apply seq_owner_in, (regroup_owner_lt s Hs).
Qed.

(** *** The two lookups of the merge *)

Section InsertAtEndOf.
Context {key : Type}.
Variable key_eq : key -> key -> bool.

(** On a map without the key, a key that compares equal to itself gets one
    entry, and any other key two, the second one empty. *)
Lemma insert_at_end_of_nil (k : key) (vals : list double) :
  insert_at_end_of key_eq k vals []
  = (k, vals) :: (if key_eq k k then [] else [(k, [])]).
Proof.
  unfold insert_at_end_of. simpl. destruct (key_eq k k); reflexivity.
Qed.

Lemma insert_at_end_of_cons (k k' : key) (vals vs : list double)
  (m : list (key * list double)) :
  insert_at_end_of key_eq k vals ((k', vs) :: m)
  = if key_eq k' k then (k', vs ++ vals) :: m
    else (k', vs) :: insert_at_end_of key_eq k vals m.
Proof.
  unfold insert_at_end_of. simpl.
  destruct (key_eq k' k) eqn:E; simpl; rewrite E; reflexivity.
Qed.
End InsertAtEndOf.

Lemma insert_end_at_nil (k : double) (vals : list double) :
  insert_end_at k vals []
  = (k, vals) :: (if (k =? k)%float then [] else [(k, [])]).
Proof. apply insert_at_end_of_nil. Qed.

Lemma insert_end_at_cons (k k' : double) (vals vs : list double)
  (m : double_unordered_map) :
  insert_end_at k vals ((k', vs) :: m)
  = if (k' =? k)%float then (k', vs ++ vals) :: m
    else (k', vs) :: insert_end_at k vals m.
Proof. apply insert_at_end_of_cons. Qed.

(** For a key that compares equal to itself, appending one value through the
    merge is what [push_back] does. *)
Lemma push_back_at_insert_end_at (k v : double) (m : double_unordered_map) :
  (k =? k)%float = true -> push_back_at k v m = insert_end_at k [v] m.
Proof.
  intros Hk. induction m as [|[k' vs] m IH].
  - rewrite insert_end_at_nil, Hk. reflexivity.
  - rewrite insert_end_at_cons. simpl. now rewrite IH.
Qed.

(** *** No bucket is empty, unless a distance is a not-a-number *)

Lemma in_owned_samples (s : schedule) (t : nat) (samples : list sample)
  (dv : sample) :
  In dv (owned_samples s t samples) -> In dv samples.
Proof.
  unfold owned_samples. rewrite in_map_iff. intros (i & <- & Hi).
  apply filter_In in Hi as [Hi _]. apply in_seq in Hi.
  apply nth_In. lia.
Qed.

Lemma push_back_at_nonempty (k v : double) (m : double_unordered_map) :
  nonempty_buckets m -> nonempty_buckets (push_back_at k v m).
Proof.
  unfold nonempty_buckets.
  induction m as [|[k' vs] m IH]; intros H; simpl.
  - constructor; [discriminate|constructor].
  - inversion H as [|? ? Hvs Hm]; subst.
    destruct (k' =? k)%float; constructor; simpl; auto.
    intros Habs. apply app_eq_nil in Habs as [_ Habs]. discriminate.
Qed.

Lemma insert_end_at_nonempty (k : double) (vals : list double)
  (m : double_unordered_map) :
  (k =? k)%float = true -> vals <> [] ->
  nonempty_buckets m -> nonempty_buckets (insert_end_at k vals m).
Proof.
  unfold nonempty_buckets. intros Hk Hvals.
  induction m as [|[k' vs] m IH]; intros H.
  - rewrite insert_end_at_nil, Hk. constructor; [assumption|constructor].
  - rewrite insert_end_at_cons. inversion H as [|? ? Hvs Hm]; subst.
    destruct (k' =? k)%float; constructor; simpl in *; auto.
    intros Habs. apply app_eq_nil in Habs as [Habs _]. contradiction.
Qed.

Lemma fold_push_back_at_nonempty (l : list sample) (m : double_unordered_map) :
  nonempty_buckets m ->
  nonempty_buckets (fold_left (fun m dv => push_back_at (fst dv) (snd dv) m) l m).
Proof.
  revert m; induction l as [|dv l IH]; intros m Hm; simpl; [assumption|].
  apply IH. now apply push_back_at_nonempty.
Qed.

Lemma local_regroup_vals_nonempty (s : schedule) (t : nat) (samples : list sample) :
  nonempty_buckets (local_regroup_vals s t samples).
Proof.
  rewrite local_regroup_vals_eq. apply fold_push_back_at_nonempty. constructor.
Qed.

Lemma keys_push_back_at (k v : double) (m : double_unordered_map) :
  map fst (push_back_at k v m)
  = if existsb (fun k' => (k' =? k)%float) (map fst m) then map fst m
    else map fst m ++ [k].
Proof.
  induction m as [|[k' vs] m IH]; simpl; [reflexivity|].
  destruct (k' =? k)%float; simpl; [reflexivity|].
  rewrite IH.
  destruct (existsb (fun k' => (k' =? k)%float) (map fst m)); reflexivity.
Qed.

Lemma keys_fold_push_back_at (l : list sample) (m : double_unordered_map) :
  incl (map fst (fold_left (fun m dv => push_back_at (fst dv) (snd dv) m) l m))
       (map fst m ++ map fst l).
Proof.
  revert m; induction l as [|dv l IH]; intros m; simpl.
  - rewrite app_nil_r. apply incl_refl.
  - intros k Hk. apply IH in Hk. rewrite keys_push_back_at in Hk.
    apply in_app_iff in Hk as [Hk|Hk]; [|apply in_app_iff; right; now right].
    destruct (existsb _ _); [apply in_app_iff; now left|].
    apply in_app_iff in Hk as [Hk|[<-|[]]]; apply in_app_iff;
      [now left|right; now left].
Qed.

(** The keys of a thread-local map are distances of samples. *)
Lemma keys_local_regroup_vals (s : schedule) (t : nat) (samples : list sample) :
  incl (map fst (local_regroup_vals s t samples)) (map fst samples).
Proof.
  rewrite local_regroup_vals_eq. intros k Hk.
  apply keys_fold_push_back_at in Hk. simpl in Hk.
  apply in_map_iff in Hk as (dv & <- & Hdv).
  apply in_map. exact (in_owned_samples s t samples dv Hdv).
Qed.

Lemma fold_insert_end_at_nonempty (l m : double_unordered_map) :
  Forall (fun b => (fst b =? fst b)%float = true) l ->
  nonempty_buckets l -> nonempty_buckets m ->
  nonempty_buckets
    (fold_left (fun m pair => insert_end_at (fst pair) (snd pair) m) l m).
Proof.
  revert m; induction l as [|b l IH]; intros m Hk Hl Hm; simpl; [assumption|].
  inversion Hl; subst. inversion Hk; subst. apply IH; try assumption.
  now apply insert_end_at_nonempty.
Qed.

(** When no distance is a not-a-number, the aggregator creates no empty
    bucket, whatever the schedule. *)
Lemma regroup_nonempty (s : schedule) (samples : list sample)
  (regrouped_vals : double_unordered_map) :
  schedule_ok s ->
  Forall (fun dv => (fst dv =? fst dv)%float = true) samples ->
  nonempty_buckets regrouped_vals ->
  nonempty_buckets (regroup_distance_thread_local s samples regrouped_vals).
Proof.
  intros Hs Hkeys. unfold regroup_distance_thread_local.
  generalize (seq 0 (omp_max_threads s)) as ts.
  intros ts; revert regrouped_vals.
  induction ts as [|t ts IH]; intros m Hm; simpl; [assumption|].
  apply IH. apply fold_insert_end_at_nonempty; [| |assumption].
  - apply Forall_forall. intros b Hb.
    apply (Permutation_in _ (map_order_perm s Hs _)) in Hb.
    apply (in_map fst) in Hb. apply keys_local_regroup_vals in Hb.
    apply in_map_iff in Hb as (dv & Heq & Hdv). rewrite <- Heq.
    rewrite Forall_forall in Hkeys. now apply Hkeys.
  - unfold nonempty_buckets.
    apply (Permutation_Forall (Permutation_sym (map_order_perm s Hs _))).
    apply local_regroup_vals_nonempty.
Qed.

(** The buckets of the map [structure_function] builds are not empty. *)
Lemma regroup_enumerated_nonempty (s : schedule) (input_array : vector_2d)
  (function : double -> double -> double) :
  schedule_ok s ->
  nonempty_buckets
    (regroup_distance_thread_local s (apply_vector_map input_array function s) []).
Proof.
  intros Hs. apply regroup_nonempty; [assumption| |constructor].
  apply apply_vector_map_distances.
Qed.

(** *** The buckets hold the samples *)

(** The keys after a merge step: a new key comes once, or twice when it does
    not compare equal to itself. *)
Lemma keys_insert_end_at (k : double) (vals : list double)
  (m : double_unordered_map) :
  map fst (insert_end_at k vals m)
  = if existsb (fun k' => (k' =? k)%float) (map fst m) then map fst m
    else map fst m ++ k :: (if (k =? k)%float then [] else [k]).
Proof.
  induction m as [|[k' vs] m IH].
  - rewrite insert_end_at_nil. simpl. now destruct (k =? k)%float.
  - rewrite insert_end_at_cons. simpl.
    destruct (k' =? k)%float; simpl; [reflexivity|].
    rewrite IH.
    destruct (existsb (fun k' => (k' =? k)%float) (map fst m)); reflexivity.
Qed.

Lemma keys_insert_end_at_self (k : double) (vals : list double)
  (m : double_unordered_map) :
  (k =? k)%float = true ->
  map fst (insert_end_at k vals m)
  = if existsb (fun k' => (k' =? k)%float) (map fst m) then map fst m
    else map fst m ++ [k].
Proof. intros Hk. now rewrite keys_insert_end_at, Hk. Qed.

Section ExactKeys.
Variable K : list double.
Hypothesis HK : exact_keys K.

Local Abbreviation holds := (holds K).

Lemma new_key_keeps_NoDup (k : double) (keys : list double) :
  In k K -> incl keys K -> NoDup keys ->
  NoDup (if existsb (fun k' => (k' =? k)%float) keys then keys
         else keys ++ [k])
  /\ incl (if existsb (fun k' => (k' =? k)%float) keys then keys
           else keys ++ [k]) K.
Proof.
  intros Hk Hincl Hnd.
  destruct (existsb (fun k' => (k' =? k)%float) keys) eqn:Hex; [now split|].
  split.
  - apply NoDup_app; [assumption|repeat constructor; intros []|].
    intros a Ha [Hka|[]]. subst a.
    assert (existsb (fun k' => (k' =? k)%float) keys = true); [|congruence].
    apply existsb_exists. exists k. split; [assumption|].
    now apply (HK k k Hk Hk).
  - apply incl_app; [assumption|].
    intros a [<-|[]]. assumption.
Qed.

Lemma flatten_insert_end_at (k : double) (vals : list double)
  (m : double_unordered_map) :
  In k K -> incl (map fst m) K ->
  Permutation (flatten (insert_end_at k vals m))
              (map (fun v => (k, v)) vals ++ flatten m).
Proof.
  intros Hk. assert (Hkk : (k =? k)%float = true) by now apply (HK k k).
  induction m as [|[k' vs] m IH]; intros Hincl.
  - rewrite insert_end_at_nil, Hkk. unfold flatten. simpl.
    now rewrite !app_nil_r.
  - assert (Hk' : In k' K) by (apply Hincl; now left).
    assert (Hm : incl (map fst m) K)
      by (intros a Ha; apply Hincl; now right).
    rewrite insert_end_at_cons.
    destruct (k' =? k)%float eqn:Heq; unfold flatten; simpl.
    + apply (HK k' k Hk' Hk) in Heq as ->.
      rewrite map_app, (app_assoc (map _ vals)).
      apply Permutation_app_tail, Permutation_app_comm.
    + fold (flatten (insert_end_at k vals m)). fold (flatten m).
      rewrite (IH Hm). apply Permutation_app_swap_app.
Qed.

Lemma insert_end_at_holds (k : double) (vals : list double)
  (m : double_unordered_map) (l : list sample) :
  In k K -> holds m l ->
  holds (insert_end_at k vals m) (map (fun v => (k, v)) vals ++ l).
Proof.
  intros Hk (Hperm & Hnd & Hincl). unfold holds.
  rewrite keys_insert_end_at_self by now apply (HK k k).
  destruct (new_key_keeps_NoDup k (map fst m) Hk Hincl Hnd) as [Hnd' Hincl'].
  repeat split; try assumption.
  rewrite flatten_insert_end_at by assumption.
  now apply Permutation_app_head.
Qed.

Lemma fold_push_back_at_holds (l : list sample) (m : double_unordered_map)
  (l0 : list sample) :
  incl (map fst l) K -> holds m l0 ->
  holds (fold_left (fun m dv => push_back_at (fst dv) (snd dv) m) l m)
        (l ++ l0).
Proof.
  revert m l0; induction l as [|[d v] l IH]; intros m l0 Hl Hm; simpl;
    [assumption|].
  assert (Hd : In d K) by (apply Hl; now left).
  assert (Hl' : incl (map fst l) K) by (intros a Ha; apply Hl; now right).
  rewrite push_back_at_insert_end_at by now apply (HK d d).
  destruct (IH _ _ Hl' (insert_end_at_holds d [v] m l0 Hd Hm)) as (Hp & Hnd & Hin).
  repeat split; try assumption.
  rewrite Hp. simpl. symmetry. apply Permutation_middle.
Qed.

Lemma fold_insert_end_at_holds (entries m : double_unordered_map)
  (l0 : list sample) :
  incl (map fst entries) K -> holds m l0 ->
  holds (fold_left (fun m pair => insert_end_at (fst pair) (snd pair) m)
                   entries m)
        (flatten entries ++ l0).
Proof.
  revert m l0; induction entries as [|[k vs] entries IH]; intros m l0 He Hm;
    simpl; [assumption|].
  assert (Hk : In k K) by (apply He; now left).
  assert (He' : incl (map fst entries) K)
    by (intros a Ha; apply He; now right).
  destruct (IH _ _ He' (insert_end_at_holds k vs m l0 Hk Hm)) as (Hp & Hnd & Hin).
  repeat split; try assumption.
  rewrite Hp.
  change (flatten ((k, vs) :: entries))
    with (map (fun v => (k, v)) vs ++ flatten entries).
  rewrite <- app_assoc. apply Permutation_app_swap_app.
Qed.
End ExactKeys.

Lemma filter_perm {A : Type} (f : A -> bool) (l l' : list A) :
  Permutation l l' -> Permutation (filter f l) (filter f l').
Proof.
  induction 1 as [|a l l' _ IH|a b l|l l' l'' _ IH1 _ IH2]; simpl.
  - constructor.
  - destruct (f a); [now constructor|assumption].
  - destruct (f a), (f b); try reflexivity. apply perm_swap.
  - now transitivity (filter f l').
Qed.

Lemma bucket_of_perm (l l' : list sample) (k : double) :
  Permutation l l' -> Permutation (bucket_of l k) (bucket_of l' k).
Proof.
  intros H. unfold bucket_of. now apply Permutation_map, filter_perm.
Qed.

Lemma holds_perm (K : list double) (m : double_unordered_map)
  (l l' : list sample) :
  Permutation l l' -> holds K m l -> holds K m l'.
Proof.
  intros Hl (Hp & Hnd & Hincl). repeat split; try assumption.
  now transitivity l.
Qed.

Lemma flatten_perm (m m' : double_unordered_map) :
  Permutation m m' -> Permutation (flatten m) (flatten m').
Proof. intros H. unfold flatten. now apply Permutation_flat_map. Qed.

Section Regrouping.
Variable s : schedule.
Hypothesis Hs : schedule_ok s.
Variable K : list double.
Hypothesis HK : exact_keys K.
Variable samples : list sample.
Hypothesis Hsamples : incl (map fst samples) K.

Lemma local_regroup_vals_holds (t : nat) :
  holds K (local_regroup_vals s t samples) (owned_samples s t samples).
Proof.
  rewrite local_regroup_vals_eq.
  rewrite <- (app_nil_r (owned_samples s t samples)) at 2.
  apply fold_push_back_at_holds; [assumption| |].
  - intros k Hk. apply in_map_iff in Hk as (dv & <- & Hdv).
    apply Hsamples, in_map, (in_owned_samples s t samples dv Hdv).
  - repeat split; [constructor|constructor|intros a []].
Qed.

Lemma merge_threads_holds (ts : list nat) (m : double_unordered_map)
  (l0 : list sample) :
  holds K m l0 ->
  holds K
    (fold_left (fun regrouped_vals t =>
                  fold_left (fun regrouped_vals pair =>
                               insert_end_at (fst pair) (snd pair) regrouped_vals)
                            (map_order s (local_regroup_vals s t samples))
                            regrouped_vals)
               ts m)
    (flat_map (fun t => owned_samples s t samples) ts ++ l0).
Proof.
  revert m l0; induction ts as [|t ts IH]; intros m l0 Hm; simpl;
    [assumption|].
  destruct (local_regroup_vals_holds t) as (Hp & Hnd & Hincl).
  pose proof (map_order_perm s Hs (local_regroup_vals s t samples)) as Hord.
  eapply holds_perm; [|apply IH].
  2:{ apply fold_insert_end_at_holds; [assumption| |exact Hm].
      intros k Hk. apply Hincl.
      exact (Permutation_in k (Permutation_map fst Hord) Hk). }
  rewrite (flatten_perm _ _ Hord), Hp.
  rewrite <- !app_assoc. apply Permutation_app_swap_app.
Qed.

(** Whatever the schedule, the aggregator stores every sample once, under
    pairwise different keys. *)
Lemma regroup_holds :
  holds K (regroup_distance_thread_local s samples []) samples.
Proof.
  unfold regroup_distance_thread_local.
  eapply holds_perm; [|apply merge_threads_holds].
  - rewrite app_nil_r. now apply owned_samples_partition.
  - repeat split; [constructor|constructor|intros a []].
Qed.
End Regrouping.

Lemma filter_tagged_false (k k1 : double) (vs : list double) :
  (k1 =? k)%float = false ->
  filter (fun p : sample => (fst p =? k)%float) (map (fun v => (k1, v)) vs) = [].
Proof.
  intros Hk1. induction vs as [|v vs IH]; simpl; [reflexivity|].
  now rewrite Hk1.
Qed.

Section Buckets.
Variable K : list double.
Hypothesis HK : exact_keys K.

Lemma filter_other_key (k : double) (m : double_unordered_map) :
  In k K -> incl (map fst m) K -> ~ In k (map fst m) ->
  filter (fun p : sample => (fst p =? k)%float) (flatten m) = [].
Proof.
  intros Hk. induction m as [|[k1 vs1] m IH]; intros Hincl Hnotin;
    [reflexivity|].
  change (flatten ((k1, vs1) :: m))
    with (map (fun v => (k1, v)) vs1 ++ flatten m).
  rewrite filter_app, IH.
  - rewrite app_nil_r.
    assert (Hk1 : (k1 =? k)%float = false).
    { destruct (k1 =? k)%float eqn:Heq; [|reflexivity].
      apply (HK k1 k) in Heq; [|apply Hincl; now left|assumption].
      subst. exfalso. apply Hnotin. now left. }
    now apply filter_tagged_false.
  - intros a Ha. apply Hincl. now right.
  - intros Ha. apply Hnotin. now right.
Qed.

Lemma filter_own_key (k : double) (vs : list double) :
  In k K ->
  filter (fun p : sample => (fst p =? k)%float) (map (fun v => (k, v)) vs)
  = map (fun v => (k, v)) vs.
Proof.
  intros Hk. assert (Hkk : (k =? k)%float = true) by now apply (HK k k).
  induction vs as [|v vs IH]; simpl; [reflexivity|].
  now rewrite Hkk, IH.
Qed.

Lemma bucket_of_flatten (k : double) (vs : list double)
  (m : double_unordered_map) :
  NoDup (map fst m) -> incl (map fst m) K -> In (k, vs) m ->
  bucket_of (flatten m) k = vs.
Proof.
  unfold bucket_of.
  induction m as [|[k1 vs1] m IH]; intros Hnd Hincl Hin; [contradiction|].
  inversion Hnd as [|? ? Hnotin Hnd']; subst.
  assert (Hm : incl (map fst m) K) by (intros a Ha; apply Hincl; now right).
  change (flatten ((k1, vs1) :: m))
    with (map (fun v => (k1, v)) vs1 ++ flatten m).
  rewrite filter_app, map_app.
  destruct Hin as [Heq|Hin].
  - inversion Heq; subst.
    rewrite filter_own_key by (apply Hincl; now left).
    rewrite filter_other_key by (try assumption; apply Hincl; now left).
    rewrite app_nil_r, map_map. simpl. apply map_id.
  - rewrite (IH Hnd' Hm Hin).
    assert (Hk : In k K) by (apply Hm; apply (in_map fst _ _ Hin)).
    assert (Hk1 : (k1 =? k)%float = false).
    { destruct (k1 =? k)%float eqn:Heq; [|reflexivity].
      apply (HK k1 k) in Heq; [|apply Hincl; now left|assumption].
      subst. exfalso. apply Hnotin. apply (in_map fst _ _ Hin). }
    now rewrite filter_tagged_false.
Qed.

(** A map that holds the samples [l] has, under every key, the values of
    the samples at that distance. *)
Lemma holds_bucket (m : double_unordered_map) (l : list sample)
  (k : double) (vs : list double) :
  holds K m l -> In (k, vs) m -> Permutation vs (bucket_of l k).
Proof.
  intros (Hp & Hnd & Hincl) Hin.
  rewrite <- (bucket_of_perm _ _ k Hp).
  now rewrite (bucket_of_flatten k vs m Hnd Hincl Hin).
Qed.

Lemma holds_keys (m : double_unordered_map) (l : list sample) (k : double) :
  holds K m l -> In k (map fst l) -> In k (map fst m).
Proof.
  intros (Hp & _ & _) Hk.
  apply in_map_iff in Hk as ([k' v] & <- & Hkv).
  apply (Permutation_in _ (Permutation_sym Hp)) in Hkv.
  unfold flatten in Hkv. apply in_flat_map in Hkv as (b & Hb & Hkv).
  apply in_map_iff in Hkv as (v' & Heq & _). inversion Heq; subst.
  simpl. now apply (in_map fst).
Qed.
End Buckets.

(** *** No bucket outgrows the samples *)

Lemma length_flatten_insert_end_at (k : double) (vals : list double)
  (m : double_unordered_map) :
  length (flatten (insert_end_at k vals m)) = length vals + length (flatten m).
Proof.
  induction m as [|[k' vs] m IH].
  - rewrite insert_end_at_nil. unfold flatten.
    destruct (k =? k)%float; simpl; rewrite !app_nil_r, length_map; lia.
  - rewrite insert_end_at_cons.
    destruct (k' =? k)%float; unfold flatten; simpl;
      fold (flatten m); fold (flatten (insert_end_at k vals m));
      rewrite !length_app, !length_map, ?length_app, ?IH; lia.
Qed.

Lemma length_flatten_push_back_at (k v : double) (m : double_unordered_map) :
  length (flatten (push_back_at k v m)) = 1 + length (flatten m).
Proof.
  induction m as [|[k' vs] m IH]; simpl; [reflexivity|].
  destruct (k' =? k)%float; unfold flatten; simpl;
    fold (flatten m); fold (flatten (push_back_at k v m));
    rewrite !length_app, !length_map, ?length_app, ?IH; simpl; lia.
Qed.

Lemma length_flatten_fold_push_back_at (l : list sample)
  (m : double_unordered_map) :
  length (flatten (fold_left (fun m dv => push_back_at (fst dv) (snd dv) m) l m))
  = length l + length (flatten m).
Proof.
  revert m; induction l as [|dv l IH]; intros m; simpl; [reflexivity|].
  rewrite IH, length_flatten_push_back_at. lia.
Qed.

Lemma length_flatten_fold_insert_end_at (entries m : double_unordered_map) :
  length (flatten (fold_left (fun m pair => insert_end_at (fst pair) (snd pair) m)
                             entries m))
  = length (flatten entries) + length (flatten m).
Proof.
  revert m; induction entries as [|[k vs] entries IH]; intros m; simpl;
    [reflexivity|].
  rewrite IH, length_flatten_insert_end_at.
  unfold flatten at 3. simpl. fold (flatten entries).
  rewrite length_app, length_map. lia.
Qed.

Lemma length_flatten_merge (s : schedule) (samples : list sample)
  (ts : list nat) (m : double_unordered_map) :
  schedule_ok s ->
  length (flatten
            (fold_left (fun regrouped_vals t =>
                          fold_left (fun regrouped_vals pair =>
                                       insert_end_at (fst pair) (snd pair)
                                                     regrouped_vals)
                                    (map_order s (local_regroup_vals s t samples))
                                    regrouped_vals)
                       ts m))
  = length (flat_map (fun t => owned_samples s t samples) ts)
    + length (flatten m).
Proof.
  intros Hs. revert m; induction ts as [|t ts IH]; intros m; simpl;
    [reflexivity|].
  rewrite IH, length_flatten_fold_insert_end_at, length_app.
  rewrite (Permutation_length (flatten_perm _ _ (map_order_perm s Hs _))).
  rewrite local_regroup_vals_eq, length_flatten_fold_push_back_at. simpl. lia.
Qed.

(** Whatever the schedule, the map holds as many values as there were
    samples. *)
Lemma length_flatten_regroup (s : schedule) (samples : list sample) :
  schedule_ok s ->
  length (flatten (regroup_distance_thread_local s samples []))
  = length samples.
Proof.
  intros Hs. unfold regroup_distance_thread_local.
  rewrite (length_flatten_merge s samples _ [] Hs).
  rewrite (Permutation_length (owned_samples_partition s samples Hs)).
  simpl. lia.
Qed.

Lemma length_bucket_le_flatten (m : double_unordered_map)
  (bucket : double * list double) :
  In bucket m -> length (snd bucket) <= length (flatten m).
Proof.
  induction m as [|b m IH]; intros Hin; [contradiction|].
  unfold flatten. simpl. fold (flatten m). rewrite length_app, length_map.
  destruct Hin as [->|Hin]; [lia|]. specialize (IH Hin). lia.
Qed.

(** No bucket holds more values than there were samples. *)
Lemma bucket_no_longer_than_samples (s : schedule) (samples : list sample)
  (bucket : double * list double) :
  schedule_ok s ->
  In bucket (regroup_distance_thread_local s samples []) ->
  length (snd bucket) <= length samples.
Proof.
  intros Hs Hin. rewrite <- (length_flatten_regroup s samples Hs).
  now apply length_bucket_le_flatten.
Qed.

(** ** The structure-function reducer *)

Lemma sequential_ok : schedule_ok sequential.
Proof.
  constructor; simpl; intros; try lia; reflexivity.
Qed.

Lemma two_threads_ok : schedule_ok two_threads.
Proof.
  constructor; intros;
    cbv [two_threads omp_max_threads pairs_owner critical_order regroup_owner
         reduce_owner map_order].
  - apply Nat.mod_upper_bound. lia.
  - apply perm_swap.
  - apply Nat.mod_upper_bound. lia.
  - apply Nat.mod_upper_bound. lia.
  - symmetry. apply Permutation_rev.
Qed.

(** With two threads the samples and the buckets of the concrete scenario
    come in another order than with one. *)
Lemma two_threads_on_grid_1234 :
  subtract_pairs sequential grid_1234
  = [(0, 0); (1, 1); (1, 2); (sqrt 2, 3); (0, 0); (sqrt 2, 1); (1, 2); (0, 0);
     (1, 1); (0, 0)]%float
  /\ subtract_pairs two_threads grid_1234
     = [(0, 0); (sqrt 2, 1); (1, 2); (0, 0); (1, 1); (0, 0); (1, 1); (1, 2);
        (sqrt 2, 3); (0, 0)]%float
  /\ regroup_distance_thread_local two_threads
       (subtract_pairs two_threads grid_1234) []
     = [(sqrt 2, [3; 1]); (1, [2; 1; 1; 2]); (0, [0; 0; 0; 0])]%float.
Proof. repeat split. Qed.

Lemma length_pow (c_pow : double -> double -> double) (vals : list double)
  (exponent : double) :
  length (pow c_pow vals exponent) = length vals.
Proof.
  unfold pow. destruct (exponent =? 1)%float; [reflexivity|apply length_map].
Qed.

Lemma int_wrap_small (z : Z) :
  (- 2 ^ 31 <= z <= INT_MAX)%Z -> int_wrap z = z.
Proof.
  unfold int_wrap, INT_MAX. intros H.
  rewrite Z.mod_small; lia.
Qed.

Section Reducer.
Variable c_pow : double -> double -> double.
Variable variance_val : double.
Variable order : Z.

(** A bucket yields at most one row, and only when its key is not zero and
    the count read for it is not 1. *)
Lemma structure_row_inv (dist : double) (vals : list double) (row : list double) :
  In row (structure_row c_pow variance_val order (dist, vals)) ->
  (dist =? 0)%float = false
  /\ bucket_count c_pow order vals <> 1%Z
  /\ nth_error row 0 = Some dist
  /\ length row = 3.
Proof.
  unfold structure_row, bucket_count. simpl.
  destruct (dist =? 0)%float; [intros []|].
  destruct (Z.eqb_spec (int_wrap (Z.of_nat
              (length (pow c_pow vals (double_of_Z order))))) 1) as [|Hne];
    [intros []|].
  intros [<-|[]]. repeat split. exact Hne.
Qed.

Lemma thread_local_result_eq (s : schedule) (m : double_unordered_map) (t : nat) :
  thread_local_result c_pow variance_val order s m t
  = flat_map (fun i => structure_row c_pow variance_val order
                        (nth i (map_order s m) (0%float, [])))
             (filter (fun i => reduce_owner s i =? t)
                     (seq 0 (length (map_order s m)))).
Proof.
  unfold thread_local_result.
  exact (fold_left_push
           (fun i => structure_row c_pow variance_val order
                       (nth i (map_order s m) (0%float, []))) _ []).
Qed.

(** Whatever the schedule, the threads emit the rows of the buckets. *)
Lemma thread_local_results_rows (s : schedule) (m : double_unordered_map) :
  schedule_ok s ->
  Permutation
    (flat_map (thread_local_result c_pow variance_val order s m)
              (seq 0 (omp_max_threads s)))
    (bucket_rows c_pow variance_val order m).
Proof.
  intros Hs.
  erewrite flat_map_ext by (intros t; apply thread_local_result_eq).
  rewrite (owner_partition (reduce_owner s)).
  - unfold bucket_rows.
    rewrite <- (Permutation_flat_map _ (map_order_perm s Hs m)).
    rewrite <- (map_nth_seq (map_order s m) (0%float, [])) at 2.
    apply Permutation_refl'.
    induction (seq 0 (length (map_order s m))) as [|i l IH]; simpl;
      [reflexivity|now rewrite IH].
  - apply seq_NoDup.
  - intros i _. apply seq_owner_in, (reduce_owner_lt s Hs).
Qed.
End Reducer.

(** Whatever the schedule, [structure_function] returns the rows of the
    buckets of the aggregated pairwise differences, in some order. *)
Lemma structure_function_rows (c_pow : double -> double -> double)
  (s : schedule) (input_array : vector_2d) (order : Z) :
  schedule_ok s ->
  Permutation
    (structure_function c_pow s input_array order)
    (bucket_rows c_pow (variance_2d input_array) order
       (regroup_distance_thread_local s (subtract_pairs s input_array) [])).
Proof.
  intros Hs. unfold structure_function.
  rewrite (fold_left_appending _
             (thread_local_result c_pow (variance_2d input_array) order s
                (regroup_distance_thread_local s (subtract_pairs s input_array) [])))
    by reflexivity.
  now apply thread_local_results_rows.
Qed.

Lemma eqb_zero_false (dist : double) :
  (dist =? 0)%float = false -> dist <> 0%float /\ dist <> neg_zero.
Proof.
  intros H. split; intros ->; vm_compute in H; discriminate.
Qed.

Lemma bucket_count_one (c_pow : double -> double -> double) (order : Z)
  (v : double) :
  bucket_count c_pow order [v] = 1%Z.
Proof. unfold bucket_count. now rewrite length_pow. Qed.

(** C4: whatever the schedule, every row returned by [structure_function]
    is the row of a bucket of the aggregated map whose distance key is not
    zero and which holds at least two samples; the row starts with that key.
    So no row is emitted for distance 0, and none for a bucket of fewer than
    two samples. *)
Theorem structure_function_rows_from_eligible_buckets
  (c_pow : double -> double -> double) (s : schedule) (input_array : vector_2d)
  (order : Z) (row : list double) :
  schedule_ok s ->
  In row (structure_function c_pow s input_array order) ->
  exists dist vals,
    In (dist, vals)
       (regroup_distance_thread_local s (subtract_pairs s input_array) [])
    /\ In row (structure_row c_pow (variance_2d input_array) order (dist, vals))
    /\ nth_error row 0 = Some dist
    /\ (dist =? 0)%float = false /\ dist <> 0%float /\ dist <> neg_zero
    /\ 2 <= length vals.
Proof.
  intros Hs Hrow.
  apply (Permutation_in _ (structure_function_rows c_pow s input_array order Hs))
    in Hrow.
  unfold bucket_rows in Hrow.
  apply in_flat_map in Hrow as ([dist vals] & Hbucket & Hrow).
  exists dist, vals.
  destruct (structure_row_inv _ _ _ _ _ _ Hrow) as (Hdist & HN & Hfirst & _).
  destruct (eqb_zero_false dist Hdist) as [Hpos Hneg].
  repeat split; try assumption.
  pose proof (regroup_enumerated_nonempty s input_array
                (fun a b => abs (a - b)) Hs) as Hne.
  fold (subtract_pairs s input_array) in Hne.
  unfold nonempty_buckets in Hne. rewrite Forall_forall in Hne.
  specialize (Hne _ Hbucket). simpl in Hne.
  destruct vals as [|v [|v' vals]]; simpl; try lia.
  - contradiction.
  - exfalso. apply HN. apply bucket_count_one.
Qed.

(** *** Grids without a single value *)

Lemma fold_left_skips {A B : Type} (step : A -> B -> A) (l : list B) (acc : A) :
  Forall (fun b => step acc b = acc) l -> fold_left step l acc = acc.
Proof.
  induction l as [|b l IH]; intros H; simpl; [reflexivity|].
  inversion H as [|? ? Hb Hl]; subst. rewrite Hb. now apply IH.
Qed.

Lemma all_missing_at2 (input_array : vector_2d) (y x : nat) :
  Forall (Forall (fun v => isnan v = true)) input_array ->
  isnan (at2 input_array y x) = true.
Proof.
  intros H. unfold at2.
  assert (Hrow : Forall (fun v => isnan v = true) (nth y input_array [])).
  { destruct (nth_in_or_default y input_array []) as [Hin|Heq];
      [|rewrite Heq; constructor].
    rewrite Forall_forall in H. now apply H. }
  destruct (nth_in_or_default x (nth y input_array []) nan) as [Hin|Heq];
    [|rewrite Heq; reflexivity].
  rewrite Forall_forall in Hrow. now apply Hrow.
Qed.

Lemma all_missing_no_sample (input_array : vector_2d)
  (function : double -> double -> double) (s : schedule) :
  Forall (Forall (fun v => isnan v = true)) input_array ->
  apply_vector_map input_array function s = [].
Proof.
  intros H. rewrite apply_vector_map_eq. apply flat_map_all_nil. intros t _.
  rewrite thread_single_dists_and_vals_eq. apply flat_map_all_nil.
  intros yx _. unfold iteration_samples.
  now rewrite all_missing_at2.
Qed.

Lemma regroup_nothing (s : schedule) :
  schedule_ok s -> regroup_distance_thread_local s [] [] = [].
Proof.
  intros Hs. unfold regroup_distance_thread_local.
  induction (seq 0 (omp_max_threads s)) as [|t ts IH]; simpl; [reflexivity|].
  change (local_regroup_vals s t []) with (@nil (double * list double)).
  rewrite (Permutation_nil (Permutation_sym (map_order_perm s Hs []))).
  exact IH.
Qed.

Lemma all_missing_mean_row (val_vector : list double) :
  Forall (fun v => isnan v = true) val_vector ->
  mean_row val_vector = (0%float, 0%Z).
Proof.
  intros H. unfold mean_row. apply fold_left_skips.
  eapply Forall_impl; [|exact H]. simpl. now intros v ->.
Qed.

Lemma all_missing_variance (input_array : vector_2d) :
  Forall (Forall (fun v => isnan v = true)) input_array ->
  variance_2d input_array = nan.
Proof.
  intros H. unfold variance_2d, variance_2d_loop.
  rewrite fold_left_skips; [reflexivity|].
  eapply Forall_impl; [|exact H]. simpl. intros row Hrow.
  rewrite fold_left_skips; [reflexivity|].
  eapply Forall_impl; [|exact Hrow]. simpl. intros v Hv.
  unfold variance_step. now rewrite Hv.
Qed.

(** C7, as the code has it: whatever the schedule and the order, a grid all of
    whose entries are not-a-number yields no row at all, hence no
    not-a-number in the output, and no error; the variance computed on the
    way is a not-a-number that no row ever shows. *)
Theorem all_missing_grid_yields_no_row
  (c_pow : double -> double -> double) (s : schedule) (input_array : vector_2d)
  (order : Z) :
  schedule_ok s ->
  Forall (Forall (fun v => isnan v = true)) input_array ->
  structure_function c_pow s input_array order = []
  /\ isnan (variance_2d input_array) = true.
Proof.
  intros Hs Hall. split.
  - apply Permutation_nil. symmetry.
    rewrite (structure_function_rows c_pow s input_array order Hs).
    unfold subtract_pairs. rewrite all_missing_no_sample by assumption.
    now rewrite regroup_nothing.
  - now rewrite all_missing_variance.
Qed.

(** ** A distance that is a not-a-number *)

(** A not-a-number compares equal to nothing. *)
Lemma eqb_nan_l (k : double) : (nan =? k)%float = false.
Proof.
  rewrite eqb_spec. change (Prim2SF nan) with S754_nan. reflexivity.
Qed.

Lemma eqb_nan_r (k : double) : (k =? nan)%float = false.
Proof.
  rewrite eqb_spec. change (Prim2SF nan) with S754_nan.
  unfold SFeqb. now destruct (Prim2SF k) as [|[]| |[]].
Qed.

(** A bucket whose key is a not-a-number and which holds nothing. *)
Lemma insert_end_at_keeps_empty (k : double) (vals : list double)
  (m : double_unordered_map) :
  Exists (fun b => isnan (fst b) = true /\ snd b = []) m ->
  Exists (fun b => isnan (fst b) = true /\ snd b = []) (insert_end_at k vals m).
Proof.
  induction m as [|[k' vs] m IH]; intros H; [inversion H|].
  rewrite insert_end_at_cons.
  inversion H as [? ? [Hnan Hvs]|? ? Hm]; subst; simpl in *.
  - apply isnan_true in Hnan. subst k'. rewrite eqb_nan_l.
    apply Exists_cons_hd. now split.
  - destruct (k' =? k)%float; apply Exists_cons_tl; auto.
Qed.

Lemma insert_end_at_nan (k : double) (vals : list double)
  (m : double_unordered_map) :
  isnan k = true ->
  Exists (fun b => isnan (fst b) = true /\ snd b = []) (insert_end_at k vals m).
Proof.
  intros Hnan. pose proof (isnan_true k Hnan) as ->.
  induction m as [|[k' vs] m IH].
  - rewrite insert_end_at_nil, eqb_nan_l.
    apply Exists_cons_tl, Exists_cons_hd. now split.
  - rewrite insert_end_at_cons, eqb_nan_r. now apply Exists_cons_tl.
Qed.

Lemma fold_insert_end_at_empty (entries m : double_unordered_map) :
  Exists (fun b => isnan (fst b) = true /\ snd b = []) m
  \/ Exists (fun b => isnan (fst b) = true) entries ->
  Exists (fun b => isnan (fst b) = true /\ snd b = [])
         (fold_left (fun m pair => insert_end_at (fst pair) (snd pair) m)
                    entries m).
Proof.
  revert m; induction entries as [|b entries IH]; intros m H; simpl.
  - destruct H as [H|H]; [assumption|inversion H].
  - apply IH. destruct H as [H|H].
    + left. now apply insert_end_at_keeps_empty.
    + inversion H as [? ? Hnan|? ? Hrest]; subst.
      * left. now apply insert_end_at_nan.
      * now right.
Qed.

Lemma push_back_at_nan (k v : double) (m : double_unordered_map) :
  isnan k = true -> Exists (fun b => isnan (fst b) = true) (push_back_at k v m).
Proof.
  intros Hnan. induction m as [|[k' vs] m IH]; simpl.
  - now apply Exists_cons_hd.
  - pose proof (isnan_true k Hnan) as Hk. subst k.
    rewrite eqb_nan_r. now apply Exists_cons_tl.
Qed.

Lemma push_back_at_keeps_nan (k v : double) (m : double_unordered_map) :
  Exists (fun b => isnan (fst b) = true) m ->
  Exists (fun b => isnan (fst b) = true) (push_back_at k v m).
Proof.
  induction m as [|[k' vs] m IH]; intros H; [inversion H|]. simpl.
  inversion H as [? ? Hnan|? ? Hm]; subst; simpl in *.
  - destruct (k' =? k)%float; now apply Exists_cons_hd.
  - destruct (k' =? k)%float; apply Exists_cons_tl; auto.
Qed.

Lemma fold_push_back_at_nan (l : list sample) (m : double_unordered_map) :
  Exists (fun b => isnan (fst b) = true) m
  \/ Exists (fun dv => isnan (fst dv) = true) l ->
  Exists (fun b => isnan (fst b) = true)
         (fold_left (fun m dv => push_back_at (fst dv) (snd dv) m) l m).
Proof.
  revert m; induction l as [|dv l IH]; intros m H; simpl.
  - destruct H as [H|H]; [assumption|inversion H].
  - apply IH. destruct H as [H|H].
    + left. now apply push_back_at_keeps_nan.
    + inversion H as [? ? Hnan|? ? Hrest]; subst.
      * left. now apply push_back_at_nan.
      * now right.
Qed.

Lemma merge_threads_empty (s : schedule) (samples : list sample)
  (ts : list nat) (m : double_unordered_map) :
  schedule_ok s ->
  Exists (fun b => isnan (fst b) = true /\ snd b = []) m
  \/ Exists (fun t => Exists (fun dv => isnan (fst dv) = true)
                             (owned_samples s t samples)) ts ->
  Exists (fun b => isnan (fst b) = true /\ snd b = [])
    (fold_left (fun regrouped_vals t =>
                  fold_left (fun regrouped_vals pair =>
                               insert_end_at (fst pair) (snd pair) regrouped_vals)
                            (map_order s (local_regroup_vals s t samples))
                            regrouped_vals)
               ts m).
Proof.
  intros Hs. revert m; induction ts as [|t ts IH]; intros m H; simpl.
  - destruct H as [H|H]; [assumption|inversion H].
  - apply IH. destruct H as [H|H].
    + left. apply fold_insert_end_at_empty. now left.
    + inversion H as [? ? Ht|? ? Hrest]; subst; [|now right].
      left. apply fold_insert_end_at_empty. right.
      apply Exists_exists.
      assert (Hlocal : Exists (fun b => isnan (fst b) = true)
                              (local_regroup_vals s t samples)).
      { rewrite local_regroup_vals_eq. apply fold_push_back_at_nan. now right. }
      apply Exists_exists in Hlocal as (b & Hb & Hnan).
      exists b. split; [|assumption].
      exact (Permutation_in b (Permutation_sym (map_order_perm s Hs _)) Hb).
Qed.

(** A sample whose distance is a not-a-number leaves an empty bucket in the
    map, whatever the schedule. *)
Lemma regroup_nan_leaves_empty_bucket (s : schedule) (samples : list sample)
  (regrouped_vals : double_unordered_map) :
  schedule_ok s ->
  Exists (fun dv => isnan (fst dv) = true) samples ->
  Exists (fun b => isnan (fst b) = true /\ snd b = [])
         (regroup_distance_thread_local s samples regrouped_vals).
Proof.
  intros Hs Hnan. unfold regroup_distance_thread_local.
  apply merge_threads_empty; [assumption|]. right.
  apply Exists_exists in Hnan as (dv & Hdv & Hnan).
  apply (Permutation_in dv (Permutation_sym (owned_samples_partition s samples Hs)))
    in Hdv.
  apply in_flat_map in Hdv as (t & Ht & Hdv).
  apply Exists_exists. exists t. split; [assumption|].
  apply Exists_exists. now exists dv.
Qed.


(** ** The one-dimensional sum *)

Lemma sum_from_nan (vals : list double) :
  fold_left (fun acc val => (acc + val)%float) vals nan = nan.
Proof.
  induction vals as [|v vals IH]; simpl; [reflexivity|].
  now rewrite add_nan_l.
Qed.

(** One missing entry makes the one-dimensional sum a not-a-number. *)
Lemma sum_with_missing_entry (vals : list double) :
  Exists (fun v => isnan v = true) vals -> sum vals = nan.
Proof.
  intros H. unfold sum. generalize 0%float.
  induction H as [v vals Hv|v vals _ IH]; intros acc; simpl.
  - apply isnan_true in Hv as ->. rewrite add_nan_r. apply sum_from_nan.
  - apply IH.
Qed.

(** C3, on the code: [sum] over a flat vector adds every entry, a
    not-a-number included, so one missing entry makes the whole sum a
    not-a-number, while the sum of the entries that are not missing is 1 and
    the two-dimensional [sum] does skip the missing entry. *)
Theorem sum_adds_missing_entries :
  sum [1%float; nan] = nan
  /\ sum_non_missing [1%float; nan] = 1%float
  /\ sum_2d [[1%float; nan]] = 1%float.
Proof. repeat split. Qed.

(** ** Distances *)

Lemma size_t_square (d : Z) :
  size_t_wrap (size_t_wrap d * size_t_wrap d) = size_t_wrap (d * d).
Proof. unfold size_t_wrap. now rewrite <- Z.mul_mod by lia. Qed.

(** The wrap-around of [i - x] for [i < x] cancels under squaring; what is
    left is the square of the distance modulo [2^64]. *)
Lemma pair_distance_wrap (x y i j : Z) :
  pair_distance x y i j
  = sqrt (double_of_Z (size_t_wrap ((i - x) ^ 2 + (j - y) ^ 2))).
Proof.
  unfold pair_distance. cbv zeta. rewrite !size_t_square.
  unfold size_t_wrap. rewrite <- Z.add_mod by lia.
  now rewrite !Z.pow_2_r.
Qed.

Lemma long_row_visited (n : nat) :
  In ((0, 0), (0, S n))
     (visited_pairs [1%float :: repeat nan n ++ [1%float]]).
Proof.
  apply in_visited_pairs.
  assert (Hlast : at2 [1%float :: repeat nan n ++ [1%float]] 0 (S n) = 1%float).
  { unfold at2. cbn [nth].
    rewrite app_nth2; rewrite repeat_length; [|lia].
    now rewrite Nat.sub_diag. }
  rewrite Hlast. cbn [length nth]. rewrite length_app, repeat_length.
  unfold row_major_le. cbn [fst snd length].
  repeat split; try lia; reflexivity.
Qed.

(** C5, on the code: the differences, their squares and the sum are [size_t]
    operations, so the distance emitted for a pair of cells is the square
    root of their squared distance taken modulo [2^64].  On a row of
    [2^32 + 1] cells whose two ends hold a value, the pair of the ends is
    visited; the two cells are [2^32] columns apart, their squared distance
    is [2^64], and the distance emitted for them is 0, the distance emitted
    for a cell paired with itself. *)
Theorem distance_wraps_on_long_row :
  (forall input_array function p,
      fst (sample_of input_array function p)
      = sqrt (double_of_Z (size_t_wrap (squared_distance p))))
  /\ In ((0, 0), (0, S (N.to_nat 4294967295))) (visited_pairs long_row)
  /\ squared_distance ((0, 0), (0, S (N.to_nat 4294967295)))
     = (4294967296 * 4294967296)%Z
  /\ fst (sample_of long_row (fun a b => abs (a - b))
            ((0, 0), (0, S (N.to_nat 4294967295))))
     = 0%float
  /\ fst (sample_of long_row (fun a b => abs (a - b)) ((0, 0), (0, 0)))
     = 0%float.
Proof.
  split.
  { intros input_array function [[y x] [j i]]. apply pair_distance_wrap. }
  unfold long_row.
  remember (N.to_nat 4294967295) as n eqn:Hn.
  assert (HZ : Z.of_nat (S n) = 4294967296%Z)
    by (subst n; now rewrite Nat2Z.inj_succ, N_nat_Z).
  split; [apply long_row_visited|].
  unfold sample_of, squared_distance, fst. rewrite HZ.
  repeat split.
Qed.

(** ** How many samples the enumerator produces *)

Section OrderedPairs.
Context {A : Type}.
Variable leb : A -> A -> bool.
Hypothesis leb_refl : forall a, leb a a = true.
Hypothesis leb_total : forall a b, a <> b -> leb a b = negb (leb b a).

Lemma filter_split_length (a : A) (l : list A) :
  ~ In a l ->
  length (filter (leb a) l) + length (filter (fun c => leb c a) l) = length l.
Proof.
  induction l as [|b l IH]; intros Hnotin; simpl; [reflexivity|].
  assert (Hab : a <> b) by (intros ->; apply Hnotin; now left).
  assert (Hl : ~ In a l) by (intros H; apply Hnotin; now right).
  specialize (IH Hl). rewrite (leb_total a b Hab).
  destruct (leb b a); simpl; lia.
Qed.

Lemma count_ordered_pairs_cons (a : A) (l : list A) :
  ~ In a l ->
  count_ordered_pairs leb (a :: l) = S (length l) + count_ordered_pairs leb l.
Proof.
  intros Hnotin. unfold count_ordered_pairs. simpl. rewrite leb_refl. simpl.
  rewrite <- (filter_split_length a l Hnotin).
  enough (H : forall l0,
             list_sum (map (fun c => length (if leb c a
                                             then a :: filter (leb c) l
                                             else filter (leb c) l)) l0)
             = length (filter (fun c => leb c a) l0)
               + list_sum (map (fun c => length (filter (leb c) l)) l0))
    by (rewrite H; lia).
  induction l0 as [|c l0 IH]; simpl; [reflexivity|].
  rewrite IH. destruct (leb c a); simpl; lia.
Qed.

(** In a list without repetition, a total order relates [k (k + 1) / 2]
    ordered pairs. *)
Lemma count_ordered_pairs_NoDup (l : list A) :
  NoDup l -> 2 * count_ordered_pairs leb l = length l * (length l + 1).
Proof.
  induction 1 as [|a l Hnotin Hnd IH]; [reflexivity|].
  rewrite count_ordered_pairs_cons by assumption. simpl length. lia.
Qed.
End OrderedPairs.

Lemma row_major_leb_le (p q : nat * nat) :
  row_major_leb p q = true <-> row_major_le p q.
Proof.
  unfold row_major_leb, row_major_le.
  rewrite orb_true_iff, andb_true_iff, Nat.ltb_lt, Nat.eqb_eq, Nat.leb_le.
  reflexivity.
Qed.

Lemma row_major_leb_refl (p : nat * nat) : row_major_leb p p = true.
Proof. apply row_major_leb_le. right. split; [reflexivity|lia]. Qed.

Lemma row_major_leb_total (p q : nat * nat) :
  p <> q -> row_major_leb p q = negb (row_major_leb q p).
Proof.
  destruct p as [y x], q as [j i]. intros Hpq.
  assert (Hne : y <> j \/ x <> i).
  { destruct (Nat.eq_dec y j) as [->|]; [|now left].
    right. intros ->. now apply Hpq. }
  unfold row_major_leb. simpl.
  destruct (Nat.ltb_spec y j), (Nat.ltb_spec j y), (Nat.eqb_spec y j),
    (Nat.eqb_spec j y), (Nat.leb_spec x i), (Nat.leb_spec i x);
    simpl; try reflexivity; lia.
Qed.

Lemma list_sum_guarded {A : Type} (c : A -> bool) (g : A -> nat) (l : list A) :
  list_sum (map (fun a => if c a then 0 else g a) l)
  = list_sum (map g (filter (fun a => negb (c a)) l)).
Proof.
  induction l as [|a l IH]; simpl; [reflexivity|].
  destruct (c a); simpl; now rewrite IH.
Qed.

Lemma length_tagged {A B C : Type} (g : A -> B -> C) (l1 : list A) (l2 : list B) :
  length (flat_map (fun a => map (g a) l2) l1) = length l1 * length l2.
Proof.
  induction l1 as [|a l1 IH]; simpl; [reflexivity|].
  now rewrite length_app, length_map, IH.
Qed.

Section Counting.
Variable input_array : vector_2d.

Lemma length_collapsed_iterations :
  length (collapsed_iterations input_array)
  = length input_array * length (nth 0 input_array []).
Proof.
  unfold collapsed_iterations.
  now rewrite (length_tagged (fun y x => (y, x))), !length_seq.
Qed.

Lemma NoDup_non_missing_cells : NoDup (non_missing_cells input_array).
Proof. apply NoDup_filter, NoDup_collapsed_iterations. Qed.

Lemma length_non_missing_cells :
  length (non_missing_cells input_array)
  <= length input_array * length (nth 0 input_array []).
Proof.
  rewrite <- length_collapsed_iterations. apply filter_length_le.
Qed.

(** The partners of a cell are the cells that are not missing and do not
    come before it. *)
Lemma partners_perm (y x : nat) :
  In (y, x) (collapsed_iterations input_array) ->
  Permutation (partners input_array y x)
              (filter (row_major_leb (y, x)) (non_missing_cells input_array)).
Proof.
  intros Hyx. apply in_collapsed_iterations in Hyx.
  apply NoDup_Permutation.
  - apply NoDup_partners.
  - apply NoDup_filter, NoDup_non_missing_cells.
  - intros [j i]. unfold non_missing_cells.
    rewrite in_partners, !filter_In, in_collapsed_iterations, negb_true_iff,
      row_major_leb_le.
    unfold row_major_le. simpl. intuition lia.
Qed.

Lemma length_visited_pairs :
  length (visited_pairs input_array)
  = count_ordered_pairs row_major_leb (non_missing_cells input_array).
Proof.
  unfold visited_pairs, count_ordered_pairs. rewrite length_flat_map.
  erewrite map_ext.
  2:{ intros yx.
      instantiate (1 := fun yx =>
                           if isnan (at2 input_array (fst yx) (snd yx)) then 0
                           else length (partners input_array (fst yx) (snd yx))).
      simpl. destruct (isnan (at2 input_array (fst yx) (snd yx)));
        [reflexivity|apply length_map]. }
  rewrite (list_sum_guarded
             (fun yx => isnan (at2 input_array (fst yx) (snd yx)))
             (fun yx => length (partners input_array (fst yx) (snd yx)))).
  fold (non_missing_cells input_array). f_equal.
  apply map_ext_in. intros [y x] Hyx.
  apply Permutation_length, partners_perm.
  unfold non_missing_cells in Hyx. now apply filter_In in Hyx as [Hyx _].
Qed.

(** The enumerator produces [k (k + 1) / 2] samples for [k] cells that are
    not missing. *)
Lemma visited_pairs_count :
  2 * length (visited_pairs input_array)
  = length (non_missing_cells input_array)
    * (length (non_missing_cells input_array) + 1).
Proof.
  rewrite length_visited_pairs.
  apply count_ordered_pairs_NoDup.
  - apply row_major_leb_refl.
  - apply row_major_leb_total.
  - apply NoDup_non_missing_cells.
Qed.
End Counting.

(** C6, as the code has it: whatever the schedule, the enumerator produces
    [k (k + 1) / 2] samples, [k] being the number of cells that are not
    missing; [k] is at most [height * width], so the number of samples is at
    most [height * width * (height * width + 1) / 2]. *)
Theorem apply_vector_map_length
  (input_array : vector_2d) (function : double -> double -> double)
  (s : schedule) :
  schedule_ok s ->
  let n := length (apply_vector_map input_array function s) in
  let k := length (non_missing_cells input_array) in
  let hw := length input_array * length (nth 0 input_array []) in
  2 * n = k * (k + 1) /\ k <= hw /\ 2 * n <= hw * (hw + 1).
Proof.
  intros Hs n k hw.
  assert (Hk : k <= hw) by apply length_non_missing_cells.
  assert (Hn : 2 * n = k * (k + 1)).
  { unfold n.
    rewrite (Permutation_length
               (apply_vector_map_visited input_array function s Hs)).
    rewrite length_map. apply visited_pairs_count. }
  repeat split; try assumption. nia.
Qed.

(** C6 as it was stated fails on a grid of one cell: it yields one sample,
    where [height * width * (height * width) / 2] and the reservation of the
    code are 0. *)
Lemma reservation_below_count :
  ~ (length (subtract_pairs sequential [[1%float]])
     <= length [[1%float]] * length (nth 0 [[1%float]] [])
        * (length [[1%float]] * length (nth 0 [[1%float]] [])) / 2)
  /\ (max_possible_size 1 1 < Z.of_nat (length (subtract_pairs sequential [[1%float]])))%Z.
Proof. split; vm_compute; [lia|reflexivity]. Qed.

(** ** Each pair once *)

Lemma cell_rectangular (input_array : vector_2d) (y x : nat) (a : double) :
  rectangular input_array ->
  cell input_array y x = Some a
  <-> (y < length input_array /\ x < length (nth 0 input_array []))
      /\ at2 input_array y x = a.
Proof.
  intros Hrect. unfold cell, at2.
  destruct (nth_error input_array y) as [row|] eqn:Hrow.
  - assert (Hy : y < length input_array)
      by (apply nth_error_Some; congruence).
    rewrite (nth_error_nth input_array y [] Hrow).
    assert (Hlen : length row = length (nth 0 input_array [])).
    { unfold rectangular in Hrect. rewrite Forall_forall in Hrect.
      apply Hrect. eapply nth_error_In; eassumption. }
    split.
    + intros Hx. rewrite <- Hlen. split; [split; [assumption|]|].
      * apply nth_error_Some. congruence.
      * now apply nth_error_nth.
    + intros [[_ Hx] <-]. apply nth_error_nth'. lia.
  - apply nth_error_None in Hrow. split; [discriminate|]. lia.
Qed.

Lemma visited_pairs_2x2 (a b c d : double) :
  isnan a = false -> isnan b = false -> isnan c = false -> isnan d = false ->
  visited_pairs [[a; b]; [c; d]]
  = [((0, 0), (0, 0)); ((0, 0), (0, 1)); ((0, 0), (1, 0)); ((0, 0), (1, 1));
     ((0, 1), (0, 1)); ((0, 1), (1, 0)); ((0, 1), (1, 1));
     ((1, 0), (1, 0)); ((1, 0), (1, 1));
     ((1, 1), (1, 1))].
Proof.
  intros Ha Hb Hc Hd.
  unfold visited_pairs, partners, collapsed_iterations, at2. simpl.
  rewrite Ha, Hb, Hc, Hd. reflexivity.
Qed.

(** C2: whatever the schedule, on a rectangular non-empty grid the enumerator
    returns, in some order, one sample per visited pair of cells; no pair is
    visited twice; and the visited pairs are exactly the pairs of cells of the
    grid that are not missing, the second not before the first in row-major
    order (a cell with itself included).  On a 2x2 grid without missing entry
    the subtract variant therefore returns 10 samples: 4 at distance 0, 4 at
    distance 1 and 2 at distance sqrt 2. *)
Theorem pairwise_enumerator_visits_each_pair_once
  (s : schedule) (input_array : vector_2d)
  (function : double -> double -> double) (a b c d : double) :
  schedule_ok s ->
  rectangular input_array -> input_array <> [] ->
  isnan a = false -> isnan b = false -> isnan c = false -> isnan d = false ->
  (Permutation (apply_vector_map input_array function s)
               (map (sample_of input_array function) (visited_pairs input_array))
   /\ NoDup (visited_pairs input_array)
   /\ forall y x j i,
        In ((y, x), (j, i)) (visited_pairs input_array)
        <-> (exists u v,
                cell input_array y x = Some u /\ cell input_array j i = Some v
                /\ isnan u = false /\ isnan v = false)
            /\ row_major_le (y, x) (j, i))
  /\ (visited_pairs [[a; b]; [c; d]]
      = [((0, 0), (0, 0)); ((0, 0), (0, 1)); ((0, 0), (1, 0)); ((0, 0), (1, 1));
         ((0, 1), (0, 1)); ((0, 1), (1, 0)); ((0, 1), (1, 1));
         ((1, 0), (1, 0)); ((1, 0), (1, 1));
         ((1, 1), (1, 1))]
      /\ length (subtract_pairs s [[a; b]; [c; d]]) = 10
      /\ Permutation
           (map fst (subtract_pairs s [[a; b]; [c; d]]))
           [0; 0; 0; 0; 1; 1; 1; 1; sqrt 2; sqrt 2]%float).
Proof.
  intros Hs Hrect _ Ha Hb Hc Hd. split; [split; [|split]|].
  - now apply apply_vector_map_visited.
  - apply NoDup_visited_pairs.
  - intros y x j i. rewrite in_visited_pairs. split.
    + intros (Hyx & Hji & Hle & Hu & Hv). split; [|assumption].
      exists (at2 input_array y x), (at2 input_array j i).
      rewrite !cell_rectangular by assumption. auto.
    + intros [(u & v & Hu & Hv & Hnu & Hnv) Hle].
      apply cell_rectangular in Hu as [Hyx <-]; [|assumption].
      apply cell_rectangular in Hv as [Hji <-]; [|assumption].
      auto.
  - pose proof (apply_vector_map_visited [[a; b]; [c; d]]
                  (fun a b => abs (a - b)) s Hs) as Hperm.
    rewrite (visited_pairs_2x2 a b c d Ha Hb Hc Hd) in Hperm.
    split; [now apply visited_pairs_2x2|]. split.
    + unfold subtract_pairs. now rewrite (Permutation_length Hperm).
    + unfold subtract_pairs. rewrite (Permutation_map fst Hperm).
      rewrite map_map. vm_compute. repeat place_head.
Qed.

Lemma rectangular_grid_1234 : rectangular grid_1234.
Proof. repeat constructor. Qed.

(** C2 on the concrete scenario, for the multiply variant and the run with
    one thread. *)
Lemma pairwise_enumerator_on_grid_1234 :
  (Permutation (apply_vector_map grid_1234 (fun a b => (a * b)%float) sequential)
               (map (sample_of grid_1234 (fun a b => (a * b)%float))
                    (visited_pairs grid_1234))
   /\ NoDup (visited_pairs grid_1234)
   /\ forall y x j i,
        In ((y, x), (j, i)) (visited_pairs grid_1234)
        <-> (exists u v,
                cell grid_1234 y x = Some u /\ cell grid_1234 j i = Some v
                /\ isnan u = false /\ isnan v = false)
            /\ row_major_le (y, x) (j, i))
  /\ (visited_pairs [[1; 2]; [3; 4]]%float
      = [((0, 0), (0, 0)); ((0, 0), (0, 1)); ((0, 0), (1, 0)); ((0, 0), (1, 1));
         ((0, 1), (0, 1)); ((0, 1), (1, 0)); ((0, 1), (1, 1));
         ((1, 0), (1, 0)); ((1, 0), (1, 1));
         ((1, 1), (1, 1))]
      /\ length (subtract_pairs sequential [[1; 2]; [3; 4]]%float) = 10
      /\ Permutation
           (map fst (subtract_pairs sequential [[1; 2]; [3; 4]]%float))
           [0; 0; 0; 0; 1; 1; 1; 1; sqrt 2; sqrt 2]%float).
Proof.
  apply (pairwise_enumerator_visits_each_pair_once
           sequential grid_1234 (fun a b => (a * b)%float) 1 2 3 4
           sequential_ok rectangular_grid_1234);
    [discriminate|reflexivity..].
Defined.

(** ** The concrete scenario *)

Lemma in_insert_everywhere {A : Type} (a : A) (l1 l2 : list A) :
  In (l1 ++ a :: l2) (insert_everywhere a (l1 ++ l2)).
Proof.
  induction l1 as [|b l1 IH]; simpl.
  - destruct l2; simpl; now left.
  - right. apply in_map_iff. exists (l1 ++ a :: l2). now split.
Qed.

Lemma in_all_perms {A : Type} (l l' : list A) :
  Permutation l l' -> In l' (all_perms l).
Proof.
  revert l'; induction l as [|a l IH]; intros l' Hperm.
  - apply Permutation_nil in Hperm as ->. now left.
  - destruct (Permutation_vs_cons_inv (Permutation_sym Hperm)) as (l1 & l2 & ->).
    apply Permutation_cons_app_inv in Hperm.
    simpl. apply in_flat_map. exists (l1 ++ l2). split; [now apply IH|].
    apply in_insert_everywhere.
Qed.

Lemma flat_map_by_key {A B C : Type} (f : A * B -> list C) (R : A -> list C)
  (m : list (A * B)) :
  (forall b, In b m -> f b = R (fst b)) ->
  flat_map f m = flat_map R (map fst m).
Proof.
  induction m as [|b m IH]; intros H; simpl; [reflexivity|].
  rewrite (H b (or_introl eq_refl)), IH; [reflexivity|].
  intros b' Hb'. apply H. now right.
Qed.

Lemma exact_keys_1234 : exact_keys [0; 1; sqrt 2]%float.
Proof.
  intros a b Ha Hb. simpl in Ha, Hb.
  destruct Ha as [<-|[<-|[<-|[]]]], Hb as [<-|[<-|[<-|[]]]];
    (split; [vm_compute; first [reflexivity|discriminate]
            |first [reflexivity|double_neq]]).
Qed.

Lemma NoDup_keys_1234 : NoDup [0; 1; sqrt 2]%float.
Proof.
  repeat constructor; simpl; intros H;
    repeat (destruct H as [H|H]; [revert H; double_neq|]); exact H.
Qed.

Lemma subtract_pairs_1234 (s : schedule) :
  schedule_ok s -> Permutation (subtract_pairs s grid_1234) samples_1234.
Proof.
  intros Hs. unfold subtract_pairs.
  now rewrite (apply_vector_map_visited grid_1234 (fun a b => abs (a - b)) s Hs).
Qed.

Lemma keys_samples_1234 (k : double) :
  In k (map fst samples_1234) <-> In k [0; 1; sqrt 2]%float.
Proof.
  vm_compute. tauto.
Qed.

(** The row of a bucket of [grid_1234] does not depend on the order of the
    values in the bucket. *)
Lemma structure_row_1234 (c_pow : double -> double -> double) (k : double)
  (vs : list double) :
  In k [0; 1; sqrt 2]%float ->
  Permutation vs (bucket_of samples_1234 k) ->
  structure_row c_pow (variance_2d grid_1234) 1 (k, vs)
  = structure_row c_pow (variance_2d grid_1234) 1 (k, bucket_of samples_1234 k).
Proof.
  intros Hk Hvs. simpl in Hk.
  destruct Hk as [<-|[<-|[<-|[]]]].
  - reflexivity.
  - apply Permutation_sym, in_all_perms in Hvs. vm_compute in Hvs.
    repeat (destruct Hvs as [<-|Hvs]; [vm_compute; reflexivity|]).
    contradiction.
  - apply Permutation_sym, in_all_perms in Hvs. vm_compute in Hvs.
    repeat (destruct Hvs as [<-|Hvs]; [vm_compute; reflexivity|]).
    contradiction.
Qed.

(** Whatever the schedule, the rows of [grid_1234] are the rows of its three
    buckets. *)
Lemma structure_function_1234_rows (c_pow : double -> double -> double)
  (s : schedule) :
  schedule_ok s ->
  Permutation
    (structure_function c_pow s grid_1234 1)
    (flat_map (fun k => structure_row c_pow (variance_2d grid_1234) 1
                          (k, bucket_of samples_1234 k))
              [0; 1; sqrt 2]%float).
Proof.
  intros Hs.
  rewrite (structure_function_rows c_pow s grid_1234 1 Hs).
  pose proof (subtract_pairs_1234 s Hs) as Hsamples.
  assert (Hincl : incl (map fst (subtract_pairs s grid_1234)) [0; 1; sqrt 2]%float).
  { intros k Hk. apply keys_samples_1234.
    exact (Permutation_in k (Permutation_map fst Hsamples) Hk). }
  pose proof (regroup_holds s Hs _ exact_keys_1234 _ Hincl) as Hholds.
  set (m := regroup_distance_thread_local s (subtract_pairs s grid_1234) []) in *.
  unfold bucket_rows.
  rewrite (flat_map_by_key
             (structure_row c_pow (variance_2d grid_1234) 1)
             (fun k => structure_row c_pow (variance_2d grid_1234) 1
                         (k, bucket_of samples_1234 k))).
  - apply Permutation_flat_map.
    destruct Hholds as (Hp & Hnd & Hkeys).
    apply NoDup_Permutation; [assumption|apply NoDup_keys_1234|].
    intros k. split; [apply Hkeys|].
    intros Hk. apply (holds_keys [0; 1; sqrt 2]%float m _ k (conj Hp (conj Hnd Hkeys))).
    apply (Permutation_in k (Permutation_map fst (Permutation_sym Hsamples))).
    now apply keys_samples_1234.
  - intros [k vs] Hb. simpl fst.
    apply structure_row_1234.
    + destruct Hholds as (_ & _ & Hkeys). apply Hkeys.
      exact (in_map fst _ _ Hb).
    + rewrite (holds_bucket _ exact_keys_1234 m _ k vs Hholds Hb).
      now apply bucket_of_perm.
Qed.

(** C1: whatever the schedule, on the grid [[1, 2], [3, 4]] with order 1,
    [structure_function] returns two rows, in some order: one for distance 1
    with structure value 1.2 and uncertainty 0.2309..., one for distance
    sqrt 2 with structure value 1.6 and uncertainty 0.8.  Each structure value
    is the mean of the bucket (1.5 and 2) divided by the variance 1.25 of the
    grid, and each uncertainty is the standard deviation of the bucket (0.5
    and 1) divided by the variance times sqrt (N - 1), with N = 4 and N = 2
    samples.  The doubles nearest to 1.2, 1.6, 0.5 / (1.25 sqrt 3) and 0.8
    are written in hexadecimal. *)
Theorem structure_function_on_grid_1234
  (c_pow : double -> double -> double) (s : schedule) :
  schedule_ok s ->
  Permutation
    (structure_function c_pow s grid_1234 1)
    [[1; 0x1.3333333333333p+0; 0x1.d8f7208e6b82ep-3];
     [sqrt 2; 0x1.999999999999ap+0; 0x1.999999999999ap-1]]%float
  /\ regroup_distance_thread_local sequential
       (subtract_pairs sequential grid_1234) []
     = [(0, [0; 0; 0; 0]); (1, [1; 2; 2; 1]); (sqrt 2, [3; 1])]%float
  /\ (mean [1; 2; 2; 1] = 1.5 /\ mean [3; 1] = 2
      /\ variance_2d grid_1234 = 1.25)%float
  /\ (standard_deviation [1; 2; 2; 1] = 0.5
      /\ standard_deviation [3; 1] = 1)%float
  /\ (1.5 / 1.25 = 0x1.3333333333333p+0
      /\ 2 / 1.25 = 0x1.999999999999ap+0)%float
  /\ (0.5 / (1.25 * sqrt 3) = 0x1.d8f7208e6b82ep-3
      /\ 1 / (1.25 * sqrt 1) = 0x1.999999999999ap-1)%float.
Proof.
  intros Hs. split; [|repeat split].
  rewrite (structure_function_1234_rows c_pow s Hs).
  apply Permutation_refl'. vm_compute. reflexivity.
Qed.

(** C1 on the run with one thread. *)
Lemma structure_function_on_grid_1234_sequential :
  Permutation
    (structure_function unused_pow sequential grid_1234 1)
    [[1; 0x1.3333333333333p+0; 0x1.d8f7208e6b82ep-3];
     [sqrt 2; 0x1.999999999999ap+0; 0x1.999999999999ap-1]]%float
  /\ regroup_distance_thread_local sequential
       (subtract_pairs sequential grid_1234) []
     = [(0, [0; 0; 0; 0]); (1, [1; 2; 2; 1]); (sqrt 2, [3; 1])]%float
  /\ (mean [1; 2; 2; 1] = 1.5 /\ mean [3; 1] = 2
      /\ variance_2d grid_1234 = 1.25)%float
  /\ (standard_deviation [1; 2; 2; 1] = 0.5
      /\ standard_deviation [3; 1] = 1)%float
  /\ (1.5 / 1.25 = 0x1.3333333333333p+0
      /\ 2 / 1.25 = 0x1.999999999999ap+0)%float
  /\ (0.5 / (1.25 * sqrt 3) = 0x1.d8f7208e6b82ep-3
      /\ 1 / (1.25 * sqrt 1) = 0x1.999999999999ap-1)%float.
Proof.
  exact (structure_function_on_grid_1234 unused_pow sequential sequential_ok).
Defined.

(** ** Rows without a single value *)

Lemma int_wrap_idempotent (z : Z) : int_wrap (int_wrap z) = int_wrap z.
Proof.
  unfold int_wrap.
  replace ((z + 2 ^ 31) mod 2 ^ 32 - 2 ^ 31 + 2 ^ 31)%Z
    with ((z + 2 ^ 31) mod 2 ^ 32)%Z by lia.
  now rewrite Z.mod_mod by lia.
Qed.

(** The running total of the two-dimensional mean is never the negative zero,
    and its running size is an [int]. *)
Lemma mean_2d_loop_invariant (vals : vector_2d) :
  fst (mean_2d_loop vals) <> neg_zero
  /\ int_wrap (snd (mean_2d_loop vals)) = snd (mean_2d_loop vals).
Proof.
  unfold mean_2d_loop.
  induction vals as [|val_vector vals IH] using rev_ind.
  - split; [double_neq|reflexivity].
  - rewrite fold_left_app. simpl. split.
    + intros H. apply add_neg_zero in H as [H _]. now apply IH.
    + apply int_wrap_idempotent.
Qed.

Lemma mean_2d_missing_row (vals : vector_2d) (row : list double) :
  Forall (fun v => isnan v = true) row ->
  mean_2d_loop (vals ++ [row]) = mean_2d_loop vals.
Proof.
  intros Hrow. destruct (mean_2d_loop_invariant vals) as [Hfst Hsnd].
  unfold mean_2d_loop in *. rewrite fold_left_app. simpl.
  rewrite (all_missing_mean_row row Hrow). simpl.
  rewrite (add_zero_r _ Hfst), Z.add_0_r, Hsnd.
  now destruct (fold_left _ vals (0%float, 0%Z)).
Qed.

Lemma variance_2d_missing_row (mean_val : double) (vals : vector_2d)
  (row : list double) :
  Forall (fun v => isnan v = true) row ->
  variance_2d_loop mean_val (vals ++ [row]) = variance_2d_loop mean_val vals.
Proof.
  intros Hrow. unfold variance_2d_loop. rewrite fold_left_app. simpl.
  rewrite fold_left_skips.
  - now destruct (fold_left _ vals (0%float, 0%Z)).
  - eapply Forall_impl; [|exact Hrow]. simpl. intros v Hv.
    unfold variance_step. now rewrite Hv.
Qed.

(** C8: appending to a grid a row all of whose entries are not-a-number
    changes neither the two-dimensional mean nor the two-dimensional
    variance. *)
Theorem missing_row_keeps_mean_and_variance (vals : vector_2d) (row : list double) :
  Forall (fun v => isnan v = true) row ->
  mean_2d (vals ++ [row]) = mean_2d vals
  /\ variance_2d (vals ++ [row]) = variance_2d vals.
Proof.
  intros Hrow.
  assert (Hmean : mean_2d (vals ++ [row]) = mean_2d vals)
    by (unfold mean_2d; now rewrite mean_2d_missing_row).
  split; [assumption|].
  unfold variance_2d. rewrite Hmean.
  now rewrite variance_2d_missing_row.
Qed.

(** C8 on the concrete scenario, with a row of two not-a-numbers. *)
Lemma missing_row_on_grid_1234 :
  mean_2d (grid_1234 ++ [[nan; nan]]) = mean_2d grid_1234
  /\ variance_2d (grid_1234 ++ [[nan; nan]]) = variance_2d grid_1234.
Proof.
  apply (missing_row_keeps_mean_and_variance grid_1234 [nan; nan]).
  repeat constructor.
Defined.

(** ** The properties on concrete runs *)

(** C4 on the run with one thread of the concrete scenario: the row for
    distance 1 comes from the bucket of distance 1. *)
Lemma rows_of_grid_1234_from_eligible_buckets :
  exists dist vals,
    In (dist, vals)
       (regroup_distance_thread_local sequential
          (subtract_pairs sequential grid_1234) [])
    /\ In [1; 1.5 / 1.25; 0.5 / (1.25 * sqrt 3)]%float
          (structure_row unused_pow (variance_2d grid_1234) 1 (dist, vals))
    /\ nth_error [1; 1.5 / 1.25; 0.5 / (1.25 * sqrt 3)]%float 0 = Some dist
    /\ (dist =? 0)%float = false /\ dist <> 0%float /\ dist <> neg_zero
    /\ 2 <= length vals.
Proof.
  apply (structure_function_rows_from_eligible_buckets
           unused_pow sequential grid_1234 1
           [1; 1.5 / 1.25; 0.5 / (1.25 * sqrt 3)]%float sequential_ok).
  vm_compute. left. reflexivity.
Defined.

(** C6 on the concrete scenario: 4 cells, 10 samples. *)
Lemma apply_vector_map_length_on_grid_1234 :
  let n := length (apply_vector_map grid_1234 (fun a b => abs (a - b)) sequential) in
  let k := length (non_missing_cells grid_1234) in
  let hw := length grid_1234 * length (nth 0 grid_1234 []) in
  2 * n = k * (k + 1) /\ k <= hw /\ 2 * n <= hw * (hw + 1).
Proof.
  exact (apply_vector_map_length grid_1234 (fun a b => abs (a - b)) sequential
           sequential_ok).
Defined.

(** C7 on a 2x2 grid without a single value. *)
Lemma grid_missing_yields_no_row :
  structure_function unused_pow sequential grid_missing 1 = []
  /\ isnan (variance_2d grid_missing) = true.
Proof.
  apply (all_missing_grid_yields_no_row unused_pow sequential grid_missing 1
           sequential_ok).
  repeat constructor.
Defined.

(** C7 as it was stated fails on that grid: the output holds no
    not-a-number, since it holds nothing. *)
Lemma grid_missing_yields_no_nan :
  ~ (exists row v,
        In row (structure_function unused_pow sequential grid_missing 1)
        /\ In v row /\ isnan v = true).
Proof. intros (row & v & Hrow & _). exact Hrow. Qed.

(** ** Statistics that skip the missing entries *)

Lemma fold_left_guarded {A B : Type} (c : B -> bool) (f : A -> B -> A)
  (l : list B) (a : A) :
  fold_left (fun acc v => if c v then acc else f acc v) l a
  = fold_left f (filter (fun v => negb (c v)) l) a.
Proof.
  revert a; induction l as [|v l IH]; intros a; simpl; [reflexivity|].
  destruct (c v); simpl; apply IH.
Qed.

Lemma non_missing_idempotent (vals : list double) :
  non_missing (non_missing vals) = non_missing vals.
Proof.
  unfold non_missing. induction vals as [|v vals IH]; simpl; [reflexivity|].
  destruct (isnan v) eqn:E; simpl; [exact IH|]. now rewrite E, IH.
Qed.

Lemma non_missing_all (vals : list double) :
  Forall (fun v => isnan v = true) vals -> non_missing vals = [].
Proof.
  induction 1 as [|v vals Hv _ IH]; [reflexivity|].
  unfold non_missing in *. simpl. now rewrite Hv.
Qed.

Lemma int_wrap_add_l (a b : Z) : int_wrap (int_wrap a + b) = int_wrap (a + b).
Proof.
  unfold int_wrap. f_equal.
  replace ((a + 2 ^ 31) mod 2 ^ 32 - 2 ^ 31 + b + 2 ^ 31)%Z
    with ((a + 2 ^ 31) mod 2 ^ 32 + b)%Z by lia.
  rewrite Zplus_mod_idemp_l. f_equal. lia.
Qed.

Lemma int_wrap_add_r (a b : Z) : int_wrap (a + int_wrap b) = int_wrap (a + b).
Proof. now rewrite Z.add_comm, int_wrap_add_l, Z.add_comm. Qed.

(** The counter of an accumulation that counts one by one is the wrapped
    number of steps. *)
Lemma fold_left_counter {A B : Type} (f : A -> B -> A) (l : list B) (a : A) (n : Z) :
  fold_left (fun acc v => (f (fst acc) v, int_wrap (snd acc + 1))) l (a, int_wrap n)
  = (fold_left f l a, int_wrap (n + Z.of_nat (length l))).
Proof.
  revert a n; induction l as [|v l IH]; intros a n.
  - simpl. now rewrite Z.add_0_r.
  - cbn [fold_left fst snd length]. rewrite int_wrap_add_l, IH.
    do 2 f_equal. lia.
Qed.

Lemma mean_row_eq (val_vector : list double) :
  mean_row val_vector
  = (sum (non_missing val_vector),
     int_wrap (Z.of_nat (length (non_missing val_vector)))).
Proof.
  unfold mean_row.
  rewrite (fold_left_guarded isnan
             (fun acc val => ((fst acc + val)%float, int_wrap (snd acc + 1)))).
  change (0%float, 0%Z) with (0%float, int_wrap 0).
  rewrite (fold_left_counter (fun a v => (a + v)%float)). reflexivity.
Qed.

Lemma mean_eq (vals : list double) :
  mean vals
  = (sum (non_missing vals)
     / double_of_Z (int_wrap (Z.of_nat (length (non_missing vals)))))%float.
Proof.
  unfold mean. now rewrite (fold_left_guarded isnan (fun a v => (a + v)%float)).
Qed.

Lemma variance_loop_eq (mean_val : double) (vals : list double) (a : double) (n : Z) :
  fold_left (variance_step mean_val) vals (a, int_wrap n)
  = (fold_left (fun acc val => (acc + (val - mean_val) * (val - mean_val))%float)
               (non_missing vals) a,
     int_wrap (n + Z.of_nat (length (non_missing vals)))).
Proof.
  unfold variance_step.
  rewrite (fold_left_guarded isnan
             (fun acc val => ((fst acc + (val - mean_val) * (val - mean_val))%float,
                              int_wrap (snd acc + 1)))).
  apply (fold_left_counter
           (fun a v => (a + (v - mean_val) * (v - mean_val))%float)).
Qed.

Lemma variance_eq (vals : list double) :
  variance vals
  = (fold_left (fun acc val => (acc + (val - mean vals) * (val - mean vals))%float)
               (non_missing vals) 0
     / double_of_Z (int_wrap (Z.of_nat (length (non_missing vals)))))%float.
Proof.
  unfold variance. change (0%float, 0%Z) with (0%float, int_wrap 0).
  rewrite variance_loop_eq. reflexivity.
Qed.

(** X1: [mean] reads only the entries that are not missing: it is their
    [sum] divided by their (wrapped) number, and removing the missing entries
    from the vector beforehand does not change the result. *)
Theorem mean_skips_missing_entries (vals : list double) :
  mean vals
  = (sum (non_missing vals)
     / double_of_Z (int_wrap (Z.of_nat (length (non_missing vals)))))%float
  /\ mean (non_missing vals) = mean vals.
Proof.
  split; [apply mean_eq|].
  now rewrite !mean_eq, non_missing_idempotent.
Qed.

(** X2: [variance] and [standard_deviation] read only the entries that are
    not missing: removing the missing entries from the vector beforehand
    changes neither of them. *)
Theorem variance_skips_missing_entries (vals : list double) :
  variance (non_missing vals) = variance vals
  /\ standard_deviation (non_missing vals) = standard_deviation vals.
Proof.
  assert (H : variance (non_missing vals) = variance vals).
  { rewrite !variance_eq, non_missing_idempotent.
    now rewrite !mean_eq, non_missing_idempotent. }
  split; [exact H|]. unfold standard_deviation. now rewrite H.
Qed.

Lemma add_zero_l (x : float) : x <> neg_zero -> (0 + x)%float = x.
Proof.
  intros Hx. apply Prim2SF_inj. rewrite add_spec.
  change (Prim2SF 0) with (S754_zero false).
  destruct (Prim2SF x) as [[]|[]| |sx mx ex] eqn:E; try reflexivity.
  exfalso. apply Hx. apply Prim2SF_inj. exact E.
Qed.

(** An accumulation of sums that does not start from the negative zero does
    not reach it. *)
Lemma fold_add_not_neg_zero {B : Type} (g : B -> double) (l : list B) (a : double) :
  a <> neg_zero -> fold_left (fun acc b => (acc + g b)%float) l a <> neg_zero.
Proof.
  revert a; induction l as [|b l IH]; intros a Ha; simpl; [exact Ha|].
  apply IH. intros H. apply add_neg_zero in H as [H _]. contradiction.
Qed.

Lemma zero_not_neg_zero : 0%float <> neg_zero.
Proof. double_neq. Qed.

Lemma sum_not_neg_zero (vals : list double) : sum vals <> neg_zero.
Proof.
  unfold sum. apply (fold_add_not_neg_zero (fun v => v)). exact zero_not_neg_zero.
Qed.

(** Rows that contribute a zero can be left out of a sum over the rows. *)
Lemma fold_add_zero_row {B : Type} (g : B -> double) (before after : list B) (row : B) :
  g row = 0%float ->
  fold_left (fun acc b => (acc + g b)%float) (before ++ row :: after) 0%float
  = fold_left (fun acc b => (acc + g b)%float) (before ++ after) 0%float.
Proof.
  intros Hrow. rewrite !fold_left_app. cbn [fold_left]. rewrite Hrow.
  rewrite add_zero_r; [reflexivity|].
  apply fold_add_not_neg_zero. exact zero_not_neg_zero.
Qed.

Lemma fold_left_rows_ext {A B : Type} (f g : A -> B -> A) (h : B -> B)
  (l : list B) (a : A) :
  (forall acc b, f acc (h b) = g acc b) ->
  fold_left f (map h l) a = fold_left g l a.
Proof.
  intros H. revert a; induction l as [|b l IH]; intros a; simpl; [reflexivity|].
  now rewrite H, IH.
Qed.

(** X3: the two-dimensional [sum] and [sum_of_squares] read only the cells
    that are not missing: removing the missing entries from every row changes
    neither result, and a row without a single value, wherever it stands in
    the grid, contributes nothing. *)
Theorem sum_2d_skips_missing_cells (vals before after : vector_2d)
  (row : list double) :
  (sum_2d (map non_missing vals) = sum_2d vals
   /\ sum_of_squares (map non_missing vals) = sum_of_squares vals)
  /\ (Forall (fun v => isnan v = true) row ->
      sum_2d (before ++ row :: after) = sum_2d (before ++ after)
      /\ sum_of_squares (before ++ row :: after)
         = sum_of_squares (before ++ after)).
Proof.
  split; [split|].
  - unfold sum_2d. apply fold_left_rows_ext. intros acc r. cbv zeta.
    rewrite !(fold_left_guarded isnan (fun a v => (a + v)%float)).
    fold (non_missing r). fold (non_missing (non_missing r)).
    now rewrite non_missing_idempotent.
  - unfold sum_of_squares. apply fold_left_rows_ext. intros acc r. cbv zeta.
    rewrite !(fold_left_guarded isnan (fun a v => (a + v * v)%float)).
    fold (non_missing r). fold (non_missing (non_missing r)).
    now rewrite non_missing_idempotent.
  - intros Hrow. split.
    + unfold sum_2d. cbv zeta.
      apply (fold_add_zero_row
               (fun r => fold_left (fun a v => if isnan v then a else (a + v)%float)
                                   r 0%float)).
      rewrite (fold_left_guarded isnan (fun a v => (a + v)%float)).
      fold (non_missing row). now rewrite non_missing_all.
    + unfold sum_of_squares. cbv zeta.
      apply (fold_add_zero_row
               (fun r => fold_left (fun a v => if isnan v then a
                                               else (a + v * v)%float)
                                   r 0%float)).
      rewrite (fold_left_guarded isnan (fun a v => (a + v * v)%float)).
      fold (non_missing row). now rewrite non_missing_all.
Qed.

(** X3 on a grid that has lost a value, with a row of missing entries in its
    middle. *)
Lemma sum_2d_skips_missing_cells_on_grid_12n4 :
  Forall (fun v => isnan v = true) [nan; nan]
  /\ (sum_2d (map non_missing grid_12n4) = sum_2d grid_12n4
      /\ sum_of_squares (map non_missing grid_12n4) = sum_of_squares grid_12n4)
  /\ sum_2d ([[1; 2]%float] ++ [nan; nan] :: [[nan; 4]%float])
     = sum_2d ([[1; 2]%float] ++ [[nan; 4]%float])
  /\ sum_of_squares ([[1; 2]%float] ++ [nan; nan] :: [[nan; 4]%float])
     = sum_of_squares ([[1; 2]%float] ++ [[nan; 4]%float]).
Proof.
  assert (H : Forall (fun v => isnan v = true) [nan; nan])
    by (repeat constructor).
  split; [exact H|].
  destruct (sum_2d_skips_missing_cells grid_12n4 [[1; 2]%float] [[nan; 4]%float]
              [nan; nan]) as [H1 H2].
  split; [exact H1|]. exact (H2 H).
Defined.

(** The counter of [count_non_nan] after the rows [vals], from a wrapped
    start. *)
Lemma count_rows_eq (vals : vector_2d) (n : Z) :
  fold_left (fun acc val_vector =>
               let inner_result :=
                 fold_left (fun inner_acc val =>
                              if isnan val then inner_acc
                              else int_wrap (inner_acc + 1))
                           val_vector 0%Z in
               int_wrap (acc + inner_result))
            vals (int_wrap n)
  = int_wrap (n + Z.of_nat (non_missing_count vals)).
Proof.
  unfold non_missing_count.
  revert n; induction vals as [|row vals IH]; intros n.
  - simpl. now rewrite Z.add_0_r.
  - cbn [fold_left map concat]. cbv zeta.
    assert (Hrow : fold_left (fun inner_acc val =>
                                if isnan val then inner_acc
                                else int_wrap (inner_acc + 1)) row 0%Z
                   = int_wrap (Z.of_nat (length (non_missing row)))).
    { rewrite (fold_left_guarded isnan (fun a (_ : double) => int_wrap (a + 1))).
      fold (non_missing row).
      assert (G : forall (l : list double) k,
                 fold_left (fun a (_ : double) => int_wrap (a + 1)) l (int_wrap k)
                 = int_wrap (k + Z.of_nat (length l))).
      { induction l as [|v l IHl]; intros k.
        - simpl. now rewrite Z.add_0_r.
        - cbn [fold_left length]. rewrite int_wrap_add_l, IHl. f_equal. lia. }
      exact (G (non_missing row) 0%Z). }
    rewrite Hrow, int_wrap_add_l, int_wrap_add_r, IH.
    f_equal. rewrite length_app. lia.
Qed.

Lemma mean_2d_loop_count (vals : vector_2d) (a : double) (n : Z) :
  snd (fold_left (fun st val_vector =>
                    let result := mean_row val_vector in
                    ((fst st + fst result)%float, int_wrap (snd st + snd result)))
                 vals (a, int_wrap n))
  = int_wrap (n + Z.of_nat (non_missing_count vals)).
Proof.
  unfold non_missing_count.
  revert a n; induction vals as [|row vals IH]; intros a n.
  - simpl. now rewrite Z.add_0_r.
  - cbn [fold_left map concat]. cbv zeta. rewrite mean_row_eq.
    cbn [fst snd]. rewrite int_wrap_add_l, int_wrap_add_r, IH.
    f_equal. rewrite length_app. lia.
Qed.

(** The accumulation of [variance(const vector_2d&)] runs cell after cell
    through the rows. *)
Lemma variance_2d_loop_eq (mean_val : double) (vals : vector_2d) (a : double) (n : Z) :
  fold_left (fun acc val_vector =>
               let inner_result :=
                 fold_left (variance_step mean_val) val_vector (fst acc, snd acc) in
               (fst inner_result, snd inner_result))
            vals (a, int_wrap n)
  = (fold_left (fun acc val => (acc + (val - mean_val) * (val - mean_val))%float)
               (concat (map non_missing vals)) a,
     int_wrap (n + Z.of_nat (non_missing_count vals))).
Proof.
  unfold non_missing_count.
  revert a n; induction vals as [|row vals IH]; intros a n.
  - simpl. now rewrite Z.add_0_r.
  - cbn [fold_left map concat fst snd]. cbv zeta.
    rewrite variance_loop_eq. cbn [fst snd]. rewrite IH.
    rewrite fold_left_app, length_app. do 2 f_equal. lia.
Qed.

Lemma count_non_nan_eq (vals : vector_2d) :
  count_non_nan vals = int_wrap (Z.of_nat (non_missing_count vals)).
Proof.
  unfold count_non_nan. change 0%Z with (int_wrap 0) at 2.
  now rewrite count_rows_eq.
Qed.

(** X4: [count_non_nan] is the number of cells that are not missing, wrapped
    to an [int]; it is the very size by which the two-dimensional [mean] and
    [variance] divide; and it is the exact number while that number fits an
    [int]. *)
Theorem count_non_nan_counts_values (vals : vector_2d) :
  count_non_nan vals = int_wrap (Z.of_nat (non_missing_count vals))
  /\ snd (mean_2d_loop vals) = count_non_nan vals
  /\ snd (variance_2d_loop (mean_2d vals) vals) = count_non_nan vals
  /\ ((Z.of_nat (non_missing_count vals) <= INT_MAX)%Z ->
      count_non_nan vals = Z.of_nat (non_missing_count vals)).
Proof.
  pose proof (count_non_nan_eq vals) as H.
  split; [exact H|]. split; [|split].
  - unfold mean_2d_loop. change (0%float, 0%Z) with (0%float, int_wrap 0).
    now rewrite mean_2d_loop_count, H.
  - unfold variance_2d_loop. change (0%float, 0%Z) with (0%float, int_wrap 0).
    now rewrite variance_2d_loop_eq, H.
  - intros Hfit. rewrite H. apply int_wrap_small. unfold INT_MAX in *. lia.
Qed.

(** X4 on a grid that has lost a value: three cells are counted. *)
Lemma count_non_nan_on_grid_12n4 :
  (Z.of_nat (non_missing_count grid_12n4) <= INT_MAX)%Z
  /\ count_non_nan grid_12n4 = 3%Z.
Proof.
  assert (H : (Z.of_nat (non_missing_count grid_12n4) <= INT_MAX)%Z)
    by (vm_compute; discriminate).
  split; [exact H|].
  exact (proj2 (proj2 (proj2 (count_non_nan_counts_values grid_12n4))) H).
Defined.

Lemma non_missing_count_all_missing (vals : vector_2d) :
  Forall (Forall (fun v => isnan v = true)) vals -> non_missing_count vals = 0.
Proof.
  unfold non_missing_count.
  induction 1 as [|row vals Hrow _ IH]; [reflexivity|].
  cbn [map concat]. rewrite length_app, IH, non_missing_all by exact Hrow.
  reflexivity.
Qed.

(** X5: without a single value there is no statistic: on a vector that is
    empty or holds only missing entries [mean], [variance] and
    [standard_deviation] return a not-a-number, and so do the two-dimensional
    [mean] and [variance] on a grid without a value; [count_non_nan] is then
    zero. *)
Theorem no_value_no_statistic (vals : list double) (grid : vector_2d) :
  (Forall (fun v => isnan v = true) vals ->
   mean vals = nan /\ variance vals = nan /\ standard_deviation vals = nan)
  /\ (Forall (Forall (fun v => isnan v = true)) grid ->
      mean_2d grid = nan /\ variance_2d grid = nan /\ count_non_nan grid = 0%Z).
Proof.
  split.
  - intros H.
    assert (Hm : mean vals = nan) by (now rewrite mean_eq, non_missing_all).
    assert (Hv : variance vals = nan) by (now rewrite variance_eq, non_missing_all).
    repeat split; [exact Hm|exact Hv|].
    unfold standard_deviation. now rewrite Hv.
  - intros H. repeat split.
    + unfold mean_2d, mean_2d_loop. rewrite fold_left_skips; [reflexivity|].
      eapply Forall_impl; [|exact H]. intros row Hrow. cbv zeta.
      now rewrite all_missing_mean_row.
    + now apply all_missing_variance.
    + now rewrite count_non_nan_eq, non_missing_count_all_missing.
Qed.

(** X5 on a vector and a grid of missing entries. *)
Lemma no_value_no_statistic_on_grid_missing :
  (Forall (fun v => isnan v = true) [nan; nan]
   /\ Forall (Forall (fun v => isnan v = true)) grid_missing)
  /\ (mean [nan; nan] = nan /\ variance [nan; nan] = nan
      /\ standard_deviation [nan; nan] = nan)
  /\ (mean_2d grid_missing = nan /\ variance_2d grid_missing = nan
      /\ count_non_nan grid_missing = 0%Z).
Proof.
  assert (H1 : Forall (fun v => isnan v = true) [nan; nan])
    by (repeat constructor).
  assert (H2 : Forall (Forall (fun v => isnan v = true)) grid_missing)
    by (repeat constructor).
  split; [split; assumption|].
  destruct (no_value_no_statistic [nan; nan] grid_missing) as [G1 G2].
  split; [exact (G1 H1)|exact (G2 H2)].
Defined.

(** The running total and size of [mean(const vector_2d&)]. *)
Lemma mean_2d_loop_one_row (row : list double) :
  mean_2d_loop [row]
  = (sum (non_missing row), int_wrap (Z.of_nat (length (non_missing row)))).
Proof.
  unfold mean_2d_loop. cbn [fold_left]. cbv zeta. rewrite mean_row_eq.
  cbn [fst snd]. rewrite add_zero_l by apply sum_not_neg_zero.
  now rewrite Z.add_0_l, int_wrap_idempotent.
Qed.

(** X6: on a grid of a single row the two-dimensional statistics are the
    one-dimensional ones of that row: [mean] and [variance] agree, and the
    two-dimensional [sum] is the one-dimensional [sum] of the entries that are
    not missing. *)
Theorem one_row_grid_statistics (row : list double) :
  mean_2d [row] = mean row
  /\ variance_2d [row] = variance row
  /\ sum_2d [row] = sum (non_missing row).
Proof.
  assert (Hmean : mean_2d [row] = mean row).
  { unfold mean_2d. rewrite mean_2d_loop_one_row. cbn [fst snd].
    now rewrite mean_eq. }
  split; [exact Hmean|]. split.
  - unfold variance_2d, variance_2d_loop, variance. rewrite Hmean.
    cbn [fold_left fst snd]. cbv zeta.
    now destruct (fold_left (variance_step (mean row)) row (0%float, 0%Z)).
  - unfold sum_2d. cbn [fold_left]. cbv zeta.
    rewrite (fold_left_guarded isnan (fun a v => (a + v)%float)).
    fold (non_missing row). fold (sum (non_missing row)).
    apply add_zero_l, sum_not_neg_zero.
Qed.

(** ** Subtracting the mean *)

Lemma sub_nan_l (x : float) : (nan - x)%float = nan.
Proof.
  apply Prim2SF_inj. rewrite sub_spec.
  change (Prim2SF nan) with S754_nan. reflexivity.
Qed.

Lemma subtract_mean_row (input_array : vector_2d) (y : nat) :
  nth y (subtract_mean input_array) []
  = map (fun v => (v - mean_2d input_array)%float)
        (firstn (length (nth 0 input_array [])) (nth y input_array []))
    ++ skipn (length (nth 0 input_array [])) (nth y input_array []).
Proof.
  unfold subtract_mean. cbv zeta.
  set (F := fun row : list double =>
              map (fun v => (v - mean_2d input_array)%float)
                  (firstn (length (nth 0 input_array [])) row)
              ++ skipn (length (nth 0 input_array [])) row).
  assert (HF : F [] = []) by (unfold F; now rewrite firstn_nil, skipn_nil).
  transitivity (nth y (map F input_array) (F [])); [now rewrite HF|].
  apply map_nth.
Qed.

Lemma subtract_mean_at2 (input_array : vector_2d) (y x : nat) :
  at2 (subtract_mean input_array) y x
  = if (x <? length (nth 0 input_array []))%nat
    then (at2 input_array y x - mean_2d input_array)%float
    else at2 input_array y x.
Proof.
  unfold at2. rewrite subtract_mean_row.
  set (w := length (nth 0 input_array [])).
  set (row := nth y input_array []).
  set (m := mean_2d input_array).
  destruct (Nat.ltb_spec x w) as [Hx|Hx].
  - destruct (Nat.lt_ge_cases x (length row)) as [Hlen|Hlen].
    + rewrite app_nth1 by (rewrite length_map, length_firstn; lia).
      rewrite <- (sub_nan_l m) at 1.
      rewrite (map_nth (fun v => (v - m)%float)).
      rewrite nth_firstn.
      destruct (Nat.ltb_spec x w); [reflexivity|lia].
    + rewrite (nth_overflow row) by exact Hlen.
      rewrite sub_nan_l. apply nth_overflow.
      rewrite length_app, length_map, length_firstn, length_skipn. lia.
  - destruct (Nat.lt_ge_cases x (length row)) as [Hlen|Hlen].
    + rewrite app_nth2 by (rewrite length_map, length_firstn; lia).
      rewrite length_map, length_firstn, nth_skipn. f_equal. lia.
    + rewrite (nth_overflow row) by exact Hlen. apply nth_overflow.
      rewrite length_app, length_map, length_firstn, length_skipn. lia.
Qed.

(** X7: [subtract_mean] keeps the shape of the grid and its missing cells:
    the grid has as many rows as before, every row keeps its length, a
    missing cell stays missing, and every cell in a column below the width of
    row 0 holds its former value minus the two-dimensional [mean] of the
    grid. *)
Theorem subtract_mean_keeps_shape_and_missing (input_array : vector_2d)
  (y x : nat) :
  length (subtract_mean input_array) = length input_array
  /\ length (nth y (subtract_mean input_array) [])
     = length (nth y input_array [])
  /\ (isnan (at2 input_array y x) = true ->
      isnan (at2 (subtract_mean input_array) y x) = true)
  /\ (x < length (nth 0 input_array []) ->
      at2 (subtract_mean input_array) y x
      = (at2 input_array y x - mean_2d input_array)%float).
Proof.
  split; [|split; [|split]].
  - unfold subtract_mean. apply length_map.
  - rewrite subtract_mean_row.
    rewrite length_app, length_map, length_firstn, length_skipn. lia.
  - intros Hnan. rewrite subtract_mean_at2.
    destruct (x <? length (nth 0 input_array [])); [|exact Hnan].
    apply isnan_true in Hnan. rewrite Hnan, sub_nan_l. reflexivity.
  - intros Hx. rewrite subtract_mean_at2.
    destruct (Nat.ltb_spec x (length (nth 0 input_array []))); [reflexivity|lia].
Qed.

(** X7 on a grid that has lost a value. *)
Lemma subtract_mean_on_grid_12n4 :
  (isnan (at2 grid_12n4 1 0) = true /\ 1 < length (nth 0 grid_12n4 []))
  /\ isnan (at2 (subtract_mean grid_12n4) 1 0) = true
  /\ at2 (subtract_mean grid_12n4) 1 1
     = (at2 grid_12n4 1 1 - mean_2d grid_12n4)%float.
Proof.
  assert (H1 : isnan (at2 grid_12n4 1 0) = true) by reflexivity.
  assert (H2 : 1 < length (nth 0 grid_12n4 [])) by (simpl; lia).
  split; [split; assumption|]. split.
  - exact (proj1 (proj2 (proj2 (subtract_mean_keeps_shape_and_missing
                                  grid_12n4 1 0))) H1).
  - exact (proj2 (proj2 (proj2 (subtract_mean_keeps_shape_and_missing
                                  grid_12n4 1 1))) H2).
Defined.

(** ** The statistics of a pair of cells *)

Lemma mul_comm (a b : float) : (a * b)%float = (b * a)%float.
Proof.
  apply Prim2SF_inj. rewrite !mul_spec. unfold SF64mul, SFmul.
  destruct (Prim2SF a) as [sa|sa| |sa ma ea], (Prim2SF b) as [sb|sb| |sb mb eb];
    try reflexivity; try (now rewrite xorb_comm).
  now rewrite xorb_comm, Pos.mul_comm, Z.add_comm.
Qed.

Lemma SFabs_binary_round_aux (s s' : bool) (m e : Z) (l : location) :
  SFabs (binary_round_aux prec emax s m e l)
  = SFabs (binary_round_aux prec emax s' m e l).
Proof.
  unfold binary_round_aux.
  destruct (shr_fexp prec emax m e l) as [mrs1 e1].
  destruct (shr_fexp prec emax
              (round_nearest_even (shr_m mrs1) (loc_of_shr_record mrs1)) e1
              loc_Exact) as [mrs2 e2].
  destruct (shr_m mrs2); try reflexivity.
  destruct (e2 <=? emax - prec)%Z; reflexivity.
Qed.

Lemma SFabs_binary_round (s s' : bool) (m : positive) (e : Z) :
  SFabs (binary_round prec emax s m e) = SFabs (binary_round prec emax s' m e).
Proof.
  unfold binary_round.
  destruct (shl_align m e (fexp prec emax (Zpos (digits2_pos m) + e))) as [mz ez].
  apply SFabs_binary_round_aux.
Qed.

Lemma SFabs_binary_normalize_opp (m e : Z) (szero : bool) :
  SFabs (binary_normalize prec emax (- m) e szero)
  = SFabs (binary_normalize prec emax m e szero).
Proof.
  unfold binary_normalize.
  destruct m; simpl; [reflexivity| |]; apply SFabs_binary_round.
Qed.

Lemma SFabs_SFopp (x : spec_float) : SFabs (SFopp x) = SFabs x.
Proof. now destruct x. Qed.

(** The distance between two doubles does not depend on their order. *)
Lemma abs_sub_comm (a b : float) : abs (a - b) = abs (b - a).
Proof.
  apply Prim2SF_inj. rewrite !abs_spec, !sub_spec. unfold SF64sub, SFsub.
  destruct (Prim2SF a) as [[]|[]| |sa ma ea], (Prim2SF b) as [[]|[]| |sb mb eb];
    try reflexivity.
  rewrite (Z.min_comm eb ea).
  rewrite <- SFabs_binary_normalize_opp. f_equal. f_equal. lia.
Qed.

Lemma pair_distance_comm (x y i j : Z) :
  pair_distance x y i j = pair_distance i j x y.
Proof.
  rewrite !pair_distance_wrap. do 3 f_equal. lia.
Qed.

(** X8: the sample of a pair of cells does not depend on the order of the
    two cells, for the statistic of [subtract_pairs] as for the one of
    [multiply_pairs]: visiting every unordered pair once loses nothing. *)
Theorem pair_sample_symmetric (input_array : vector_2d) (p q : nat * nat) :
  sample_of input_array (fun a b => abs (a - b)) (p, q)
  = sample_of input_array (fun a b => abs (a - b)) (q, p)
  /\ sample_of input_array (fun a b => (a * b)%float) (p, q)
     = sample_of input_array (fun a b => (a * b)%float) (q, p).
Proof.
  destruct p as [y x], q as [j i]. unfold sample_of.
  rewrite (pair_distance_comm (Z.of_nat x)).
  rewrite (abs_sub_comm (at2 input_array y x)).
  rewrite (mul_comm (at2 input_array y x)).
  split; reflexivity.
Qed.

(** ** What the enumerator returns *)

Lemma map_fst_iteration_samples (input_array : vector_2d)
  (f g : double -> double -> double) (yx : nat * nat) :
  map fst (iteration_samples input_array f yx)
  = map fst (iteration_samples input_array g yx).
Proof.
  unfold iteration_samples.
  destruct (isnan (at2 input_array (fst yx) (snd yx))); [reflexivity|].
  rewrite !map_map. apply map_ext. intros [j i]. destruct yx as [y x].
  reflexivity.
Qed.

Lemma map_fst_apply_vector_map (input_array : vector_2d)
  (f g : double -> double -> double) (s : schedule) :
  map fst (apply_vector_map input_array f s)
  = map fst (apply_vector_map input_array g s).
Proof.
  rewrite !apply_vector_map_eq, !map_flat_map.
  apply flat_map_ext. intros t.
  rewrite !thread_single_dists_and_vals_eq, !map_flat_map.
  apply flat_map_ext. intros yx. apply map_fst_iteration_samples.
Qed.

(** X9: the distances returned by the enumerator do not depend on the
    statistic: under the same schedule [multiply_pairs] and [subtract_pairs]
    return the same distances in the same order, and as many samples. *)
Theorem enumerated_distances_independent_of_statistic (s : schedule)
  (input_array : vector_2d) :
  map fst (multiply_pairs s input_array) = map fst (subtract_pairs s input_array)
  /\ length (multiply_pairs s input_array)
     = length (subtract_pairs s input_array).
Proof.
  assert (H : map fst (multiply_pairs s input_array)
              = map fst (subtract_pairs s input_array))
    by apply map_fst_apply_vector_map.
  split; [exact H|].
  rewrite <- (length_map fst (multiply_pairs s input_array)), H.
  apply length_map.
Qed.

Lemma pair_distance_self (x y : Z) : pair_distance x y x y = 0%float.
Proof.
  rewrite pair_distance_wrap, !Z.sub_diag. reflexivity.
Qed.

(** X10: every cell of the grid that is not missing is paired with itself:
    whatever the schedule, the enumerator returns for it a sample at distance
    zero that holds the statistic of the cell with itself. *)
Theorem enumerator_pairs_cell_with_itself (s : schedule)
  (input_array : vector_2d) (function : double -> double -> double)
  (y x : nat) :
  schedule_ok s ->
  y < length input_array -> x < length (nth 0 input_array []) ->
  isnan (at2 input_array y x) = false ->
  In (0%float, function (at2 input_array y x) (at2 input_array y x))
     (apply_vector_map input_array function s).
Proof.
  intros Hs Hy Hx Hval.
  apply (Permutation_in _
           (Permutation_sym (apply_vector_map_visited input_array function s Hs))).
  apply in_map_iff. exists ((y, x), (y, x)). split.
  - unfold sample_of. now rewrite pair_distance_self.
  - apply in_visited_pairs. repeat split; try assumption.
    right. simpl. split; [reflexivity|lia].
Qed.

(** X10 for the run with two threads: the last cell of the grid paired with
    itself. *)
Lemma enumerator_pairs_cell_with_itself_on_grid_12n4 :
  (schedule_ok two_threads
   /\ 1 < length grid_12n4 /\ 1 < length (nth 0 grid_12n4 [])
   /\ isnan (at2 grid_12n4 1 1) = false)
  /\ In (0%float, 0%float) (subtract_pairs two_threads grid_12n4).
Proof.
  assert (Hy : 1 < length grid_12n4) by (simpl; lia).
  assert (Hx : 1 < length (nth 0 grid_12n4 [])) by (simpl; lia).
  assert (Hv : isnan (at2 grid_12n4 1 1) = false) by reflexivity.
  split; [split; [exact two_threads_ok|repeat split; assumption]|].
  exact (enumerator_pairs_cell_with_itself two_threads grid_12n4
           (fun a b => abs (a - b)) 1 1 two_threads_ok Hy Hx Hv).
Defined.

(** *** The aggregator only appends *)

Lemma bucket_extends_refl (b : double * list double) : bucket_extends b b.
Proof. split; [reflexivity|]. exists []. now rewrite app_nil_r. Qed.

Lemma buckets_extend_refl (m : double_unordered_map) :
  Forall2 bucket_extends m m.
Proof. induction m; constructor; [apply bucket_extends_refl|assumption]. Qed.

Lemma buckets_extend_trans (m m' m'' : double_unordered_map) :
  Forall2 bucket_extends m m' -> Forall2 bucket_extends m' m'' ->
  Forall2 bucket_extends m m''.
Proof.
  intros H; revert m''.
  induction H as [|b b' m m' Hb _ IH]; intros m'' H'; inversion H'; subst;
    constructor; [|now apply IH].
  destruct Hb as [Hk [e He]].
  match goal with H : bucket_extends b' _ |- _ => destruct H as [Hk' [e' He']] end.
  split; [congruence|]. exists (e ++ e'). now rewrite He', He, app_assoc.
Qed.

Lemma map_extends_refl (m : double_unordered_map) : map_extends m m.
Proof.
  exists m, []. split; [now rewrite app_nil_r|apply buckets_extend_refl].
Qed.

Lemma map_extends_trans (m m' m'' : double_unordered_map) :
  map_extends m m' -> map_extends m' m'' -> map_extends m m''.
Proof.
  intros (m1 & m2 & -> & H1) (n1 & n2 & -> & H2).
  apply Forall2_app_inv_l in H2 as (n1a & n1b & Ha & Hb & ->).
  exists n1a, (n1b ++ n2). split; [now rewrite app_assoc|].
  now apply (buckets_extend_trans m m1 n1a).
Qed.

Lemma insert_end_at_extends (k : double) (vals : list double)
  (m : double_unordered_map) :
  map_extends m (insert_end_at k vals m).
Proof.
  induction m as [|[k' vs] m IH].
  - exists [], (insert_end_at k vals []). split; [reflexivity|constructor].
  - rewrite insert_end_at_cons. destruct (k' =? k)%float.
    + exists ((k', vs ++ vals) :: m), []. split; [now rewrite app_nil_r|].
      constructor; [|apply buckets_extend_refl].
      split; [reflexivity|]. now exists vals.
    + destruct IH as (m1 & m2 & Heq & H). rewrite Heq.
      exists ((k', vs) :: m1), m2. split; [reflexivity|].
      constructor; [apply bucket_extends_refl|assumption].
Qed.

Lemma fold_insert_end_at_extends (entries m : double_unordered_map) :
  map_extends m
    (fold_left (fun m pair => insert_end_at (fst pair) (snd pair) m) entries m).
Proof.
  revert m; induction entries as [|b entries IH]; intros m; simpl.
  - apply map_extends_refl.
  - eapply map_extends_trans; [apply insert_end_at_extends|apply IH].
Qed.

(** X11: [regroup_distance_thread_local] only appends to the map it is
    given: whatever the schedule, every bucket the map held keeps its key and
    its place, its former values stay at its front in their order, and the
    buckets of new keys come after the former ones. *)
Theorem regroup_only_appends (s : schedule) (samples : list sample)
  (regrouped_vals : double_unordered_map) :
  map_extends regrouped_vals
    (regroup_distance_thread_local s samples regrouped_vals).
Proof.
  unfold regroup_distance_thread_local.
  generalize (seq 0 (omp_max_threads s)) as ts.
  intros ts; revert regrouped_vals.
  induction ts as [|t ts IH]; intros m; simpl.
  - apply map_extends_refl.
  - eapply map_extends_trans; [apply fold_insert_end_at_extends|apply IH].
Qed.

(** *** Every value is stored once *)

Lemma stored_values_insert_end_at (k : double) (vals : list double)
  (m : double_unordered_map) :
  Permutation (stored_values (insert_end_at k vals m)) (vals ++ stored_values m).
Proof.
  unfold stored_values.
  induction m as [|[k' vs] m IH].
  - rewrite insert_end_at_nil. now destruct (k =? k)%float.
  - rewrite insert_end_at_cons. destruct (k' =? k)%float; simpl.
    + rewrite <- app_assoc. rewrite Permutation_app_swap_app. reflexivity.
    + rewrite IH. apply Permutation_app_swap_app.
Qed.

Lemma stored_values_push_back_at (k v : double) (m : double_unordered_map) :
  Permutation (stored_values (push_back_at k v m)) (v :: stored_values m).
Proof.
  unfold stored_values.
  induction m as [|[k' vs] m IH]; simpl.
  - reflexivity.
  - destruct (k' =? k)%float; simpl.
    + rewrite <- app_assoc. symmetry. apply Permutation_middle.
    + rewrite IH. symmetry. apply Permutation_middle.
Qed.

Lemma stored_values_fold_push_back_at (l : list sample)
  (m : double_unordered_map) :
  Permutation
    (stored_values (fold_left (fun m dv => push_back_at (fst dv) (snd dv) m) l m))
    (map snd l ++ stored_values m).
Proof.
  revert m; induction l as [|dv l IH]; intros m; simpl; [reflexivity|].
  rewrite IH, stored_values_push_back_at.
  simpl. symmetry. apply Permutation_middle.
Qed.

Lemma stored_values_fold_insert_end_at (entries m : double_unordered_map) :
  Permutation
    (stored_values (fold_left (fun m pair => insert_end_at (fst pair) (snd pair) m)
                              entries m))
    (stored_values entries ++ stored_values m).
Proof.
  revert m; induction entries as [|b entries IH]; intros m; simpl; [reflexivity|].
  rewrite IH, stored_values_insert_end_at.
  unfold stored_values at 3. simpl. fold (stored_values entries).
  rewrite <- app_assoc. apply Permutation_app_swap_app.
Qed.

Lemma stored_values_perm (m m' : double_unordered_map) :
  Permutation m m' -> Permutation (stored_values m) (stored_values m').
Proof.
  intros H. unfold stored_values.
  rewrite <- !flat_map_concat_map. now apply Permutation_flat_map.
Qed.

Lemma stored_values_merge (s : schedule) (samples : list sample)
  (ts : list nat) (m : double_unordered_map) :
  schedule_ok s ->
  Permutation
    (stored_values
       (fold_left (fun regrouped_vals t =>
                     fold_left (fun regrouped_vals pair =>
                                  insert_end_at (fst pair) (snd pair)
                                                regrouped_vals)
                               (map_order s (local_regroup_vals s t samples))
                               regrouped_vals)
                  ts m))
    (map snd (flat_map (fun t => owned_samples s t samples) ts)
     ++ stored_values m).
Proof.
  intros Hs. revert m; induction ts as [|t ts IH]; intros m; simpl;
    [reflexivity|].
  rewrite IH, stored_values_fold_insert_end_at.
  rewrite (stored_values_perm _ _ (map_order_perm s Hs _)).
  rewrite local_regroup_vals_eq, stored_values_fold_push_back_at.
  unfold stored_values at 1. simpl. rewrite app_nil_r, map_app.
  rewrite <- !app_assoc. apply Permutation_app_swap_app.
Qed.

(** X12: whatever the schedule and whatever the keys, not-a-numbers and
    signed zeros included, [regroup_distance_thread_local] stores the value of
    every sample exactly once and keeps the values the map held: the values
    of the resulting map are those of the former map and those of the
    samples, in some order, so the map grows by as many values as there are
    samples. *)
Theorem regroup_stores_every_value_once (s : schedule) (samples : list sample)
  (regrouped_vals : double_unordered_map) :
  schedule_ok s ->
  Permutation
    (stored_values (regroup_distance_thread_local s samples regrouped_vals))
    (stored_values regrouped_vals ++ map snd samples)
  /\ length (stored_values (regroup_distance_thread_local s samples regrouped_vals))
     = length (stored_values regrouped_vals) + length samples.
Proof.
  intros Hs.
  assert (H : Permutation
                (stored_values
                   (regroup_distance_thread_local s samples regrouped_vals))
                (stored_values regrouped_vals ++ map snd samples)).
  { unfold regroup_distance_thread_local.
    rewrite (stored_values_merge s samples _ _ Hs).
    rewrite (Permutation_map snd (owned_samples_partition s samples Hs)).
    apply Permutation_app_comm. }
  split; [exact H|].
  rewrite (Permutation_length H), length_app, length_map. reflexivity.
Qed.

(** X12 for the run with two threads, on keys that are not-a-numbers and zeros
    of both signs. *)
Lemma regroup_stores_every_value_once_two_threads :
  schedule_ok two_threads
  /\ Permutation
       (stored_values
          (regroup_distance_thread_local two_threads
             [(nan, 1); (0, 2); (neg_zero, 3); (nan, 4)]%float [(0, [5])]%float))
       [5; 1; 2; 3; 4]%float.
Proof.
  split; [exact two_threads_ok|].
  exact (proj1 (regroup_stores_every_value_once two_threads
                  [(nan, 1); (0, 2); (neg_zero, 3); (nan, 4)]%float
                  [(0, [5])]%float two_threads_ok)).
Defined.

(** *** The buckets are the distances *)

Lemma in_flatten (m : double_unordered_map) (k v : double) :
  In (k, v) (flatten m) <-> exists vs, In (k, vs) m /\ In v vs.
Proof.
  unfold flatten. rewrite in_flat_map. split.
  - intros ([k' vs] & Hb & Hin). apply in_map_iff in Hin as (v' & Heq & Hv).
    inversion Heq; subst. now exists vs.
  - intros (vs & Hb & Hv). exists (k, vs). split; [assumption|].
    apply in_map_iff. now exists v.
Qed.

(** X13: on distances that [==] tells apart exactly, the aggregator groups
    the samples by distance, whatever the schedule: the keys of the map are
    pairwise different, they are the distances of the samples, and the bucket
    of a key holds the values of the samples at that distance, in some
    order. *)
Theorem regroup_groups_by_distance (s : schedule) (K : list double)
  (samples : list sample) :
  schedule_ok s -> exact_keys K -> incl (map fst samples) K ->
  NoDup (map fst (regroup_distance_thread_local s samples []))
  /\ (forall k, In k (map fst (regroup_distance_thread_local s samples []))
                <-> In k (map fst samples))
  /\ (forall k vs, In (k, vs) (regroup_distance_thread_local s samples []) ->
                   Permutation vs (bucket_of samples k)).
Proof.
  intros Hs HK Hincl.
  pose proof (regroup_holds s Hs K HK samples Hincl) as Hholds.
  split; [exact (proj1 (proj2 Hholds))|]. split.
  - intros k. split; [|apply (holds_keys K _ _ k Hholds)].
    intros Hk. apply in_map_iff in Hk as ([k' vs] & <- & Hb).
    assert (Hne : nonempty_buckets (regroup_distance_thread_local s samples [])).
    { apply regroup_nonempty; [assumption| |constructor].
      apply Forall_forall. intros dv Hdv.
      assert (Hkey : In (fst dv) K) by (apply Hincl; now apply in_map).
      now apply (HK (fst dv) (fst dv) Hkey Hkey). }
    unfold nonempty_buckets in Hne. rewrite Forall_forall in Hne.
    specialize (Hne _ Hb). simpl in Hne.
    destruct vs as [|v vs]; [contradiction|].
    apply (in_map fst _ (k', v)).
    apply (Permutation_in _ (proj1 Hholds)).
    apply in_flatten. exists (v :: vs). split; [assumption|now left].
  - intros k vs Hb. exact (holds_bucket K HK _ _ k vs Hholds Hb).
Qed.

(** X13 for the run with two threads, on the samples of the concrete scenario. *)
Lemma regroup_groups_by_distance_on_samples_1234 :
  (schedule_ok two_threads /\ exact_keys [0; 1; sqrt 2]%float
   /\ incl (map fst samples_1234) [0; 1; sqrt 2]%float)
  /\ NoDup (map fst (regroup_distance_thread_local two_threads samples_1234 []))
  /\ (forall k, In k (map fst (regroup_distance_thread_local two_threads
                                 samples_1234 []))
                <-> In k (map fst samples_1234))
  /\ (forall k vs, In (k, vs) (regroup_distance_thread_local two_threads
                                 samples_1234 []) ->
                   Permutation vs (bucket_of samples_1234 k)).
Proof.
  assert (Hincl : incl (map fst samples_1234) [0; 1; sqrt 2]%float)
    by (intros k Hk; now apply keys_samples_1234).
  split; [split; [exact two_threads_ok|split; [exact exact_keys_1234|exact Hincl]]|].
  exact (regroup_groups_by_distance two_threads [0; 1; sqrt 2]%float samples_1234
           two_threads_ok exact_keys_1234 Hincl).
Defined.

(** *** The shape of the output *)

Lemma structure_row_cases (c_pow : double -> double -> double)
  (variance_val : double) (order : Z) (bucket : double * list double) :
  structure_row c_pow variance_val order bucket = []
  \/ exists structure structure_uncertainty,
       structure_row c_pow variance_val order bucket
       = [[fst bucket; structure; structure_uncertainty]].
Proof.
  unfold structure_row. cbv zeta.
  destruct (fst bucket =? 0)%float; [now left|].
  destruct (int_wrap (Z.of_nat (length (pow c_pow (snd bucket) (double_of_Z order))))
            =? 1)%Z; [now left|].
  right. eauto.
Qed.

Lemma length_bucket_rows (c_pow : double -> double -> double)
  (variance_val : double) (order : Z) (m : double_unordered_map) :
  length (bucket_rows c_pow variance_val order m) <= length m.
Proof.
  unfold bucket_rows. induction m as [|b m IH]; simpl; [lia|].
  rewrite length_app.
  destruct (structure_row_cases c_pow variance_val order b) as [->|(a & u & ->)];
    simpl; lia.
Qed.

Lemma in_distances_bucket_rows (c_pow : double -> double -> double)
  (variance_val : double) (order : Z) (m : double_unordered_map) (d : double) :
  In d (map row_distance (bucket_rows c_pow variance_val order m)) ->
  In d (map fst m).
Proof.
  unfold bucket_rows. induction m as [|b m IH]; simpl; [auto|].
  rewrite map_app, in_app_iff. intros [H|H]; [|right; now apply IH].
  destruct (structure_row_cases c_pow variance_val order b) as [E|(a & u & E)];
    rewrite E in H; simpl in H; [contradiction|].
  destruct H as [H|[]]. now left.
Qed.

Lemma NoDup_distances_bucket_rows (c_pow : double -> double -> double)
  (variance_val : double) (order : Z) (m : double_unordered_map) :
  NoDup (map fst m) ->
  NoDup (map row_distance (bucket_rows c_pow variance_val order m)).
Proof.
  induction m as [|b m IH]; intros Hnd; [constructor|].
  inversion Hnd as [|? ? Hnotin Hnd']; subst.
  change (bucket_rows c_pow variance_val order (b :: m))
    with (structure_row c_pow variance_val order b
          ++ bucket_rows c_pow variance_val order m).
  destruct (structure_row_cases c_pow variance_val order b) as [->|(a & u & ->)];
    simpl; [now apply IH|].
  constructor; [|now apply IH].
  intros Hin. apply Hnotin. exact (in_distances_bucket_rows _ _ _ _ _ Hin).
Qed.

(** X14: whatever the schedule, the grid and the order, every row returned
    by [structure_function] has exactly three entries, and there are no more
    rows than the aggregated map has buckets. *)
Theorem structure_function_row_shape (c_pow : double -> double -> double)
  (s : schedule) (input_array : vector_2d) (order : Z) :
  schedule_ok s ->
  Forall (fun row => length row = 3) (structure_function c_pow s input_array order)
  /\ length (structure_function c_pow s input_array order)
     <= length (regroup_distance_thread_local s (subtract_pairs s input_array) []).
Proof.
  intros Hs.
  pose proof (structure_function_rows c_pow s input_array order Hs) as Hrows.
  split.
  - apply Forall_forall. intros row Hrow.
    apply (Permutation_in _ Hrows) in Hrow. unfold bucket_rows in Hrow.
    apply in_flat_map in Hrow as ([dist vals] & _ & Hrow).
    now destruct (structure_row_inv _ _ _ _ _ _ Hrow) as (_ & _ & _ & Hlen).
  - rewrite (Permutation_length Hrows). apply length_bucket_rows.
Qed.

(** X14 for the run with two threads, on the concrete scenario. *)
Lemma structure_function_row_shape_two_threads :
  schedule_ok two_threads
  /\ Forall (fun row => length row = 3)
            (structure_function unused_pow two_threads grid_1234 1)
  /\ length (structure_function unused_pow two_threads grid_1234 1)
     <= length (regroup_distance_thread_local two_threads
                  (subtract_pairs two_threads grid_1234) []).
Proof.
  split; [exact two_threads_ok|].
  exact (structure_function_row_shape unused_pow two_threads grid_1234 1
           two_threads_ok).
Defined.

(** X15: when [==] tells the distances of the samples apart exactly, no
    distance comes twice in the output of [structure_function]: the first
    entries of its rows are pairwise different, whatever the schedule. *)
Theorem structure_function_distances_distinct
  (c_pow : double -> double -> double) (s : schedule) (K : list double)
  (input_array : vector_2d) (order : Z) :
  schedule_ok s -> exact_keys K ->
  incl (map fst (subtract_pairs s input_array)) K ->
  NoDup (map row_distance (structure_function c_pow s input_array order)).
Proof.
  intros Hs HK Hincl.
  pose proof (structure_function_rows c_pow s input_array order Hs) as Hrows.
  apply (Permutation_NoDup (Permutation_sym (Permutation_map row_distance Hrows))).
  apply NoDup_distances_bucket_rows.
  exact (proj1 (proj2 (regroup_holds s Hs K HK _ Hincl))).
Qed.

(** X15 for the run with two threads, on the concrete scenario. *)
Lemma structure_function_distances_distinct_on_grid_1234 :
  (schedule_ok two_threads /\ exact_keys [0; 1; sqrt 2]%float
   /\ incl (map fst (subtract_pairs two_threads grid_1234)) [0; 1; sqrt 2]%float)
  /\ NoDup (map row_distance
              (structure_function unused_pow two_threads grid_1234 1)).
Proof.
  assert (Hincl : incl (map fst (subtract_pairs two_threads grid_1234))
                       [0; 1; sqrt 2]%float).
  { intros k Hk. apply keys_samples_1234.
    exact (Permutation_in k
             (Permutation_map fst (subtract_pairs_1234 two_threads two_threads_ok))
             Hk). }
  split; [split; [exact two_threads_ok|split; [exact exact_keys_1234|exact Hincl]]|].
  exact (structure_function_distances_distinct unused_pow two_threads
           [0; 1; sqrt 2]%float grid_1234 1 two_threads_ok exact_keys_1234 Hincl).
Defined.

(** *** The first order *)

Lemma pow_exponent_one (c_pow : double -> double -> double) (vals : list double) :
  pow c_pow vals (double_of_Z 1) = vals.
Proof. reflexivity. Qed.

Lemma structure_function_eq (c_pow : double -> double -> double) (s : schedule)
  (input_array : vector_2d) (order : Z) :
  structure_function c_pow s input_array order
  = flat_map (thread_local_result c_pow (variance_2d input_array) order s
                (regroup_distance_thread_local s (subtract_pairs s input_array) []))
             (seq 0 (omp_max_threads s)).
Proof.
  unfold structure_function. cbv zeta.
  exact (fold_left_push _ _ []).
Qed.

(** X16: at order 1 the C library's [pow] is never consulted: [pow] of
    stats.cpp returns the vector as it is, and [structure_function] returns
    the same rows in the same order whatever [std::pow] would compute. *)
Theorem first_order_never_calls_pow (c_pow c_pow' : double -> double -> double)
  (s : schedule) (input_array : vector_2d) (vals : list double) :
  pow c_pow vals (double_of_Z 1) = vals
  /\ structure_function c_pow s input_array 1
     = structure_function c_pow' s input_array 1.
Proof.
  split; [apply pow_exponent_one|].
  rewrite !structure_function_eq. apply flat_map_ext. intros t.
  rewrite !thread_local_result_eq. apply flat_map_ext. intros i.
  reflexivity.
Qed.

(** *** A row without a value at the end of the grid *)

Lemma flat_map_ext_in {A B : Type} (f g : A -> list B) (l : list A) :
  (forall a, In a l -> f a = g a) -> flat_map f l = flat_map g l.
Proof.
  induction l as [|a l IH]; intros H; simpl; [reflexivity|].
  rewrite (H a (or_introl eq_refl)), IH; [reflexivity|].
  intros a' Ha'. apply H. now right.
Qed.

Lemma filter_none {A : Type} (f : A -> bool) (l : list A) :
  (forall a, In a l -> f a = false) -> filter f l = [].
Proof.
  intros H. rewrite (filter_ext_in f (fun _ => false) l H). apply filter_false.
Qed.

Section MissingLastRow.
Variable input_array : vector_2d.
Variable row : list double.
Hypothesis Hgrid : input_array <> [].
Hypothesis Hrow : Forall (fun v => isnan v = true) row.

Lemma at2_former_rows (y x : nat) :
  y < length input_array ->
  at2 (input_array ++ [row]) y x = at2 input_array y x.
Proof. intros Hy. unfold at2. now rewrite app_nth1. Qed.

Lemma at2_last_row (x : nat) :
  isnan (at2 (input_array ++ [row]) (length input_array) x) = true.
Proof.
  unfold at2. rewrite app_nth2, Nat.sub_diag by lia. simpl.
  destruct (nth_in_or_default x row nan) as [Hin|Heq];
    [|rewrite Heq; reflexivity].
  rewrite Forall_forall in Hrow. now apply Hrow.
Qed.

Lemma width_with_last_row :
  nth 0 (input_array ++ [row]) [] = nth 0 input_array [].
Proof. destruct input_array; [contradiction|reflexivity]. Qed.

Lemma partners_with_last_row (y x : nat) :
  y < length input_array ->
  partners (input_array ++ [row]) y x = partners input_array y x.
Proof.
  intros Hy. unfold partners. rewrite width_with_last_row, length_app.
  simpl length.
  replace (length input_array + 1 - y) with (S (length input_array - y)) by lia.
  rewrite seq_S, flat_map_app.
  replace (y + (length input_array - y)) with (length input_array) by lia.
  simpl flat_map at 2.
  rewrite (filter_none _ (seq _ _)), app_nil_r.
  - apply flat_map_ext_in. intros j Hj. apply in_seq in Hj. f_equal.
    apply filter_ext. intros i. rewrite at2_former_rows by lia. reflexivity.
  - intros i _. now rewrite at2_last_row.
Qed.

Lemma iteration_samples_former_rows (function : double -> double -> double)
  (yx : nat * nat) :
  fst yx < length input_array ->
  iteration_samples (input_array ++ [row]) function yx
  = iteration_samples input_array function yx.
Proof.
  intros Hy. unfold iteration_samples.
  rewrite at2_former_rows, partners_with_last_row by assumption.
  destruct (isnan (at2 input_array (fst yx) (snd yx))); [reflexivity|].
  apply map_ext_in. intros [j i] Hji. destruct yx as [y x].
  apply in_partners in Hji. unfold sample_of.
  now rewrite !at2_former_rows by (simpl in *; lia).
Qed.

Lemma iteration_samples_last_row (function : double -> double -> double)
  (x : nat) :
  iteration_samples (input_array ++ [row]) function (length input_array, x) = [].
Proof. unfold iteration_samples. simpl. now rewrite at2_last_row. Qed.

Lemma collapsed_iterations_with_last_row :
  collapsed_iterations (input_array ++ [row])
  = collapsed_iterations input_array
    ++ map (fun x => (length input_array, x))
           (seq 0 (length (nth 0 input_array []))).
Proof.
  unfold collapsed_iterations. rewrite width_with_last_row, length_app.
  simpl length. rewrite Nat.add_1_r, seq_S, flat_map_app. simpl.
  now rewrite app_nil_r.
Qed.

Lemma apply_vector_map_with_last_row (function : double -> double -> double)
  (s : schedule) :
  apply_vector_map (input_array ++ [row]) function s
  = apply_vector_map input_array function s.
Proof.
  rewrite !apply_vector_map_eq. apply flat_map_ext. intros t.
  rewrite !thread_single_dists_and_vals_eq.
  rewrite collapsed_iterations_with_last_row, filter_app, flat_map_app.
  rewrite (flat_map_all_nil _ (filter _ (map _ _))), app_nil_r.
  - apply flat_map_ext_in. intros yx Hyx. apply filter_In in Hyx as [Hyx _].
    destruct yx as [y x]. apply in_collapsed_iterations in Hyx.
    apply iteration_samples_former_rows. simpl. lia.
  - intros yx Hyx. apply filter_In in Hyx as [Hyx _].
    apply in_map_iff in Hyx as (x & <- & _). apply iteration_samples_last_row.
Qed.

Lemma variance_2d_with_last_row :
  variance_2d (input_array ++ [row]) = variance_2d input_array.
Proof.
  unfold variance_2d, mean_2d. cbv zeta.
  now rewrite mean_2d_missing_row, variance_2d_missing_row by assumption.
Qed.
End MissingLastRow.

(** X17: a row without a single value appended below a grid changes nothing
    of what [structure_function] returns: under the same schedule the
    enumerator returns the same samples in the same order, and
    [structure_function] the same rows in the same order. *)
Theorem structure_function_ignores_missing_last_row
  (c_pow : double -> double -> double) (s : schedule) (input_array : vector_2d)
  (row : list double) (order : Z) :
  input_array <> [] ->
  length row = length (nth 0 input_array []) ->
  Forall (fun v => isnan v = true) row ->
  subtract_pairs s (input_array ++ [row]) = subtract_pairs s input_array
  /\ multiply_pairs s (input_array ++ [row]) = multiply_pairs s input_array
  /\ structure_function c_pow s (input_array ++ [row]) order
     = structure_function c_pow s input_array order.
Proof.
  intros Hgrid _ Hrow.
  assert (Hsub : subtract_pairs s (input_array ++ [row])
                 = subtract_pairs s input_array)
    by (now apply apply_vector_map_with_last_row).
  split; [exact Hsub|]. split; [now apply apply_vector_map_with_last_row|].
  unfold structure_function. cbv zeta.
  now rewrite Hsub, variance_2d_with_last_row.
Qed.

(** X17 for the run with two threads, on the concrete scenario. *)
Lemma structure_function_ignores_missing_last_row_on_grid_1234 :
  (grid_1234 <> [] /\ length [nan; nan] = length (nth 0 grid_1234 [])
   /\ Forall (fun v => isnan v = true) [nan; nan])
  /\ subtract_pairs two_threads (grid_1234 ++ [[nan; nan]])
     = subtract_pairs two_threads grid_1234
  /\ multiply_pairs two_threads (grid_1234 ++ [[nan; nan]])
     = multiply_pairs two_threads grid_1234
  /\ structure_function unused_pow two_threads (grid_1234 ++ [[nan; nan]]) 1
     = structure_function unused_pow two_threads grid_1234 1.
Proof.
  assert (H1 : grid_1234 <> []) by discriminate.
  assert (H2 : length [nan; nan] = length (nth 0 grid_1234 [])) by reflexivity.
  assert (H3 : Forall (fun v => isnan v = true) [nan; nan])
    by (repeat constructor).
  split; [repeat split; assumption|].
  exact (structure_function_ignores_missing_last_row unused_pow two_threads
           grid_1234 [nan; nan] 1 H1 H2 H3).
Defined.

(** ** Grids with fewer than three values *)

Lemma SFeqb_zero_r (x : spec_float) (s : bool) :
  SFeqb x (S754_zero s) = true -> exists s', x = S754_zero s'.
Proof.
  unfold SFeqb. destruct x as [s'|[]| |[] m e]; simpl; try discriminate.
  intros _. now exists s'.
Qed.

Lemma SFeqb_zero_l (y : spec_float) (s : bool) :
  SFeqb (S754_zero s) y = true -> exists s', y = S754_zero s'.
Proof.
  unfold SFeqb. destruct y as [s'|[]| |[] m e]; simpl; try discriminate.
  intros _. now exists s'.
Qed.

Lemma eqb_zero_spec (x : double) :
  (x =? 0)%float = true <-> exists s, Prim2SF x = S754_zero s.
Proof.
  rewrite eqb_spec. change (Prim2SF 0) with (S754_zero false). split.
  - apply SFeqb_zero_r.
  - intros [s ->]. reflexivity.
Qed.

(** Doubles that compare equal are rejected together. *)
Lemma nonzero_distance_eqb (a b : double) :
  (a =? b)%float = true -> nonzero_distance a = nonzero_distance b.
Proof.
  intros Hab. unfold nonzero_distance. f_equal. rewrite eqb_spec in Hab.
  destruct (b =? 0)%float eqn:Hb.
  - apply eqb_zero_spec in Hb as [s Hb]. rewrite Hb in Hab.
    apply eqb_zero_spec. exact (SFeqb_zero_r _ _ Hab).
  - destruct (a =? 0)%float eqn:Ha; [|reflexivity].
    apply eqb_zero_spec in Ha as [s Ha]. rewrite Ha in Hab.
    rewrite <- Hb. symmetry. apply eqb_zero_spec. exact (SFeqb_zero_l _ _ Hab).
Qed.

Lemma length_far_values_insert_end_at (k : double) (vals : list double)
  (m : double_unordered_map) :
  length (far_values (insert_end_at k vals m))
  = length (far_values m) + (if nonzero_distance k then length vals else 0).
Proof.
  unfold far_values, stored_values.
  induction m as [|[k' vs] m IH].
  - rewrite insert_end_at_nil.
    destruct (k =? k)%float; simpl; destruct (nonzero_distance k); simpl;
      rewrite ?app_nil_r; reflexivity.
  - rewrite insert_end_at_cons. destruct (k' =? k)%float eqn:Hk; simpl.
    + rewrite <- (nonzero_distance_eqb k' k Hk).
      destruct (nonzero_distance k'); simpl; [|lia].
      rewrite !length_app. lia.
    + destruct (nonzero_distance k'); simpl; [|exact IH].
      rewrite !length_app, IH. lia.
Qed.

Lemma length_far_values_push_back_at (k v : double) (m : double_unordered_map) :
  length (far_values (push_back_at k v m))
  = length (far_values m) + (if nonzero_distance k then 1 else 0).
Proof.
  unfold far_values, stored_values.
  induction m as [|[k' vs] m IH]; simpl.
  - destruct (nonzero_distance k); reflexivity.
  - destruct (k' =? k)%float eqn:Hk; simpl.
    + rewrite <- (nonzero_distance_eqb k' k Hk).
      destruct (nonzero_distance k'); simpl; [|lia].
      rewrite !length_app. simpl. lia.
    + destruct (nonzero_distance k'); simpl; [|exact IH].
      rewrite !length_app, IH. lia.
Qed.

Lemma length_far_values_fold_push_back_at (l : list sample)
  (m : double_unordered_map) :
  length (far_values
            (fold_left (fun m dv => push_back_at (fst dv) (snd dv) m) l m))
  = length (far_values m) + length (far_samples l).
Proof.
  unfold far_samples.
  revert m; induction l as [|dv l IH]; intros m; simpl; [lia|].
  rewrite IH, length_far_values_push_back_at.
  destruct (nonzero_distance (fst dv)); simpl; lia.
Qed.

Lemma length_far_values_fold_insert_end_at (entries m : double_unordered_map) :
  length (far_values
            (fold_left (fun m pair => insert_end_at (fst pair) (snd pair) m)
                       entries m))
  = length (far_values m) + length (far_values entries).
Proof.
  revert m; induction entries as [|b entries IH]; intros m; simpl.
  - unfold far_values, stored_values. simpl. lia.
  - rewrite IH, length_far_values_insert_end_at.
    unfold far_values, stored_values. simpl.
    destruct (nonzero_distance (fst b)); simpl; [rewrite length_app|]; lia.
Qed.

Lemma length_far_values_perm (m m' : double_unordered_map) :
  Permutation m m' -> length (far_values m) = length (far_values m').
Proof.
  intros H. unfold far_values.
  apply Permutation_length, stored_values_perm, filter_perm, H.
Qed.

Lemma far_samples_flat_map {A : Type} (g : A -> list sample) (l : list A) :
  far_samples (flat_map g l) = flat_map (fun a => far_samples (g a)) l.
Proof.
  unfold far_samples. induction l as [|a l IH]; simpl; [reflexivity|].
  now rewrite filter_app, IH.
Qed.

Lemma length_far_values_merge (s : schedule) (samples : list sample)
  (ts : list nat) (m : double_unordered_map) :
  schedule_ok s ->
  length (far_values
            (fold_left (fun regrouped_vals t =>
                          fold_left (fun regrouped_vals pair =>
                                       insert_end_at (fst pair) (snd pair)
                                                     regrouped_vals)
                                    (map_order s (local_regroup_vals s t samples))
                                    regrouped_vals)
                       ts m))
  = length (far_values m)
    + length (far_samples (flat_map (fun t => owned_samples s t samples) ts)).
Proof.
  intros Hs. revert m; induction ts as [|t ts IH]; intros m; simpl; [lia|].
  rewrite IH, length_far_values_fold_insert_end_at.
  rewrite (length_far_values_perm _ _ (map_order_perm s Hs _)).
  rewrite local_regroup_vals_eq, length_far_values_fold_push_back_at.
  unfold far_samples. rewrite filter_app, length_app.
  unfold far_values, stored_values. simpl. lia.
Qed.

(** The aggregator puts under the keys that the reducer keeps as many values
    as there are samples at such distances. *)
Lemma length_far_values_regroup (s : schedule) (samples : list sample) :
  schedule_ok s ->
  length (far_values (regroup_distance_thread_local s samples []))
  = length (far_samples samples).
Proof.
  intros Hs. unfold regroup_distance_thread_local.
  rewrite (length_far_values_merge s samples _ _ Hs).
  change (length (far_values [])) with 0. rewrite Nat.add_0_l.
  apply Permutation_length. unfold far_samples.
  apply filter_perm, owned_samples_partition, Hs.
Qed.

Lemma length_bucket_le_far_values (m : double_unordered_map)
  (bucket : double * list double) :
  In bucket m -> nonzero_distance (fst bucket) = true ->
  length (snd bucket) <= length (far_values m).
Proof.
  intros Hin Hfar. unfold far_values, stored_values.
  induction m as [|b m IH]; [contradiction|]. simpl.
  destruct Hin as [->|Hin].
  - rewrite Hfar. simpl. rewrite length_app. lia.
  - destruct (nonzero_distance (fst b)); simpl; [|now apply IH].
    rewrite length_app. specialize (IH Hin). lia.
Qed.

Lemma filter_length_mono {A : Type} (f g : A -> bool) (l : list A) :
  (forall a, f a = true -> g a = true) ->
  length (filter f l) <= length (filter g l).
Proof.
  intros H. induction l as [|a l IH]; simpl; [lia|].
  destruct (f a) eqn:Hf.
  - rewrite (H a Hf). simpl. lia.
  - destruct (g a); simpl; lia.
Qed.

Lemma self_pair_spec (p : (nat * nat) * (nat * nat)) :
  self_pair p = true <-> fst p = snd p.
Proof.
  destruct p as [[y x] [j i]]. unfold self_pair. simpl.
  rewrite andb_true_iff, !Nat.eqb_eq. split.
  - now intros [-> ->].
  - intros H. now inversion H.
Qed.

Lemma self_pair_distance (input_array : vector_2d)
  (function : double -> double -> double) (p : (nat * nat) * (nat * nat)) :
  self_pair p = true ->
  nonzero_distance (fst (sample_of input_array function p)) = false.
Proof.
  intros H. apply self_pair_spec in H. destruct p as [[y x] [j i]].
  simpl in H. inversion H; subst. unfold sample_of. simpl.
  now rewrite pair_distance_self.
Qed.

Section FewValues.
Variable input_array : vector_2d.

Lemma self_pairs_visited :
  Permutation (filter self_pair (visited_pairs input_array))
              (map (fun c => (c, c)) (non_missing_cells input_array)).
Proof.
  apply NoDup_Permutation.
  - apply NoDup_filter, NoDup_visited_pairs.
  - apply Finite.Injective_map_NoDup; [|apply NoDup_non_missing_cells].
    intros c c' H. now inversion H.
  - intros [[y x] [j i]].
    rewrite filter_In, self_pair_spec, in_visited_pairs, in_map_iff.
    unfold non_missing_cells, row_major_le. simpl. split.
    + intros [(Hyx & _ & _ & Hv & _) Heq]. inversion Heq; subst.
      exists (j, i). split; [reflexivity|].
      apply filter_In. rewrite in_collapsed_iterations. simpl.
      now rewrite Hv.
    + intros ([y' x'] & Heq & Hin). inversion Heq; subst.
      apply filter_In in Hin as [Hin Hv].
      apply in_collapsed_iterations in Hin. simpl in Hv.
      apply negb_true_iff in Hv. intuition lia.
Qed.

Lemma other_pairs_count :
  2 * length (filter (fun p => negb (self_pair p)) (visited_pairs input_array))
    + 2 * length (non_missing_cells input_array)
  = length (non_missing_cells input_array)
    * (length (non_missing_cells input_array) + 1).
Proof.
  rewrite <- visited_pairs_count.
  rewrite <- (filter_length self_pair (visited_pairs input_array)).
  rewrite (Permutation_length self_pairs_visited), length_map. lia.
Qed.

Lemma far_samples_few (function : double -> double -> double) (s : schedule) :
  schedule_ok s ->
  length (non_missing_cells input_array) <= 2 ->
  length (far_samples (apply_vector_map input_array function s)) <= 1.
Proof.
  intros Hs Hfew.
  unfold far_samples.
  rewrite (Permutation_length
             (filter_perm _ _ _ (apply_vector_map_visited input_array function s Hs))).
  rewrite filter_map_swap, length_map.
  etransitivity.
  - apply (filter_length_mono _ (fun p => negb (self_pair p))).
    intros p Hp. destruct (self_pair p) eqn:Hself; [|reflexivity].
    now rewrite (self_pair_distance input_array function p Hself) in Hp.
  - pose proof other_pairs_count as H.
    destruct (length (non_missing_cells input_array)) as [|[|[|n]]]; lia.
Qed.
End FewValues.

(** X18: a grid with fewer than three values yields no row: whatever the
    schedule and the order, when at most two cells of the grid are not
    missing, every bucket at a distance other than zero holds a single value
    and [structure_function] returns the empty table. *)
Theorem fewer_than_three_values_yield_no_row
  (c_pow : double -> double -> double) (s : schedule) (input_array : vector_2d)
  (order : Z) :
  schedule_ok s ->
  length (non_missing_cells input_array) <= 2 ->
  structure_function c_pow s input_array order = [].
Proof.
  intros Hs Hfew.
  apply Permutation_nil. symmetry.
  rewrite (structure_function_rows c_pow s input_array order Hs).
  unfold bucket_rows. rewrite flat_map_all_nil; [reflexivity|].
  intros [dist vals] Hb.
  unfold structure_row. cbv zeta. simpl fst. simpl snd.
  destruct (dist =? 0)%float eqn:Hdist; [reflexivity|].
  pose proof (length_bucket_le_far_values _ _ Hb) as Hlen. simpl in Hlen.
  unfold nonzero_distance in Hlen. rewrite Hdist in Hlen.
  specialize (Hlen eq_refl).
  rewrite (length_far_values_regroup s _ Hs) in Hlen.
  pose proof (far_samples_few input_array (fun a b => abs (a - b)) s Hs Hfew)
    as Hsamples.
  fold (subtract_pairs s input_array) in Hsamples.
  pose proof (regroup_enumerated_nonempty s input_array
                (fun a b => abs (a - b)) Hs) as Hne.
  fold (subtract_pairs s input_array) in Hne.
  unfold nonempty_buckets in Hne. rewrite Forall_forall in Hne.
  specialize (Hne _ Hb). simpl in Hne.
  destruct vals as [|v [|v' vals]]; [contradiction| |simpl in Hlen; lia].
  fold (bucket_count c_pow order [v]). now rewrite bucket_count_one.
Qed.

(** X18 for the run with two threads, on a grid with two values. *)
Lemma grid_1nn4_yields_no_row :
  (schedule_ok two_threads /\ length (non_missing_cells grid_1nn4) <= 2)
  /\ structure_function unused_pow two_threads grid_1nn4 1 = [].
Proof.
  assert (H : length (non_missing_cells grid_1nn4) <= 2) by (vm_compute; lia).
  split; [split; [exact two_threads_ok|exact H]|].
  exact (fewer_than_three_values_yield_no_row unused_pow two_threads grid_1nn4 1
           two_threads_ok H).
Defined.

(** ** The sign of a variance *)

Lemma binary_round_aux_sign_clear (m e : Z) (l : location) :
  sign_clear (binary_round_aux prec emax false m e l).
Proof.
  unfold binary_round_aux.
  destruct (shr_fexp prec emax m e l) as [mrs1 e1].
  destruct (shr_fexp prec emax
              (round_nearest_even (shr_m mrs1) (loc_of_shr_record mrs1)) e1
              loc_Exact) as [mrs2 e2].
  destruct (shr_m mrs2); [reflexivity| |exact I].
  destruct (e2 <=? emax - prec)%Z; reflexivity.
Qed.

Lemma binary_round_sign_clear (m : positive) (e : Z) :
  sign_clear (binary_round prec emax false m e).
Proof.
  unfold binary_round.
  destruct (shl_align m e (fexp prec emax (Zpos (digits2_pos m) + e))) as [mz ez].
  apply binary_round_aux_sign_clear.
Qed.

Lemma binary_normalize_sign_clear (m e : Z) :
  (0 <= m)%Z -> sign_clear (binary_normalize prec emax m e false).
Proof.
  intros Hm. destruct m as [|p|p]; simpl; [reflexivity| |lia].
  apply binary_round_sign_clear.
Qed.

Lemma SFmul_square_sign_clear (x : spec_float) :
  sign_clear (SFmul prec emax x x).
Proof.
  destruct x as [[]|[]| |[] m e]; simpl; try reflexivity; try exact I;
    apply binary_round_aux_sign_clear.
Qed.

Lemma SFadd_sign_clear (x y : spec_float) :
  sign_clear x -> sign_clear y -> sign_clear (SFadd prec emax x y).
Proof.
  destruct x as [sx|sx| |sx mx ex], y as [sy|sy| |sy my ey]; simpl;
    intros Hx Hy; subst; try reflexivity; try exact I.
  apply binary_round_sign_clear.
Qed.

Lemma SFdiv_sign_clear (x y : spec_float) :
  sign_clear x -> sign_clear y -> sign_clear (SFdiv prec emax x y).
Proof.
  destruct x as [sx|sx| |sx mx ex], y as [sy|sy| |sy my ey]; simpl;
    intros Hx Hy; subst; try reflexivity; try exact I.
  destruct (SFdiv_core_binary prec emax (Zpos mx) ex (Zpos my) ey) as [[mz ez] lz].
  apply binary_round_aux_sign_clear.
Qed.

Lemma SFsqrt_sign_clear (x : spec_float) :
  sign_clear x -> sign_clear (SFsqrt prec emax x).
Proof.
  destruct x as [sx|sx| |sx mx ex]; simpl; intros Hx; subst; try reflexivity; try exact I.
  destruct (SFsqrt_core_binary prec emax (Zpos mx) ex) as [[mz ez] lz].
  apply binary_round_aux_sign_clear.
Qed.

Lemma SF2Prim_sign_clear (x : spec_float) :
  sign_clear x -> sign_clear (Prim2SF (SF2Prim x)).
Proof.
  destruct x as [sx|sx| |sx mx ex]; cbn [sign_clear]; intros Hx; subst;
    try reflexivity; try exact I.
  cbn [SF2Prim]. rewrite Z_ldexp_spec, of_uint63_spec.
  generalize (Uint63.to_Z_bounded (Uint63Axioms.of_Z (Zpos mx))).
  generalize (Uint63Axioms.to_Z (Uint63Axioms.of_Z (Zpos mx))).
  intros u [Hpos _].
  pose proof (binary_normalize_sign_clear u 0 Hpos) as Hn.
  destruct (binary_normalize prec emax u 0 false) as [s|s| |s m e];
    cbn [SFldexp sign_clear] in *; try assumption.
  subst. apply binary_round_sign_clear.
Qed.

(** A count converted to a double has a clear sign bit. *)
Lemma double_of_Z_sign_clear (z : Z) :
  (0 <= z)%Z -> sign_clear (Prim2SF (double_of_Z z)).
Proof.
  intros Hz. unfold double_of_Z.
  now apply SF2Prim_sign_clear, binary_normalize_sign_clear.
Qed.

Lemma sum_of_squares_sign_clear (mean_val : double) (vals : list double)
  (acc : double) :
  sign_clear (Prim2SF acc) ->
  sign_clear
    (Prim2SF (fold_left
                (fun acc val => (acc + (val - mean_val) * (val - mean_val))%float)
                vals acc)).
Proof.
  revert acc; induction vals as [|v vals IH]; intros acc Hacc; simpl;
    [assumption|].
  apply IH. rewrite add_spec, mul_spec.
  apply SFadd_sign_clear; [assumption|apply SFmul_square_sign_clear].
Qed.

Lemma sign_clear_not_negative (x : double) :
  sign_clear (Prim2SF x) -> (x <? 0)%float = false /\ x <> neg_zero.
Proof.
  intros H. split.
  - rewrite ltb_spec. change (Prim2SF 0) with (S754_zero false).
    destruct (Prim2SF x) as [s|s| |s m e]; simpl in H; subst; reflexivity.
  - intros ->. discriminate H.
Qed.

Lemma int_wrap_count_nonneg (n : nat) :
  (Z.of_nat n <= INT_MAX)%Z -> (0 <= int_wrap (Z.of_nat n))%Z.
Proof.
  intros H. rewrite int_wrap_small; [lia|]. unfold INT_MAX in *. lia.
Qed.

(** X19: a variance is never negative: for a vector, and for a grid, of at
    most [INT_MAX] values, [variance] is neither below zero nor the negative
    zero (it may be a not-a-number), and so is [standard_deviation]. *)
Theorem variance_is_never_negative (vals : list double) (grid : vector_2d) :
  ((Z.of_nat (length (non_missing vals)) <= INT_MAX)%Z ->
   ((variance vals <? 0)%float = false /\ variance vals <> neg_zero)
   /\ ((standard_deviation vals <? 0)%float = false
       /\ standard_deviation vals <> neg_zero))
  /\ ((Z.of_nat (non_missing_count grid) <= INT_MAX)%Z ->
      (variance_2d grid <? 0)%float = false /\ variance_2d grid <> neg_zero).
Proof.
  split.
  - intros Hfit.
    assert (H : sign_clear (Prim2SF (variance vals))).
    { rewrite variance_eq, div_spec. apply SFdiv_sign_clear.
      - now apply sum_of_squares_sign_clear.
      - now apply double_of_Z_sign_clear, int_wrap_count_nonneg. }
    split; [now apply sign_clear_not_negative|].
    apply sign_clear_not_negative. unfold standard_deviation.
    rewrite sqrt_spec. now apply SFsqrt_sign_clear.
  - intros Hfit. apply sign_clear_not_negative.
    unfold variance_2d, variance_2d_loop. cbv zeta.
    change (0%float, 0%Z) with (0%float, int_wrap 0).
    rewrite variance_2d_loop_eq. cbn [fst snd]. rewrite div_spec.
    apply SFdiv_sign_clear.
    + now apply sum_of_squares_sign_clear.
    + now apply double_of_Z_sign_clear, int_wrap_count_nonneg.
Qed.

(** X19 on a vector and a grid that have lost a value. *)
Lemma variance_is_never_negative_on_grid_12n4 :
  ((Z.of_nat (length (non_missing [1; nan; 4]%float)) <= INT_MAX)%Z
   /\ (Z.of_nat (non_missing_count grid_12n4) <= INT_MAX)%Z)
  /\ ((variance [1; nan; 4]%float <? 0)%float = false
      /\ variance [1; nan; 4]%float <> neg_zero)
  /\ ((standard_deviation [1; nan; 4]%float <? 0)%float = false
      /\ standard_deviation [1; nan; 4]%float <> neg_zero)
  /\ ((variance_2d grid_12n4 <? 0)%float = false
      /\ variance_2d grid_12n4 <> neg_zero).
Proof.
  assert (H1 : (Z.of_nat (length (non_missing [1; nan; 4]%float)) <= INT_MAX)%Z)
    by (vm_compute; discriminate).
  assert (H2 : (Z.of_nat (non_missing_count grid_12n4) <= INT_MAX)%Z)
    by (vm_compute; discriminate).
  split; [split; assumption|].
  destruct (variance_is_never_negative [1; nan; 4]%float grid_12n4) as [G1 G2].
  destruct (G1 H1) as [Gv Gs].
  split; [exact Gv|]. split; [exact Gs|exact (G2 H2)].
Defined.

(** ** The sign of a distance *)

Lemma pair_distance_sign_clear (x y i j : Z) :
  sign_clear (Prim2SF (pair_distance x y i j)).
Proof.
  rewrite pair_distance_wrap, sqrt_spec.
  apply SFsqrt_sign_clear, double_of_Z_sign_clear.
  unfold size_t_wrap. apply Z.mod_pos_bound. lia.
Qed.

Lemma keys_fold_insert_end_at (entries m : double_unordered_map) :
  incl (map fst (fold_left (fun m pair => insert_end_at (fst pair) (snd pair) m)
                           entries m))
       (map fst m ++ map fst entries).
Proof.
  revert m; induction entries as [|b entries IH]; intros m; simpl.
  - rewrite app_nil_r. apply incl_refl.
  - intros k Hk. apply IH in Hk. rewrite keys_insert_end_at in Hk.
    apply in_app_iff in Hk as [Hk|Hk]; [|apply in_app_iff; right; now right].
    destruct (existsb _ _); [apply in_app_iff; now left|].
    apply in_app_iff in Hk as [Hk|Hk]; apply in_app_iff; [now left|].
    right. left.
    destruct (fst b =? fst b)%float; simpl in Hk; intuition congruence.
Qed.

(** The keys of the aggregated map are keys it had or distances of samples. *)
Lemma keys_regroup (s : schedule) (samples : list sample)
  (regrouped_vals : double_unordered_map) :
  schedule_ok s ->
  incl (map fst (regroup_distance_thread_local s samples regrouped_vals))
       (map fst regrouped_vals ++ map fst samples).
Proof.
  intros Hs. unfold regroup_distance_thread_local.
  generalize (seq 0 (omp_max_threads s)) as ts.
  intros ts; revert regrouped_vals.
  induction ts as [|t ts IH]; intros m; simpl.
  - apply incl_appl, incl_refl.
  - intros k Hk. apply IH in Hk.
    apply in_app_iff in Hk as [Hk|Hk]; [|apply in_app_iff; now right].
    apply keys_fold_insert_end_at in Hk.
    apply in_app_iff in Hk as [Hk|Hk]; [apply in_app_iff; now left|].
    apply (Permutation_in _ (Permutation_map fst (map_order_perm s Hs _))) in Hk.
    rewrite local_regroup_vals_eq in Hk.
    apply keys_fold_push_back_at in Hk. simpl in Hk.
    apply in_app_iff. right.
    apply in_map_iff in Hk as (dv & <- & Hdv).
    apply in_map. exact (in_owned_samples s t samples dv Hdv).
Qed.

(** X20: no distance is negative: whatever the schedule, a distance returned
    by the enumerator is neither below zero nor the negative zero, and the
    distance of a row returned by [structure_function], being none of the
    zeros either, is above zero unless it is a not-a-number. *)
Theorem distances_are_never_negative (c_pow : double -> double -> double)
  (s : schedule) (input_array : vector_2d)
  (function : double -> double -> double) (order : Z) :
  schedule_ok s ->
  (forall dv, In dv (apply_vector_map input_array function s) ->
              (fst dv <? 0)%float = false /\ fst dv <> neg_zero)
  /\ (forall row, In row (structure_function c_pow s input_array order) ->
                  (row_distance row <=? 0)%float = false).
Proof.
  intros Hs. split.
  - intros dv Hdv. apply in_apply_vector_map in Hdv as ([[y x] [j i]] & ->).
    apply sign_clear_not_negative. unfold sample_of. simpl.
    apply pair_distance_sign_clear.
  - intros row Hrow.
    apply (Permutation_in _ (structure_function_rows c_pow s input_array order Hs))
      in Hrow.
    unfold bucket_rows in Hrow.
    apply in_flat_map in Hrow as ([dist vals] & Hbucket & Hrow).
    destruct (structure_row_inv _ _ _ _ _ _ Hrow) as (Hdist & _ & Hfirst & _).
    assert (Hrd : row_distance row = dist).
    { unfold row_distance. destruct row as [|d row]; [discriminate|].
      simpl in Hfirst. now inversion Hfirst. }
    rewrite Hrd.
    assert (Hkey : In dist (map fst (subtract_pairs s input_array))).
    { pose proof (keys_regroup s (subtract_pairs s input_array) [] Hs dist
                    (in_map fst _ _ Hbucket)) as Hk.
      exact Hk. }
    apply in_map_iff in Hkey as (dv & <- & Hdv).
    apply in_apply_vector_map in Hdv as ([[y x] [j i]] & ->).
    unfold sample_of in *. simpl in *.
    pose proof (pair_distance_sign_clear (Z.of_nat x) (Z.of_nat y) (Z.of_nat i)
                  (Z.of_nat j)) as Hsign.
    revert Hdist Hsign. rewrite eqb_spec, leb_spec.
    change (Prim2SF 0) with (S754_zero false).
    destruct (Prim2SF (pair_distance (Z.of_nat x) (Z.of_nat y) (Z.of_nat i)
                         (Z.of_nat j))) as [sd|sd| |sd md ed];
      simpl; intros Hdist Hsign; subst; try reflexivity; discriminate.
Qed.

(** X20 for the run with two threads, on the concrete scenario. *)
Lemma distances_are_never_negative_on_grid_1234 :
  schedule_ok two_threads
  /\ (forall dv, In dv (subtract_pairs two_threads grid_1234) ->
                 (fst dv <? 0)%float = false /\ fst dv <> neg_zero)
  /\ (forall row, In row (structure_function unused_pow two_threads grid_1234 1) ->
                  (row_distance row <=? 0)%float = false).
Proof.
  split; [exact two_threads_ok|].
  exact (distances_are_never_negative unused_pow two_threads grid_1234
           (fun a b => abs (a - b)) 1 two_threads_ok).
Defined.

(** ** The aggregator on two-component distances *)

Lemma insert_end_at_2d_nil (k : double * double) (vals : list double) :
  insert_end_at_2d k vals []
  = (k, vals) :: (if array_eqb k k then [] else [(k, [])]).
Proof. apply insert_at_end_of_nil. Qed.

Lemma insert_end_at_2d_cons (k k' : double * double) (vals vs : list double)
  (m : array_unordered_map) :
  insert_end_at_2d k vals ((k', vs) :: m)
  = if array_eqb k' k then (k', vs ++ vals) :: m
    else (k', vs) :: insert_end_at_2d k vals m.
Proof. apply insert_at_end_of_cons. Qed.

Lemma insert_end_at_2d_values (k : double * double) (vals : list double)
  (m : array_unordered_map) :
  Permutation (concat (map snd (insert_end_at_2d k vals m)))
              (vals ++ concat (map snd m)).
Proof.
  induction m as [|[k' vs] m IH].
  - rewrite insert_end_at_2d_nil. now destruct (array_eqb k k).
  - rewrite insert_end_at_2d_cons. destruct (array_eqb k' k); simpl.
    + rewrite <- app_assoc. rewrite Permutation_app_swap_app. reflexivity.
    + rewrite IH. apply Permutation_app_swap_app.
Qed.

Lemma push_back_at_2d_values (k : double * double) (v : double)
  (m : array_unordered_map) :
  Permutation (concat (map snd (push_back_at_2d k v m)))
              (v :: concat (map snd m)).
Proof.
  induction m as [|[k' vs] m IH]; simpl.
  - reflexivity.
  - destruct (array_eqb k' k); simpl.
    + rewrite <- app_assoc. symmetry. apply Permutation_middle.
    + rewrite IH. symmetry. apply Permutation_middle.
Qed.

Lemma insert_end_at_2d_nonempty (k : double * double) (vals : list double)
  (m : array_unordered_map) :
  array_eqb k k = true -> vals <> [] ->
  Forall (fun b => snd b <> []) m ->
  Forall (fun b => snd b <> []) (insert_end_at_2d k vals m).
Proof.
  intros Hk Hvals. induction m as [|[k' vs] m IH]; intros H.
  - rewrite insert_end_at_2d_nil, Hk. constructor; [assumption|constructor].
  - rewrite insert_end_at_2d_cons. inversion H as [|? ? Hvs Hm]; subst.
    destruct (array_eqb k' k); constructor; simpl in *; auto.
    intros Habs. apply app_eq_nil in Habs as [Habs _]. contradiction.
Qed.

(** A thread-local table whose keys compare equal to themselves and whose
    buckets hold a value stays so when such a key is given a value. *)
Lemma push_back_at_2d_sound (k : double * double) (v : double)
  (m : array_unordered_map) :
  array_eqb k k = true ->
  Forall (fun b => array_eqb (fst b) (fst b) = true /\ snd b <> []) m ->
  Forall (fun b => array_eqb (fst b) (fst b) = true /\ snd b <> [])
         (push_back_at_2d k v m).
Proof.
  intros Hk. induction m as [|[k' vs] m IH]; intros H; simpl.
  - constructor; [split; [assumption|discriminate]|constructor].
  - inversion H as [|? ? [Hk' Hvs] Hm]; subst. simpl in *.
    destruct (array_eqb k' k); constructor; simpl; auto.
    split; [assumption|].
    intros Habs. apply app_eq_nil in Habs as [_ Habs]. discriminate.
Qed.

Lemma fold_push_back_at_2d_values (l : list sample_2d) (m : array_unordered_map) :
  Permutation
    (concat (map snd (fold_left (fun m dv => push_back_at_2d (fst dv) (snd dv) m)
                                l m)))
    (map snd l ++ concat (map snd m)).
Proof.
  revert m; induction l as [|dv l IH]; intros m; simpl; [reflexivity|].
  rewrite IH, push_back_at_2d_values.
  simpl. symmetry. apply Permutation_middle.
Qed.

Lemma fold_push_back_at_2d_sound (l : list sample_2d) (m : array_unordered_map) :
  Forall (fun dv => array_eqb (fst dv) (fst dv) = true) l ->
  Forall (fun b => array_eqb (fst b) (fst b) = true /\ snd b <> []) m ->
  Forall (fun b => array_eqb (fst b) (fst b) = true /\ snd b <> [])
         (fold_left (fun m dv => push_back_at_2d (fst dv) (snd dv) m) l m).
Proof.
  revert m; induction l as [|dv l IH]; intros m Hl Hm; simpl; [assumption|].
  inversion Hl; subst. apply IH; [assumption|].
  now apply push_back_at_2d_sound.
Qed.

Lemma fold_insert_end_at_2d_values (entries m : array_unordered_map) :
  Permutation
    (concat (map snd (fold_left (fun m pair =>
                                   insert_end_at_2d (fst pair) (snd pair) m)
                                entries m)))
    (concat (map snd entries) ++ concat (map snd m)).
Proof.
  revert m; induction entries as [|b entries IH]; intros m; simpl; [reflexivity|].
  rewrite IH, insert_end_at_2d_values.
  rewrite <- app_assoc. apply Permutation_app_swap_app.
Qed.

Lemma fold_insert_end_at_2d_nonempty (entries m : array_unordered_map) :
  Forall (fun b => array_eqb (fst b) (fst b) = true /\ snd b <> []) entries ->
  Forall (fun b => snd b <> []) m ->
  Forall (fun b => snd b <> [])
         (fold_left (fun m pair => insert_end_at_2d (fst pair) (snd pair) m)
                    entries m).
Proof.
  revert m; induction entries as [|b entries IH]; intros m Hl Hm; simpl;
    [assumption|].
  inversion Hl as [|? ? [Hk Hvs] Hrest]; subst. apply IH; [assumption|].
  now apply insert_end_at_2d_nonempty.
Qed.

Lemma local_regroup_vals_2d_eq (s : schedule) (t : nat) (samples : list sample_2d) :
  local_regroup_vals_2d s t samples
  = fold_left (fun m dv => push_back_at_2d (fst dv) (snd dv) m)
              (owned_samples_2d s t samples) [].
Proof.
  unfold local_regroup_vals_2d, owned_samples_2d. now rewrite fold_left_map.
Qed.

Lemma in_owned_samples_2d (s : schedule) (t : nat) (samples : list sample_2d)
  (dv : sample_2d) :
  In dv (owned_samples_2d s t samples) -> In dv samples.
Proof.
  unfold owned_samples_2d. rewrite in_map_iff. intros (i & <- & Hi).
  apply filter_In in Hi as [Hi _]. apply in_seq in Hi.
  apply nth_In. lia.
Qed.

Lemma owned_samples_2d_partition (s : schedule) (samples : list sample_2d) :
  schedule_ok s ->
  Permutation (flat_map (fun t => owned_samples_2d s t samples)
                        (seq 0 (omp_max_threads s)))
              samples.
Proof.
  intros Hs. unfold owned_samples_2d.
  erewrite flat_map_ext by (intros t; apply map_as_flat_map).
  rewrite (owner_partition (regroup_owner s)).
  - rewrite <- map_as_flat_map, map_nth_seq. reflexivity.
  - apply seq_NoDup.
  - intros i _. apply seq_owner_in, (regroup_owner_lt s Hs).
Qed.

Section ArrayMap.
Variable s : schedule.
Hypothesis Hs : schedule_ok s.
Variable array_map_order : array_unordered_map -> array_unordered_map.
Hypothesis array_map_order_perm : forall m, Permutation (array_map_order m) m.
Variable samples : list sample_2d.

Lemma merge_2d_values (ts : list nat) (m : array_unordered_map) :
  Permutation
    (concat (map snd
       (fold_left (fun regrouped_vals t =>
                     fold_left (fun regrouped_vals pair =>
                                  insert_end_at_2d (fst pair) (snd pair)
                                                   regrouped_vals)
                               (array_map_order (local_regroup_vals_2d s t samples))
                               regrouped_vals)
                  ts m)))
    (map snd (flat_map (fun t => owned_samples_2d s t samples) ts)
     ++ concat (map snd m)).
Proof.
  revert m; induction ts as [|t ts IH]; intros m; simpl; [reflexivity|].
  rewrite IH, fold_insert_end_at_2d_values.
  rewrite <- !flat_map_concat_map.
  rewrite (Permutation_flat_map snd (array_map_order_perm _)).
  rewrite !flat_map_concat_map.
  rewrite local_regroup_vals_2d_eq, fold_push_back_at_2d_values.
  simpl. rewrite app_nil_r, map_app.
  rewrite <- !app_assoc. apply Permutation_app_swap_app.
Qed.

Lemma merge_2d_nonempty (ts : list nat) (m : array_unordered_map) :
  Forall (fun dv => array_eqb (fst dv) (fst dv) = true) samples ->
  Forall (fun b => snd b <> []) m ->
  Forall (fun b => snd b <> [])
    (fold_left (fun regrouped_vals t =>
                  fold_left (fun regrouped_vals pair =>
                               insert_end_at_2d (fst pair) (snd pair)
                                                regrouped_vals)
                            (array_map_order (local_regroup_vals_2d s t samples))
                            regrouped_vals)
               ts m).
Proof.
  intros Hkeys.
  revert m; induction ts as [|t ts IH]; intros m Hm; simpl; [assumption|].
  apply IH. apply fold_insert_end_at_2d_nonempty; [|assumption].
  apply (Permutation_Forall (Permutation_sym (array_map_order_perm _))).
  rewrite local_regroup_vals_2d_eq.
  apply fold_push_back_at_2d_sound; [|constructor].
  apply Forall_forall. intros dv Hdv.
  rewrite Forall_forall in Hkeys. apply Hkeys.
  exact (in_owned_samples_2d s t samples dv Hdv).
Qed.
End ArrayMap.



(** ** The clock *)

(** X22: the three setters of [Time] leave a time of day whatever they are
    given and whatever the object held: a value in range is stored as it is,
    any other value is replaced by zero, and a setter touches no other field.
    The constructor with three arguments makes no such check. *)
Theorem setters_leave_a_time_of_day (t : Time) (h m s : Z) :
  time_of_day (asg_seconds s (asg_minutes m (asg_hours h t)))
  /\ get_hours (asg_hours h t)
     = (if (0 <=? h)%Z && (h <? 24)%Z then h else 0%Z)
  /\ get_minutes (asg_hours h t) = get_minutes t
  /\ get_seconds (asg_hours h t) = get_seconds t
  /\ get_hours (Time_of h m s) = h.
Proof.
  unfold time_of_day, asg_seconds, asg_minutes, asg_hours, get_hours,
    get_minutes, get_seconds, Time_of. simpl.
  rewrite !Z.geb_leb.
  repeat split;
    try (destruct (Z.leb_spec 0 h), (Z.ltb_spec h 24); simpl; lia);
    try (destruct (Z.leb_spec 0 m), (Z.ltb_spec m 60); simpl; lia);
    try (destruct (Z.leb_spec 0 s), (Z.ltb_spec s 60); simpl; lia).
Qed.

Lemma set_to_current_time_fields (now : Z) (t : Time) :
  (0 <= now <= INT_MAX)%Z ->
  m_hours (set_to_current_time now t) = ((now / 3600 - 4) mod 24)%Z
  /\ m_minutes (set_to_current_time now t) = ((now / 60) mod 60)%Z
  /\ m_seconds (set_to_current_time now t) = (now mod 60)%Z.
Proof.
  intros Hnow. unfold set_to_current_time. cbv zeta. simpl.
  rewrite int_wrap_small by (unfold INT_MAX in *; lia).
  rewrite !Z.quot_div_nonneg by lia.
  rewrite !Z.rem_mod_nonneg
    by (try lia; apply Z.div_pos; lia).
  repeat split.
  destruct (Z.ltb_spec ((now / 3600) mod 24 - 4) 0);
    Z.div_mod_to_equations; lia.
Qed.

(** X23: until [time(NULL)] outgrows an [int], [set_to_current_time] leaves
    a time of day, whatever the object held: the seconds since the epoch,
    four hours earlier, within their day. *)
Theorem set_to_current_time_until_2038 (now : Z) (t : Time) :
  (0 <= now <= INT_MAX)%Z ->
  time_of_day (set_to_current_time now t)
  /\ (3600 * get_hours (set_to_current_time now t)
      + 60 * get_minutes (set_to_current_time now t)
      + get_seconds (set_to_current_time now t)
      = (now - 4 * 3600) mod 86400)%Z.
Proof.
  intros Hnow. unfold time_of_day, get_hours, get_minutes, get_seconds.
  destruct (set_to_current_time_fields now t Hnow) as (-> & -> & ->).
  repeat split; try (apply Z.mod_pos_bound; lia).
  Z.div_mod_to_equations. lia.
Qed.

(** X23 on 14 November 2023, 22:13:20 UTC. *)
Lemma set_to_current_time_in_2023 :
  (0 <= 1700000000 <= INT_MAX)%Z
  /\ time_of_day (set_to_current_time 1700000000 Time_zero)
  /\ (3600 * get_hours (set_to_current_time 1700000000 Time_zero)
      + 60 * get_minutes (set_to_current_time 1700000000 Time_zero)
      + get_seconds (set_to_current_time 1700000000 Time_zero)
      = (1700000000 - 4 * 3600) mod 86400)%Z.
Proof.
  assert (H : (0 <= 1700000000 <= INT_MAX)%Z) by (unfold INT_MAX; lia).
  split; [exact H|].
  exact (set_to_current_time_until_2038 1700000000 Time_zero H).
Defined.

(** X24: once [time(NULL)] has outgrown an [int], and for as long as it fits
    32 bits, the narrowed count of seconds is negative, and
    [set_to_current_time] leaves minutes and seconds that are never positive
    and hours between -3 and 20, whatever the object held. *)
Theorem set_to_current_time_after_2038 (now : Z) (t : Time) :
  (INT_MAX < now < 2 ^ 32)%Z ->
  (get_minutes (set_to_current_time now t) <= 0)%Z
  /\ (get_seconds (set_to_current_time now t) <= 0)%Z
  /\ (-4 < get_hours (set_to_current_time now t) <= 20)%Z.
Proof.
  intros Hnow. unfold get_hours, get_minutes, get_seconds, set_to_current_time.
  cbv zeta. simpl.
  assert (Hneg : (int_wrap now < 0)%Z).
  { unfold int_wrap, INT_MAX in *.
    replace ((now + 2 ^ 31) mod 2 ^ 32)%Z with (now + 2 ^ 31 - 2 ^ 32)%Z; [lia|].
    apply Z.mod_unique with (q := 1%Z); lia. }
  set (seconds := int_wrap now) in *.
  assert (H60 : (Z.quot seconds 60 <= 0)%Z)
    by (apply Z.quot_le_upper_bound; lia).
  assert (H3600 : (Z.quot seconds 3600 <= 0)%Z)
    by (apply Z.quot_le_upper_bound; lia).
  pose proof (Z.rem_bound_pos_neg (Z.quot seconds 60) 60 ltac:(lia) H60).
  pose proof (Z.rem_bound_pos_neg seconds 60 ltac:(lia) ltac:(lia)).
  pose proof (Z.rem_bound_pos_neg (Z.quot seconds 3600) 24 ltac:(lia) H3600).
  repeat split; try lia;
    destruct (Z.ltb_spec (Z.rem (Z.quot seconds 3600) 24 - 4) 0); lia.
Qed.

(** X24 on 19 January 2038, 03:14:08 UTC, the first second that does not fit
    an [int]: the object holds 17 hours, -14 minutes and -8 seconds. *)
Lemma set_to_current_time_in_2038 :
  (INT_MAX < 2 ^ 31 < 2 ^ 32)%Z
  /\ get_hours (set_to_current_time (2 ^ 31) Time_zero) = 17%Z
  /\ get_minutes (set_to_current_time (2 ^ 31) Time_zero) = (-14)%Z
  /\ get_seconds (set_to_current_time (2 ^ 31) Time_zero) = (-8)%Z
  /\ (get_minutes (set_to_current_time (2 ^ 31) Time_zero) <= 0)%Z
  /\ (get_seconds (set_to_current_time (2 ^ 31) Time_zero) <= 0)%Z
  /\ (-4 < get_hours (set_to_current_time (2 ^ 31) Time_zero) <= 20)%Z.
Proof.
  assert (H : (INT_MAX < 2 ^ 31 < 2 ^ 32)%Z) by (unfold INT_MAX; lia).
  split; [exact H|]. repeat (split; [reflexivity|]).
  exact (set_to_current_time_after_2038 (2 ^ 31) Time_zero H).
Defined.

(** ** The formatted time *)

Lemma length_append (s1 s2 : String.string) :
  String.length (String.append s1 s2) = String.length s1 + String.length s2.
Proof. induction s1 as [|c s1 IH]; simpl; [reflexivity|now rewrite IH]. Qed.

Lemma format_below_100 (qty : Z) :
  (0 <= qty < 100)%Z -> format qty = two_digits qty.
Proof.
  intros H.
  assert (Hall : forallb (fun q => String.eqb (format q) (two_digits q))
                         (map Z.of_nat (seq 0 100)) = true)
    by (vm_compute; reflexivity).
  rewrite forallb_forall in Hall.
  apply String.eqb_eq, Hall.
  apply in_map_iff. exists (Z.to_nat qty). split; [lia|].
  apply in_seq. lia.
Qed.

Lemma format_negative (qty : Z) :
  (qty < 0)%Z ->
  exists digits,
    format qty = String.String "0"%char (String.String "-"%char digits).
Proof.
  intros H. destruct qty as [|p|p]; try lia.
  unfold format, print_int. simpl. eauto.
Qed.

(** X25: [format] writes a number from 0 to 99 with exactly two digits, and
    a negative number as a zero followed by its minus sign; so, until
    [time(NULL)] outgrows an [int], [get_formatted_time] returns the eight
    characters hh:mm:ss of the time of day it leaves in the object. *)
Theorem formatted_time_is_hh_mm_ss (now qty : Z) (t : Time) :
  ((0 <= qty < 100)%Z -> format qty = two_digits qty)
  /\ ((qty < 0)%Z ->
      exists digits,
        format qty = String.String "0"%char (String.String "-"%char digits))
  /\ ((0 <= now <= INT_MAX)%Z ->
      fst (get_formatted_time now t)
      = String.append (two_digits (get_hours (snd (get_formatted_time now t))))
          (String.append ":"%string
             (String.append
                (two_digits (get_minutes (snd (get_formatted_time now t))))
                (String.append ":"%string
                   (two_digits (get_seconds (snd (get_formatted_time now t)))))))
      /\ String.length (fst (get_formatted_time now t)) = 8
      /\ snd (get_formatted_time now t) = set_to_current_time now t).
Proof.
  split; [apply format_below_100|]. split; [apply format_negative|].
  intros Hnow. unfold get_formatted_time. cbv zeta. cbn [fst snd].
  unfold get_hours, get_minutes, get_seconds.
  destruct (set_to_current_time_fields now t Hnow) as (Hh & Hm & Hs).
  assert (H24 : (0 <= m_hours (set_to_current_time now t) < 100)%Z)
    by (rewrite Hh; pose proof (Z.mod_pos_bound (now / 3600 - 4) 24); lia).
  assert (H60 : (0 <= m_minutes (set_to_current_time now t) < 100)%Z)
    by (rewrite Hm; pose proof (Z.mod_pos_bound (now / 60) 60); lia).
  assert (H60' : (0 <= m_seconds (set_to_current_time now t) < 100)%Z)
    by (rewrite Hs; pose proof (Z.mod_pos_bound now 60); lia).
  rewrite !format_below_100 by assumption.
  repeat split.
Qed.

(** X25 on two numbers and on 14 November 2023, 22:13:20 UTC. *)
Lemma formatted_time_in_2023 :
  ((0 <= 7 < 100)%Z /\ (-8 < 0)%Z /\ (0 <= 1700000000 <= INT_MAX)%Z)
  /\ format 7 = "07"%string
  /\ format (-8) = "0-8"%string
  /\ fst (get_formatted_time 1700000000 Time_zero) = "18:13:20"%string.
Proof.
  assert (H1 : (0 <= 7 < 100)%Z) by lia.
  assert (H2 : (-8 < 0)%Z) by lia.
  assert (H3 : (0 <= 1700000000 <= INT_MAX)%Z) by (unfold INT_MAX; lia).
  split; [split; [exact H1|split; [exact H2|exact H3]]|].
  split; [exact (proj1 (formatted_time_is_hh_mm_ss 0 7 Time_zero) H1)|].
  split; [reflexivity|].
  exact (proj1 (proj2 (proj2 (formatted_time_is_hh_mm_ss 1700000000 0 Time_zero))
                 H3)).
Defined.

(** ** The two-dimensional mean and variance on missing cells *)

Lemma variance_loop_non_missing (mean_val : double) (vals : list double)
  (acc : double * Z) :
  fold_left (variance_step mean_val) (non_missing vals) acc
  = fold_left (variance_step mean_val) vals acc.
Proof.
  unfold non_missing.
  revert acc; induction vals as [|v vals IH]; intros acc; simpl; [reflexivity|].
  destruct (isnan v) eqn:Hv; simpl; rewrite IH; [|reflexivity].
  unfold variance_step at 3. now rewrite Hv.
Qed.

Lemma mean_2d_loop_non_missing (vals : vector_2d) :
  mean_2d_loop (map non_missing vals) = mean_2d_loop vals.
Proof.
  unfold mean_2d_loop. apply fold_left_rows_ext. intros st row. cbv zeta.
  now rewrite !mean_row_eq, non_missing_idempotent.
Qed.

Lemma variance_2d_loop_non_missing (mean_val : double) (vals : vector_2d) :
  variance_2d_loop mean_val (map non_missing vals)
  = variance_2d_loop mean_val vals.
Proof.
  unfold variance_2d_loop. apply fold_left_rows_ext. intros acc row. cbv zeta.
  now rewrite variance_loop_non_missing.
Qed.

Lemma non_missing_count_non_missing (vals : vector_2d) :
  non_missing_count (map non_missing vals) = non_missing_count vals.
Proof.
  unfold non_missing_count. rewrite map_map. do 2 f_equal.
  apply map_ext. intros row. apply non_missing_idempotent.
Qed.

Lemma non_missing_count_without_row (before after : vector_2d)
  (row : list double) :
  Forall (fun v => isnan v = true) row ->
  non_missing_count (before ++ row :: after) = non_missing_count (before ++ after).
Proof.
  intros Hrow. unfold non_missing_count.
  rewrite !map_app, !concat_app. simpl.
  now rewrite (non_missing_all row Hrow).
Qed.

Lemma mean_2d_loop_without_row (before after : vector_2d) (row : list double) :
  Forall (fun v => isnan v = true) row ->
  mean_2d_loop (before ++ row :: after) = mean_2d_loop (before ++ after).
Proof.
  intros Hrow. unfold mean_2d_loop. rewrite !fold_left_app. cbn [fold_left].
  cbv zeta. rewrite (all_missing_mean_row row Hrow). cbn [fst snd].
  fold (mean_2d_loop before).
  destruct (mean_2d_loop_invariant before) as [Hzero Hwrap].
  rewrite add_zero_r by exact Hzero. rewrite Z.add_0_r, Hwrap.
  now destruct (mean_2d_loop before).
Qed.

Lemma variance_2d_loop_without_row (mean_val : double) (before after : vector_2d)
  (row : list double) :
  Forall (fun v => isnan v = true) row ->
  variance_2d_loop mean_val (before ++ row :: after)
  = variance_2d_loop mean_val (before ++ after).
Proof.
  intros Hrow. unfold variance_2d_loop. rewrite !fold_left_app. cbn [fold_left].
  cbv zeta. f_equal.
  rewrite <- variance_loop_non_missing, (non_missing_all row Hrow).
  simpl. now destruct (fold_left _ before _).
Qed.

(** X26: the two-dimensional [mean] and [variance] and [count_non_nan] read
    only the cells that are not missing: removing the missing entries from
    every row changes none of them, and a row without a single value,
    wherever it stands in the grid, changes none of them either. *)
Theorem mean_2d_skips_missing_cells (vals before after : vector_2d)
  (row : list double) :
  (mean_2d (map non_missing vals) = mean_2d vals
   /\ variance_2d (map non_missing vals) = variance_2d vals
   /\ count_non_nan (map non_missing vals) = count_non_nan vals)
  /\ (Forall (fun v => isnan v = true) row ->
      mean_2d (before ++ row :: after) = mean_2d (before ++ after)
      /\ variance_2d (before ++ row :: after) = variance_2d (before ++ after)
      /\ count_non_nan (before ++ row :: after)
         = count_non_nan (before ++ after)).
Proof.
  split.
  - assert (Hmean : mean_2d (map non_missing vals) = mean_2d vals)
      by (unfold mean_2d; now rewrite mean_2d_loop_non_missing).
    split; [exact Hmean|]. split.
    + unfold variance_2d. cbv zeta.
      now rewrite Hmean, variance_2d_loop_non_missing.
    + now rewrite !count_non_nan_eq, non_missing_count_non_missing.
  - intros Hrow.
    assert (Hmean : mean_2d (before ++ row :: after) = mean_2d (before ++ after))
      by (unfold mean_2d; now rewrite mean_2d_loop_without_row).
    split; [exact Hmean|]. split.
    + unfold variance_2d. cbv zeta.
      now rewrite Hmean, variance_2d_loop_without_row.
    + now rewrite !count_non_nan_eq, non_missing_count_without_row.
Qed.

(** X26 on a grid that has lost a value, with a row of missing entries in
    its middle. *)
Lemma mean_2d_skips_missing_cells_on_grid_12n4 :
  Forall (fun v => isnan v = true) [nan; nan]
  /\ (mean_2d (map non_missing grid_12n4) = mean_2d grid_12n4
      /\ variance_2d (map non_missing grid_12n4) = variance_2d grid_12n4
      /\ count_non_nan (map non_missing grid_12n4) = count_non_nan grid_12n4)
  /\ mean_2d ([[1; 2]%float] ++ [nan; nan] :: [[nan; 4]%float])
     = mean_2d ([[1; 2]%float] ++ [[nan; 4]%float])
  /\ variance_2d ([[1; 2]%float] ++ [nan; nan] :: [[nan; 4]%float])
     = variance_2d ([[1; 2]%float] ++ [[nan; 4]%float])
  /\ count_non_nan ([[1; 2]%float] ++ [nan; nan] :: [[nan; 4]%float])
     = count_non_nan ([[1; 2]%float] ++ [[nan; 4]%float]).
Proof.
  assert (H : Forall (fun v => isnan v = true) [nan; nan])
    by (repeat constructor).
  split; [exact H|].
  destruct (mean_2d_skips_missing_cells grid_12n4 [[1; 2]%float]
              [[nan; 4]%float] [nan; nan]) as [H1 H2].
  split; [exact H1|]. exact (H2 H).
Defined.
